(** * Google Play deploy step: a shallow embedding of publish.go and main.go

    The Go sources are embedded as Rocq functions.  Pure helpers become
    functions; code that talks to the Play backend, the file system or the
    log becomes a computation over an explicit trace of events, with the
    answers of the outside world supplied by an oracle record.  Go's
    [int64] version codes are integers ([Z]); the code only compares them,
    so no wrap-around arises.  Go strings are byte strings ([string]). *)

From Stdlib Require Import ZArith Ascii String List Bool Lia SpecFloat.
From stdpp Require Import base option list sorting strings gmap.

Local Open Scope string_scope.
Local Open Scope list_scope.
Local Open Scope Z_scope.

(** ** Go values shared by both files *)

(** Go's [error] interface.  [io_EOF] is the sentinel value [io.EOF], which
    the code compares by identity; every other error carries its text. *)
Inductive error : Type :=
| io_EOF
| errorString (msg : string).

Definition Error (e : error) : string :=
  match e with
  | io_EOF => "EOF"
  | errorString msg => msg
  end.

(** A Go result pair [(v, err)] with the convention that [v] is meaningful
    only when [err == nil]. *)
Inductive result (A : Type) : Type :=
| Ok (v : A)
| Err (e : error).
Arguments Ok {A} v.
Arguments Err {A} e.

(** Go's [float64] is the IEEE 754 binary64 format: 53 bits of precision,
    exponents up to 1024.  A finite value is a sign, a mantissa and an
    exponent in canonical form, so 1 is 2^52 * 2^-52. *)
Definition float64 : Type := spec_float.
Definition float64_zero : float64 := S754_zero false.
Definition float64_one : float64 := S754_finite false 4503599627370496 (-52).

(** Go's [x != 0] on a float64: false exactly for the two zeros. *)
Definition float64_nonzero (x : float64) : bool := negb (SFeqb x float64_zero).

(** ** Package strings *)

Module strings.

Definition HasPrefix (s prefix : string) : bool := String.prefix prefix s.

Fixpoint drop (n : nat) (s : string) : string :=
  match n, s with
  | O, _ => s
  | S n', String _ s' => drop n' s'
  | S _, EmptyString => EmptyString
  end.

Definition TrimPrefix (s prefix : string) : string :=
  if HasPrefix s prefix then drop (String.length prefix) s else s.

(** [strings.Split] for a one-byte separator, the only use in the code. *)
Fixpoint Split (s : string) (sep : ascii) : list string :=
  match s with
  | EmptyString => [EmptyString]
  | String c s' =>
      if Ascii.eqb c sep then EmptyString :: Split s' sep
      else match Split s' sep with
           | [] => [String c EmptyString]
           | seg :: segs => String c seg :: segs
           end
  end.

Definition Join (elems : list string) (sep : string) : string :=
  String.concat sep elems.

Definition code (c : ascii) : N := N_of_ascii c.

(** UTF-8 encodings of the runes for which [unicode.IsSpace] holds:
    U+0009..U+000D and U+0020 in one byte; U+0085 and U+00A0 in two;
    U+1680, U+2000..U+200A, U+2028, U+2029, U+202F, U+205F and U+3000 in
    three. *)
Definition space1 (b1 : N) : bool :=
  ((9 <=? b1) && (b1 <=? 13) || (b1 =? 32))%N.

Definition space2 (b1 b2 : N) : bool :=
  ((b1 =? 194) && ((b2 =? 133) || (b2 =? 160)))%N.

Definition space3 (b1 b2 b3 : N) : bool :=
  ((b1 =? 225) && (b2 =? 154) && (b3 =? 128)
   || (b1 =? 226) && (b2 =? 128)
      && ((128 <=? b3) && (b3 <=? 138) || (b3 =? 168) || (b3 =? 169) || (b3 =? 175))
   || (b1 =? 226) && (b2 =? 129) && (b3 =? 159)
   || (b1 =? 227) && (b2 =? 128) && (b3 =? 128))%N.

(** [strings.TrimLeftFunc s unicode.IsSpace]: drop leading white-space
    runes.  A byte sequence that is not one of the encodings above decodes
    to a rune that is not white space. *)
Fixpoint TrimLeftSpace (s : string) : string :=
  match s with
  | EmptyString => EmptyString
  | String c1 r1 =>
      if space1 (code c1) then TrimLeftSpace r1
      else
        match r1 with
        | EmptyString => s
        | String c2 r2 =>
            if space2 (code c1) (code c2) then TrimLeftSpace r2
            else
              match r2 with
              | EmptyString => s
              | String c3 r3 =>
                  if space3 (code c1) (code c2) (code c3)
                  then TrimLeftSpace r3 else s
              end
        end
  end.

Fixpoint rev_onto (s acc : string) : string :=
  match s with
  | EmptyString => acc
  | String c s' => rev_onto s' (String c acc)
  end.

Definition reverse (s : string) : string := rev_onto s EmptyString.

(** The same scan from the end, on the reversed bytes: the last rune is
    white space exactly when the string ends with one of the encodings. *)
Fixpoint TrimLeftSpaceRev (s : string) : string :=
  match s with
  | EmptyString => EmptyString
  | String c1 r1 =>
      if space1 (code c1) then TrimLeftSpaceRev r1
      else
        match r1 with
        | EmptyString => s
        | String c2 r2 =>
            if space2 (code c2) (code c1) then TrimLeftSpaceRev r2
            else
              match r2 with
              | EmptyString => s
              | String c3 r3 =>
                  if space3 (code c3) (code c2) (code c1)
                  then TrimLeftSpaceRev r3 else s
              end
        end
  end.

Definition TrimRightSpace (s : string) : string :=
  reverse (TrimLeftSpaceRev (reverse s)).

(** [strings.TrimSpace]. *)
Definition TrimSpace (s : string) : string :=
  TrimRightSpace (TrimLeftSpace s).

End strings.

(** ** The backend's data model (package androidpublisher, v3)

    Only the fields read or written by publish.go are kept.  A field whose
    value is the Go zero value is left out of a request unless its name is
    listed in [ForceSendFields]. *)

Module androidpublisher.

Record LocalizedText : Type := {
  Language : string;
  Text : string;
  LocalizedText_ForceSendFields : list string;
  LocalizedText_NullFields : list string
}.

Record TrackRelease : Type := {
  Name : string;
  ReleaseNotes : list LocalizedText;
  Status : string;
  UserFraction : float64;
  VersionCodes : list Z;
  ForceSendFields : list string;
  NullFields : list string
}.

Record Track : Type := {
  Releases : list TrackRelease;
  Track_Track : string
}.

(** The user fraction travels in the request body when it is non-zero or
    force-sent. *)
Definition sends_UserFraction (r : TrackRelease) : bool :=
  float64_nonzero (UserFraction r)
  || bool_decide ("UserFraction" ∈ ForceSendFields r).

(** The version-code list travels when it is non-empty or force-sent; a
    force-sent empty list is transmitted as an explicit empty list. *)
Definition sends_VersionCodes (r : TrackRelease) : bool :=
  negb (bool_decide (VersionCodes r = []))
  || bool_decide ("VersionCodes" ∈ ForceSendFields r).

End androidpublisher.
Import androidpublisher.

(** ** Events and the outside world *)

(** What a run does to the outside world, in order.  Each event records the
    call and the answer it received. *)
Inductive Event : Type :=
| EvOpen (path : string) (reply : result string)
| EvGlob (pattern : string) (reply : result (list string))
| EvReadStringFromFile (path : string) (reply : result string)
| EvExpansionfilesUpload (packageName appEditID : string) (versionCode : Z)
    (expFileType file : string) (reply : option error)
| EvTracksGet (packageName appEditID track : string) (reply : result Track)
| EvTracksPatch (packageName appEditID track : string) (body : Track)
    (reply : option error)
| EvLogDonef (msg : string).

(** The answers of the file system and of the Play backend.  Every answer
    may depend on all that happened before. *)
Record World : Type := {
  filepath_Join : string → string → string;
  os_Open : list Event → string → result string;
  filepath_Glob : list Event → string → result (list string);
  fileutil_ReadStringFromFile : list Event → string → result string;
  Expansionfiles_Upload_Do :
    list Event → string → string → Z → string → string → option error;
  Tracks_Get_Do : list Event → string → string → string → result Track;
  Tracks_Patch_Do :
    list Event → string → string → string → Track → option error
}.

(** Computations that append to the trace of events. *)
Definition M (A : Type) : Type := list Event → list Event * A.

#[global] Instance M_ret : MRet M := fun A (a : A) tr => (tr, a).

#[global] Instance M_bind : MBind M := fun A B (k : A → M B) (m : M A) tr =>
  let '(tr', a) := m tr in k a tr'.

(** Perform a call: ask the world, record call and answer. *)
Definition perform {A} (ask : list Event → A) (ev : A → Event) : M A :=
  fun tr => let a := ask tr in (tr ++ [ev a], a).

Definition log_Donef (msg : string) : M unit :=
  fun tr => (tr ++ [EvLogDonef msg], tt).

(** A Go function either returns or panics. *)
Inductive outcome (A : Type) : Type :=
| Returned (a : A)
| Panicked (msg : string).
Arguments Returned {A} a.
Arguments Panicked {A} msg.

(** ** publish.go *)

Definition releaseStatusCompleted : string := "completed".
Definition releaseStatusInProgress : string := "inProgress".

Definition alphaTrackName : string := "alpha".
Definition betaTrackName : string := "beta".
Definition rolloutTrackName : string := "rollout".
Definition productionTrackName : string := "production".

(** [expFileInfo]: the pair is (path, type), as in the source. *)
Definition expFileInfo (expFileConfigEntry : string) : result (string * string) :=
  let expansionFilePathSplit := strings.Split expFileConfigEntry ":" in
  if (length expansionFilePathSplit <? 2)%nat then
    Err (errorString ("malformed expansion file path: " +:+ expFileConfigEntry))
  else
    let expFileType := strings.TrimSpace (nth 0 expansionFilePathSplit "") in
    let expFilePth :=
      strings.TrimSpace (strings.Join (drop 1 expansionFilePathSplit) "") in
    Ok (expFilePth, expFileType).

(** [validateExpansionFileConfig]. *)
Definition validateExpansionFileConfig (expFileEntry : string) : bool :=
  let cleanExpFileConfigEntry := strings.TrimSpace expFileEntry in
  strings.HasPrefix cleanExpFileConfigEntry "main:"
  || strings.HasPrefix cleanExpFileConfigEntry "patch:".

(** [uploadExpansionFiles].  The opened file is identified by its path; a
    nil [*os.File] prints as [<nil>]. *)
Definition uploadExpansionFiles (w : World) (expFileEntry packageName appEditID : string)
    (versionCode : Z) : M (option error) :=
  let cleanExpFileConfigEntry := strings.TrimSpace expFileEntry in
  if negb (validateExpansionFileConfig cleanExpFileConfigEntry) then
    mret (Some (errorString ("invalid expansion file config: " +:+ expFileEntry)))
  else
    match expFileInfo cleanExpFileConfigEntry with
    | Err err => mret (Some err)
    | Ok (expFilePth, expFileType) =>
        opened ← perform (fun tr => os_Open w tr expFilePth) (EvOpen expFilePth);
        match opened with
        | Err err =>
            mret (Some (errorString
              ("failed to read expansion file (<nil>), error: " +:+ Error err)))
        | Ok expansionFile =>
            reply ← perform
              (fun tr => Expansionfiles_Upload_Do w tr packageName appEditID
                           versionCode expFileType expansionFile)
              (EvExpansionfilesUpload packageName appEditID versionCode
                 expFileType expansionFile);
            match reply with
            | Some err =>
                mret (Some (errorString
                  ("failed to upload expansion file, error: " +:+ Error err)))
            | None => mret None
            end
        end
    end.

(** The rest of the line: the longest prefix free of a line feed, which is
    what a dot-star of the regular expression can span. *)
Fixpoint line (s : string) : string :=
  match s with
  | EmptyString => EmptyString
  | String c r => if Ascii.eqb c "010" then EmptyString else String c (line r)
  end.

Fixpoint contains_byte (b : ascii) (s : string) : bool :=
  match s with
  | EmptyString => false
  | String c r => Ascii.eqb c b || contains_byte b r
  end.

(** [FindStringSubmatch] of the compiled pattern: the text [whatsnew-], then
    a group made of any run, a hyphen and any run, where a run is dot-star.
    It finds the leftmost place where [whatsnew-] is followed, on the same line, by
    text holding a hyphen; both stars being greedy, the match runs to the
    end of that line.  The answer is the whole match and the group, or nil. *)
Fixpoint FindStringSubmatch (s : string) : list string :=
  match s with
  | EmptyString => []
  | String _ r =>
      let local := line (strings.drop 9 s) in
      if strings.HasPrefix s "whatsnew-" && contains_byte "-" local
      then ["whatsnew-" +:+ local; local]
      else FindStringSubmatch r
  end.

(** The loop of [readLocalisedRecentChanges] over the paths found. *)
Fixpoint readLocalisedRecentChanges_loop (w : World) (recentChangesPaths : list string)
    (recentChangesMap : gmap string string) : M (result (gmap string string)) :=
  match recentChangesPaths with
  | [] => mret (Ok recentChangesMap)
  | recentChangesPath :: rest =>
      match FindStringSubmatch recentChangesPath with
      | [_; language] =>
          content ← perform
            (fun tr => fileutil_ReadStringFromFile w tr recentChangesPath)
            (EvReadStringFromFile recentChangesPath);
          match content with
          | Err err => mret (Err err)
          | Ok content =>
              readLocalisedRecentChanges_loop w rest
                (<[language := content]> recentChangesMap)
          end
      | _ => readLocalisedRecentChanges_loop w rest recentChangesMap
      end
  end.

(** [readLocalisedRecentChanges]. *)
Definition readLocalisedRecentChanges (w : World) (recentChangesDir : string)
    : M (result (gmap string string)) :=
  let recentChangesMap : gmap string string := ∅ in
  let pattern := filepath_Join w recentChangesDir "whatsnew-*-*" in
  globbed ← perform (fun tr => filepath_Glob w tr pattern) (EvGlob pattern);
  match globbed with
  | Err err => mret (Err err)
  | Ok recentChangesPaths =>
      readLocalisedRecentChanges_loop w recentChangesPaths recentChangesMap
  end.

Definition set_ReleaseNotes (release : TrackRelease) (notes : list LocalizedText)
    : TrackRelease :=
  {| Name := Name release; ReleaseNotes := notes; Status := Status release;
     UserFraction := UserFraction release; VersionCodes := VersionCodes release;
     ForceSendFields := ForceSendFields release; NullFields := NullFields release |}.

Definition set_UserFraction (release : TrackRelease) (userFraction : float64)
    : TrackRelease :=
  {| Name := Name release; ReleaseNotes := ReleaseNotes release;
     Status := Status release; UserFraction := userFraction;
     VersionCodes := VersionCodes release;
     ForceSendFields := ForceSendFields release; NullFields := NullFields release |}.

(** [updateListing] writes through the release pointer; the updated release
    is handed back.  Go ranges over the map in no fixed order, so only the
    set of notes is meaningful. *)
Definition updateListing (w : World) (whatsNewsDir : string) (release : TrackRelease)
    : M (TrackRelease * option error) :=
  if negb (String.eqb whatsNewsDir "") then
    changes ← readLocalisedRecentChanges w whatsNewsDir;
    match changes with
    | Err err =>
        mret (release,
              Some (errorString ("failed to read whatsnews, error: " +:+ Error err)))
    | Ok recentChangesMap =>
        let releaseNotes :=
          (fun '(language, recentChanges) =>
             {| Language := language; Text := recentChanges;
                LocalizedText_ForceSendFields := [];
                LocalizedText_NullFields := [] |})
          <$> map_to_list recentChangesMap in
        mret (set_ReleaseNotes release releaseNotes, None)
    end
  else mret (release, None).

(** [releaseStatusFromConfig]. *)
Definition releaseStatusFromConfig (userFraction : float64) : string :=
  if float64_nonzero userFraction then releaseStatusInProgress
  else releaseStatusCompleted.

(** [createTrackRelease]. *)
Definition createTrackRelease (w : World) (whatsNewsDir : string)
    (versionCodes : list Z) (userFraction : float64) : M (result TrackRelease) :=
  let status := releaseStatusFromConfig userFraction in
  let newRelease :=
    {| Name := ""; ReleaseNotes := []; Status := status;
       UserFraction := float64_zero; VersionCodes := versionCodes;
       ForceSendFields := []; NullFields := [] |} in
  let newRelease :=
    if float64_nonzero userFraction then set_UserFraction newRelease userFraction
    else newRelease in
  '(newRelease, err) ← updateListing w whatsNewsDir newRelease;
  match err with
  | Some err =>
      mret (Err (errorString ("failed to update listing, reason: " +:+ Error err)))
  | None => mret (Ok newRelease)
  end.

(** The inner loop of [trackNamesToUpdate]: the candidate names equal to the
    name of one track, appended in order. *)
Fixpoint trackNamesToUpdate_inner (possibleTrackNamesToUpdate : list string)
    (track : Track) (trackNamesToUpdate : list string) : list string :=
  match possibleTrackNamesToUpdate with
  | [] => trackNamesToUpdate
  | trackNameToUpdate :: rest =>
      trackNamesToUpdate_inner rest track
        (if String.eqb trackNameToUpdate (Track_Track track)
         then trackNamesToUpdate ++ [trackNameToUpdate]
         else trackNamesToUpdate)
  end.

Fixpoint trackNamesToUpdate_outer (possibleTrackNamesToUpdate : list string)
    (tracks : list Track) (trackNamesToUpdate : list string) : list string :=
  match tracks with
  | [] => trackNamesToUpdate
  | track :: rest =>
      trackNamesToUpdate_outer possibleTrackNamesToUpdate rest
        (trackNamesToUpdate_inner possibleTrackNamesToUpdate track trackNamesToUpdate)
  end.

(** The switch of [trackNamesToUpdate]. *)
Definition possibleTrackNamesToUpdate (track : string) : list string :=
  if String.eqb track betaTrackName then [alphaTrackName]
  else if String.eqb track rolloutTrackName || String.eqb track productionTrackName
  then [alphaTrackName; betaTrackName]
  else [].

(** [trackNamesToUpdate]. *)
Definition trackNamesToUpdate (track : string) (tracks : list Track) : list string :=
  trackNamesToUpdate_outer (possibleTrackNamesToUpdate track) tracks [].

(** [sort.Slice] with the comparison [a < b] on integers: the slice is
    rearranged in place into its ascending order. *)
Definition sort_Slice (s : list Z) : list Z := merge_sort Z.le s.

(** The loop of [hasShadowingVersions] from index [i], with [n] rounds left.
    Reading [currentVersionCodes[i]] past the end panics. *)
Fixpoint hasShadowingVersions_loop (currentVersionCodes newVersionCodes : list Z)
    (i n : nat) : outcome bool :=
  match n with
  | O => Returned false
  | S n' =>
      match currentVersionCodes !! i, newVersionCodes !! i with
      | Some c, Some v =>
          if c <? v then Returned true
          else hasShadowingVersions_loop currentVersionCodes newVersionCodes (S i) n'
      | None, _ => Panicked "index out of range"
      | Some _, None => Returned false
      end
  end.

(** [hasShadowingVersions].  Both slices share their storage with the
    caller's, so the two sorted slices are handed back with the answer. *)
Definition hasShadowingVersions (currentVersionCodes newVersionCodes : list Z)
    : list Z * list Z * outcome bool :=
  let currentVersionCodes := sort_Slice currentVersionCodes in
  let newVersionCodes := sort_Slice newVersionCodes in
  (currentVersionCodes, newVersionCodes,
   hasShadowingVersions_loop currentVersionCodes newVersionCodes 0
     (length newVersionCodes)).

Definition set_VersionCodes (release : TrackRelease) (versionCodes : list Z)
    : TrackRelease :=
  {| Name := Name release; ReleaseNotes := ReleaseNotes release;
     Status := Status release; UserFraction := UserFraction release;
     VersionCodes := versionCodes;
     ForceSendFields := ForceSendFields release; NullFields := NullFields release |}.

Definition set_ForceSendFields (release : TrackRelease) (fields : list string)
    : TrackRelease :=
  {| Name := Name release; ReleaseNotes := ReleaseNotes release;
     Status := Status release; UserFraction := UserFraction release;
     VersionCodes := VersionCodes release;
     ForceSendFields := fields; NullFields := NullFields release |}.

(** [hasBlockingVersionInRelease], with the release and the new codes as
    the call leaves them. *)
Definition hasBlockingVersionInRelease (release : TrackRelease)
    (newVersionCodes : list Z) : TrackRelease * list Z * outcome bool :=
  if negb (length (VersionCodes release) =? length newVersionCodes)%nat then
    (release, newVersionCodes, Returned true)
  else
    let '(current, newVersionCodes, answer) :=
      hasShadowingVersions (VersionCodes release) newVersionCodes in
    (set_VersionCodes release current, newVersionCodes, answer).

(** The loop of [untrackFromTracks] over the releases of one track. *)
Fixpoint untrackFromTracks_releases (releases : list TrackRelease)
    (versionCodes : list Z) (anyTrackUpdated : bool)
    : outcome (list TrackRelease * list Z * bool) :=
  match releases with
  | [] => Returned ([], versionCodes, anyTrackUpdated)
  | release :: rest =>
      let '(release, versionCodes, blocking) :=
        hasBlockingVersionInRelease release versionCodes in
      match blocking with
      | Panicked msg => Panicked msg
      | Returned blocking =>
          let '(release, anyTrackUpdated) :=
            if blocking
            then (set_ForceSendFields (set_VersionCodes release []) ["VersionCodes"],
                  true)
            else (release, anyTrackUpdated) in
          match untrackFromTracks_releases rest versionCodes anyTrackUpdated with
          | Panicked msg => Panicked msg
          | Returned (rest, versionCodes, anyTrackUpdated) =>
              Returned (release :: rest, versionCodes, anyTrackUpdated)
          end
      end
  end.

(** The loop of [untrackFromTracks] over the track names; [anyTrackUpdated]
    is declared before the loop and lives across its rounds. *)
Fixpoint untrackFromTracks_loop (w : World) (trackNamesToUpdate : list string)
    (versionCodes : list Z) (packageName appEditID : string)
    (anyTrackUpdated : bool) : M (outcome (option error)) :=
  match trackNamesToUpdate with
  | [] => mret (Returned None)
  | trackName :: rest =>
      got ← perform (fun tr => Tracks_Get_Do w tr packageName appEditID trackName)
                    (EvTracksGet packageName appEditID trackName);
      match got with
      | Err err =>
          mret (Returned (Some (errorString
            ("failed to get track (" +:+ trackName +:+ "), error: " +:+ Error err))))
      | Ok track =>
          match untrackFromTracks_releases (Releases track) versionCodes
                  anyTrackUpdated with
          | Panicked msg => mret (Panicked msg)
          | Returned (releases, versionCodes, anyTrackUpdated) =>
              let track :=
                {| Releases := releases; Track_Track := Track_Track track |} in
              log_Donef (if anyTrackUpdated : bool
                         then "Desired versions deactivated"
                         else "No blocking apk version found");;
              reply ← perform
                (fun tr => Tracks_Patch_Do w tr packageName appEditID trackName track)
                (EvTracksPatch packageName appEditID trackName track);
              match reply with
              | Some (errorString msg) =>
                  mret (Returned (Some (errorString
                    ("failed to update track (" +:+ trackName +:+ "), error: "
                     +:+ msg))))
              | Some io_EOF | None =>
                  untrackFromTracks_loop w rest versionCodes packageName appEditID
                    anyTrackUpdated
              end
          end
      end
  end.

(** [untrackFromTracks]. *)
Definition untrackFromTracks (w : World) (trackNamesToUpdate : list string)
    (versionCodes : list Z) (packageName appEditID : string)
    : M (outcome (option error)) :=
  let anyTrackUpdated := false in
  untrackFromTracks_loop w trackNamesToUpdate versionCodes packageName appEditID
    anyTrackUpdated.

(** [getTrack]. *)
Fixpoint getTrack (trackName : string) (allTracks : list Track) : result Track :=
  match allTracks with
  | [] => Err (errorString ("could not find track with name " +:+ trackName))
  | track :: rest =>
      if String.eqb trackName (Track_Track track) then Ok track
      else getTrack trackName rest
  end.

(** ** main.go

    main.go talks to version 2 of the backend interface, where a track
    carries its version codes and user fraction itself.  A run is a
    computation over the trace of the calls it made; it goes on, leaves the
    process through [os.Exit], or panics.  Log lines are not recorded. *)

Module main_go.

Record ConfigsModel : Type := {
  ServiceAccountEmail : string;
  P12KeyPath : string;
  JSONKeyPath : string;
  PackageName : string;
  ApkPath : string;
  Track : string;
  UserFraction : string
}.

Record JwtConfig : Type := {
  Email : string;
  PrivateKey : string;
  TokenURL : string;
  Scopes : list string
}.

Record AppEdit : Type := { Id : string }.
Record Apk : Type := { VersionCode : Z }.

Record TrackV2 : Type := {
  TrackV2_Track : string;
  TrackV2_UserFraction : float64;
  TrackV2_VersionCodes : list Z
}.

(** The calls a run makes.  [http_Get] and the calls to the edits, apks
    and tracks services reach the network; see [is_remote]. *)
Inductive Call : Type :=
| IsPathExists (pth : string)
| NormalizedOSTempDirPath (prefix : string)
| os_Create (targetPath : string)
| http_Get (downloadURL : string)
| io_Copy (targetPath downloadURL : string)
| Body_Close (downloadURL : string)
| File_Close (targetPath : string)
| ReadBytesFromFile (pth : string)
| JWTConfigFromJSON (jsonKeyBytes : string)
| openssl_pkcs12 (pth : string)
| androidpublisher_New
| os_Open_apk (apkPath : string)
| Edits_Insert (packageName : string)
| Apks_Upload (packageName editID apkFile : string)
| Tracks_Update (packageName editID track : string) (newTrack : TrackV2)
| Edits_Commit (packageName editID : string).

Record Step : Type := { call : Call; failed : bool }.

Definition is_commit (c : Call) : bool :=
  match c with Edits_Commit _ _ => true | _ => false end.

Definition is_close (c : Call) : bool :=
  match c with Body_Close _ | File_Close _ => true | _ => false end.

Definition is_remote (c : Call) : bool :=
  match c with
  | http_Get _ | Edits_Insert _ | Apks_Upload _ _ _ | Tracks_Update _ _ _ _
  | Edits_Commit _ _ => true
  | _ => false
  end.

(** How [cmd.Run] of the openssl command may end. *)
Inductive RunReply : Type :=
| RunOk (stdout : string)
| RunExitStatus (stderr : string)
| RunFailed (err : error).

Record Host : Type := {
  Getenv : string → string;
  host_Join : string → string → string;
  strconv_ParseFloat : string → result float64;
  google_JWTTokenURL : string;
  reply_IsPathExists : list Step → string → result bool;
  reply_NormalizedOSTempDirPath : list Step → string → result string;
  reply_os_Create : list Step → string → option error;
  reply_http_Get : list Step → string → option error;
  reply_io_Copy : list Step → string → string → option error;
  reply_Body_Close : list Step → string → option error;
  reply_File_Close : list Step → string → option error;
  reply_ReadBytesFromFile : list Step → string → result string;
  reply_JWTConfigFromJSON : list Step → string → result JwtConfig;
  reply_openssl_pkcs12 : list Step → string → RunReply;
  reply_androidpublisher_New : list Step → option error;
  reply_os_Open : list Step → string → result string;
  reply_Edits_Insert : list Step → string → result AppEdit;
  reply_Apks_Upload : list Step → string → string → string → result Apk;
  reply_Tracks_Update :
    list Step → string → string → string → TrackV2 → result TrackV2;
  reply_Edits_Commit : list Step → string → string → option AppEdit * option error
}.

Inductive status (A : Type) : Type :=
| Continue (a : A)
| Exited (code : Z)
| Crashed (msg : string).
Arguments Continue {A} a.
Arguments Exited {A} code.
Arguments Crashed {A} msg.

Definition P (A : Type) : Type := list Step → list Step * status A.

#[global] Instance P_ret : MRet P := fun A (a : A) tr => (tr, Continue a).

#[global] Instance P_bind : MBind P := fun A B (k : A → P B) (m : P A) tr =>
  match m tr with
  | (tr', Continue a) => k a tr'
  | (tr', Exited code) => (tr', Exited code)
  | (tr', Crashed msg) => (tr', Crashed msg)
  end.

Definition os_Exit {A} (code : Z) : P A := fun tr => (tr, Exited code).

Definition panic {A} (msg : string) : P A := fun tr => (tr, Crashed msg).

(** Make a call: ask the host, record the call and whether it failed. *)
Definition invoke {A} (c : Call) (ask : list Step → A) (bad : A → bool) : P A :=
  fun tr => let a := ask tr in
            (tr ++ [{| call := c; failed := bad a |}], Continue a).

Definition is_Err {A} (r : result A) : bool :=
  match r with Ok _ => false | Err _ => true end.

Definition is_Some_error (r : option error) : bool :=
  match r with Some _ => true | None => false end.

(** [createConfigsModelFromEnvs]. *)
Definition createConfigsModelFromEnvs (w : Host) : ConfigsModel :=
  {| ServiceAccountEmail := Getenv w "service_account_email";
     P12KeyPath := Getenv w "key_file_path";
     JSONKeyPath := Getenv w "service_account_json_key_path";
     PackageName := Getenv w "package_name";
     ApkPath := Getenv w "apk_path";
     Track := Getenv w "track";
     UserFraction := Getenv w "user_fraction" |}.

Definition nonempty (s : string) : bool := negb (String.eqb s "").

(** The existence check that [validate] repeats for each kind of path. *)
Definition check_exists (w : Host) (what pth : string) : P (option error) :=
  r ← invoke (IsPathExists pth) (fun tr => reply_IsPathExists w tr pth) is_Err;
  match r with
  | Err err =>
      mret (Some (errorString ("Failed to check if " +:+ what +:+ " exist at: "
                               +:+ pth +:+ ", error: " +:+ Error err)))
  | Ok false => mret (Some (errorString (what +:+ " not exist at: " +:+ pth)))
  | Ok true => mret None
  end.

(** The loop of [validate] over the apk paths. *)
Fixpoint validate_apks (w : Host) (apkPaths : list string) : P (option error) :=
  match apkPaths with
  | [] => mret None
  | apkPath :: rest =>
      e ← check_exists w "APK" apkPath;
      match e with
      | Some err => mret (Some err)
      | None => validate_apks w rest
      end
  end.

(** [validate] from the package name on, after the key checks. *)
Definition validate_tail (w : Host) (configs : ConfigsModel) : P (option error) :=
  if negb (nonempty (PackageName configs)) then
    mret (Some (errorString "No PackageName parameter specified"))
  else if negb (nonempty (ApkPath configs)) then
    mret (Some (errorString "No ApkPath parameter specified"))
  else
    e ← validate_apks w (strings.Split (ApkPath configs) "|");
    match e with
    | Some err => mret (Some err)
    | None =>
        if negb (nonempty (Track configs)) then
          mret (Some (errorString "No Track parameter specified"))
        else if String.eqb (Track configs) "rollout"
                && negb (nonempty (UserFraction configs)) then
          mret (Some (errorString "No UserFraction parameter specified"))
        else mret None
    end.

(** The check of [validate] on a key given as a [file://] address. *)
Definition validate_key (w : Host) (what keyPath : string) : P (option error) :=
  if strings.HasPrefix keyPath "file://" then
    check_exists w what (strings.TrimPrefix keyPath "file://")
  else mret None.

(** [ConfigsModel.validate]. *)
Definition validate (w : Host) (configs : ConfigsModel) : P (option error) :=
  if nonempty (JSONKeyPath configs) then
    e ← validate_key w "JSONKeyPath" (JSONKeyPath configs);
    match e with
    | Some err => mret (Some err)
    | None => validate_tail w configs
    end
  else if nonempty (P12KeyPath configs) then
    e ← validate_key w "P12KeyPath" (P12KeyPath configs);
    match e with
    | Some err => mret (Some err)
    | None =>
        if negb (nonempty (ServiceAccountEmail configs)) then
          mret (Some (errorString "No ServiceAccountEmail parameter specified"))
        else validate_tail w configs
    end
  else mret (Some (errorString "No JSONKeyPath nor P12KeyPath provided")).

(** [downloadFile]; the two deferred closes run on the way out, last
    deferred first, and a failing close is only warned about. *)
Definition downloadFile (w : Host) (downloadURL targetPath : string)
    : P (option error) :=
  created ← invoke (os_Create targetPath)
              (fun tr => reply_os_Create w tr targetPath) is_Some_error;
  match created with
  | Some err =>
      mret (Some (errorString ("failed to create (" +:+ targetPath
                               +:+ "), error: " +:+ Error err)))
  | None =>
      got ← invoke (http_Get downloadURL)
              (fun tr => reply_http_Get w tr downloadURL) is_Some_error;
      match got with
      | Some err =>
          invoke (File_Close targetPath)
            (fun tr => reply_File_Close w tr targetPath) is_Some_error;;
          mret (Some (errorString ("failed to download from (" +:+ downloadURL
                                   +:+ "), error: " +:+ Error err)))
      | None =>
          copied ← invoke (io_Copy targetPath downloadURL)
                     (fun tr => reply_io_Copy w tr targetPath downloadURL)
                     is_Some_error;
          invoke (Body_Close downloadURL)
            (fun tr => reply_Body_Close w tr downloadURL) is_Some_error;;
          invoke (File_Close targetPath)
            (fun tr => reply_File_Close w tr targetPath) is_Some_error;;
          match copied with
          | Some err =>
              mret (Some (errorString ("failed to download from (" +:+ downloadURL
                                       +:+ "), error: " +:+ Error err)))
          | None => mret None
          end
      end
  end.

(** [jwtConfigFromJSONKeyFile]. *)
Definition jwtConfigFromJSONKeyFile (w : Host) (pth : string) : P (result JwtConfig) :=
  read ← invoke (ReadBytesFromFile pth)
           (fun tr => reply_ReadBytesFromFile w tr pth) is_Err;
  match read with
  | Err err => mret (Err err)
  | Ok jsonKeyBytes =>
      invoke (JWTConfigFromJSON jsonKeyBytes)
        (fun tr => reply_JWTConfigFromJSON w tr jsonKeyBytes) is_Err
  end.

Definition run_failed (r : RunReply) : bool :=
  match r with RunOk _ => false | _ => true end.

(** [jwtConfigFromP12KeyFile]: the key is what openssl prints. *)
Definition jwtConfigFromP12KeyFile (w : Host) (pth email : string)
    : P (result JwtConfig) :=
  ran ← invoke (openssl_pkcs12 pth)
          (fun tr => reply_openssl_pkcs12 w tr pth) run_failed;
  match ran with
  | RunFailed err => mret (Err err)
  | RunExitStatus stderr => mret (Err (errorString stderr))
  | RunOk stdout =>
      mret (Ok {| Email := email; PrivateKey := stdout;
                  TokenURL := google_JWTTokenURL w;
                  Scopes := ["https://www.googleapis.com/auth/androidpublisher"] |})
  end.

(** The key file of either kind: used in place when given as a [file://]
    address, downloaded into a fresh directory otherwise. *)
Definition keyPath (w : Host) (configured fileName : string) : P string :=
  if strings.HasPrefix configured "file://" then
    mret (strings.TrimPrefix configured "file://")
  else
    tmpDir ← invoke (NormalizedOSTempDirPath "__google-play-deploy__")
               (fun tr => reply_NormalizedOSTempDirPath w tr "__google-play-deploy__")
               is_Err;
    match tmpDir with
    | Err _ => os_Exit 1
    | Ok tmpDir =>
        let pth := host_Join w tmpDir fileName in
        e ← downloadFile w configured pth;
        match e with
        | Some _ => os_Exit 1
        | None => mret pth
        end
    end.

(** The part of [main] headed "Create client", up to the auth config. *)
Definition createClient (w : Host) (configs : ConfigsModel) : P JwtConfig :=
  if nonempty (JSONKeyPath configs) then
    jsonKeyPth ← keyPath w (JSONKeyPath configs) "key.json";
    authConfig ← jwtConfigFromJSONKeyFile w jsonKeyPth;
    match authConfig with
    | Err _ => os_Exit 1
    | Ok authConfig => mret authConfig
    end
  else
    p12KeyPath ← keyPath w (P12KeyPath configs) "key.p12";
    authConfig ← jwtConfigFromP12KeyFile w p12KeyPath (ServiceAccountEmail configs);
    match authConfig with
    | Err _ => os_Exit 1
    | Ok authConfig => mret authConfig
    end.

(** The upload loop; [versionCode] grows by one code per file. *)
Fixpoint uploadApks (w : Host) (packageName editID : string)
    (apkPaths : list string) (versionCode : list Z) : P (list Z) :=
  match apkPaths with
  | [] => mret versionCode
  | apkPath :: rest =>
      opened ← invoke (os_Open_apk apkPath)
                 (fun tr => reply_os_Open w tr apkPath) is_Err;
      match opened with
      | Err _ => os_Exit 1
      | Ok apkFile =>
          uploaded ← invoke (Apks_Upload packageName editID apkFile)
                       (fun tr => reply_Apks_Upload w tr packageName editID apkFile)
                       is_Err;
          match uploaded with
          | Err _ => os_Exit 1
          | Ok apk =>
              uploadApks w packageName editID rest (versionCode ++ [VersionCode apk])
          end
      end
  end.

Definition commit_failed (r : option AppEdit * option error) : bool :=
  is_Some_error r.2.

(** [main].  When the commit fails, the edit it returned is read for the
    log line; a nil edit makes that a nil pointer dereference. *)
Definition main (w : Host) : P unit :=
  let configs := createConfigsModelFromEnvs w in
  invalid ← validate w configs;
  match invalid with
  | Some _ => os_Exit 1
  | None =>
      jwtConfig ← createClient w configs;
      service ← invoke androidpublisher_New
                  (fun tr => reply_androidpublisher_New w tr) is_Some_error;
      match service with
      | Some _ => os_Exit 1
      | None =>
          inserted ← invoke (Edits_Insert (PackageName configs))
                       (fun tr => reply_Edits_Insert w tr (PackageName configs))
                       is_Err;
          match inserted with
          | Err _ => os_Exit 1
          | Ok appEdit =>
              versionCode ← uploadApks w (PackageName configs) (Id appEdit)
                              (strings.Split (ApkPath configs) "|") [];
              let newTrack :=
                {| TrackV2_Track := Track configs;
                   TrackV2_UserFraction := float64_zero;
                   TrackV2_VersionCodes := versionCode |} in
              newTrack ←
                (if String.eqb (Track configs) "rollout" then
                   match strconv_ParseFloat w (UserFraction configs) with
                   | Err _ => os_Exit 1
                   | Ok userFraction =>
                       mret {| TrackV2_Track := TrackV2_Track newTrack;
                               TrackV2_UserFraction := userFraction;
                               TrackV2_VersionCodes := TrackV2_VersionCodes newTrack |}
                   end
                 else mret newTrack);
              updated ← invoke
                (Tracks_Update (PackageName configs) (Id appEdit) (Track configs)
                   newTrack)
                (fun tr => reply_Tracks_Update w tr (PackageName configs)
                             (Id appEdit) (Track configs) newTrack)
                is_Err;
              match updated with
              | Err _ => os_Exit 1
              | Ok _ =>
                  committed ← invoke
                    (Edits_Commit (PackageName configs) (Id appEdit))
                    (fun tr => reply_Edits_Commit w tr (PackageName configs)
                                 (Id appEdit))
                    commit_failed;
                  match committed with
                  | (_, None) => mret tt
                  | (Some _, Some _) => os_Exit 1
                  | (None, Some _) => panic "nil pointer dereference"
                  end
              end
          end
      end
  end.

(** *** Notions used to state the properties of a run *)

(** No commit call was made. *)
Definition no_commit (tr : list Step) : Prop :=
  Forall (λ ev, is_commit (call ev) = false) tr.

(** No commit call was made and no call failed, the closing of a file or
    of a response body apart. *)
Definition clean (tr : list Step) : Prop :=
  Forall (λ ev, is_commit (call ev) = false
                ∧ (failed ev = true → is_close (call ev) = true)) tr.

(** From a clean trace the computation returns; when the value returned
    is a failure the trace still has no commit, otherwise it is clean. *)
Definition reports {A} (bad : A → bool) (m : P A) : Prop :=
  ∀ tr, clean tr →
    ∃ tr' a, m tr = (tr', Continue a)
             ∧ if bad a then no_commit tr' else clean tr'.

(** From a clean trace the computation goes on with a clean trace, or
    leaves the process with status 1 and no commit made. *)
Definition proceeds {A} (m : P A) : Prop :=
  ∀ tr, clean tr →
    ∃ tr', (∃ a, m tr = (tr', Continue a) ∧ clean tr')
           ∨ (m tr = (tr', Exited 1) ∧ no_commit tr').

(** How a run of [main] can end: before the commit, with status 1; or
    with the commit as its last call, made after a successful validation
    and after calls that all succeeded, ending well exactly when the
    commit succeeded. *)
Definition verdict (w : Host) (run : list Step * status unit) : Prop :=
  (run.2 = Exited 1 ∧ no_commit run.1)
  ∨ ∃ pre packageName editID (f : bool),
      run.1 = pre ++ [{| call := Edits_Commit packageName editID; failed := f |}]
      ∧ clean pre
      ∧ (∃ tr, validate w (createConfigsModelFromEnvs w) [] = (tr, Continue None))
      ∧ (if f then run.2 = Exited 1 ∨ ∃ msg, run.2 = Crashed msg
         else run.2 = Continue tt).

(** A world for examples: every call succeeds.  The key is a local JSON
    file and two archives are published to the rollout track. *)
Definition demo_env (name : string) : string :=
  if String.eqb name "service_account_json_key_path" then "file:///key.json"
  else if String.eqb name "package_name" then "com.example.app"
  else if String.eqb name "apk_path" then "/a.apk|/b.apk"
  else if String.eqb name "track" then "rollout"
  else if String.eqb name "user_fraction" then "0.25"
  else "".

Definition calm_host : Host :=
  {| Getenv := demo_env;
     host_Join := fun a b => a +:+ "/" +:+ b;
     strconv_ParseFloat := fun _ => Ok (S754_finite false 4503599627370496 (-54));
     google_JWTTokenURL := "https://accounts.google.com/o/oauth2/token";
     reply_IsPathExists := fun _ _ => Ok true;
     reply_NormalizedOSTempDirPath := fun _ _ => Ok "/tmp/x";
     reply_os_Create := fun _ _ => None;
     reply_http_Get := fun _ _ => None;
     reply_io_Copy := fun _ _ _ => None;
     reply_Body_Close := fun _ _ => None;
     reply_File_Close := fun _ _ => None;
     reply_ReadBytesFromFile := fun _ _ => Ok "{}";
     reply_JWTConfigFromJSON := fun _ _ =>
       Ok {| Email := "ci@example.com"; PrivateKey := "key";
             TokenURL := "https://accounts.google.com/o/oauth2/token";
             Scopes := [] |};
     reply_openssl_pkcs12 := fun _ _ => RunOk "key";
     reply_androidpublisher_New := fun _ => None;
     reply_os_Open := fun _ apkPath => Ok apkPath;
     reply_Edits_Insert := fun _ _ => Ok {| Id := "edit1" |};
     reply_Apks_Upload := fun tr _ _ _ =>
       Ok {| VersionCode := Z.of_nat (length tr) |};
     reply_Tracks_Update := fun _ _ _ _ newTrack => Ok newTrack;
     reply_Edits_Commit := fun _ _ _ => (Some {| Id := "edit1" |}, None) |}.

(** The same world, except that the second upload fails. *)
Definition failing_host : Host :=
  {| Getenv := demo_env;
     host_Join := host_Join calm_host;
     strconv_ParseFloat := strconv_ParseFloat calm_host;
     google_JWTTokenURL := google_JWTTokenURL calm_host;
     reply_IsPathExists := reply_IsPathExists calm_host;
     reply_NormalizedOSTempDirPath := reply_NormalizedOSTempDirPath calm_host;
     reply_os_Create := reply_os_Create calm_host;
     reply_http_Get := reply_http_Get calm_host;
     reply_io_Copy := reply_io_Copy calm_host;
     reply_Body_Close := reply_Body_Close calm_host;
     reply_File_Close := reply_File_Close calm_host;
     reply_ReadBytesFromFile := reply_ReadBytesFromFile calm_host;
     reply_JWTConfigFromJSON := reply_JWTConfigFromJSON calm_host;
     reply_openssl_pkcs12 := reply_openssl_pkcs12 calm_host;
     reply_androidpublisher_New := reply_androidpublisher_New calm_host;
     reply_os_Open := reply_os_Open calm_host;
     reply_Edits_Insert := reply_Edits_Insert calm_host;
     reply_Apks_Upload := fun _ _ _ apkFile =>
       if String.eqb apkFile "/b.apk" then Err (errorString "apk rejected")
       else Ok {| VersionCode := 7 |};
     reply_Tracks_Update := reply_Tracks_Update calm_host;
     reply_Edits_Commit := reply_Edits_Commit calm_host |}.

End main_go.

(** ** Notions used to state the properties *)

(** Some position from [i] on holds a current code below the new one. *)
Definition shadowed_from (cur new : list Z) (i : nat) : Prop :=
  ∃ j c v, (i ≤ j)%nat ∧ cur !! j = Some c ∧ new !! j = Some v ∧ c < v.

(** Position by position, some current code is below the new one. *)
Fixpoint some_below (cur new : list Z) : bool :=
  match cur, new with
  | c :: cur', v :: new' => (c <? v) || some_below cur' new'
  | _, _ => false
  end.

(** The answer of the blocking check as a boolean: the lengths differ, or
    after sorting some current code is below the new one. *)
Definition blocks (cur new : list Z) : bool :=
  negb (length cur =? length new)%nat
  || some_below (sort_Slice cur) (sort_Slice new).

(** A release after clearing: no version codes, the field force-sent, all
    else as before. *)
Definition cleared (r r' : TrackRelease) : Prop :=
  VersionCodes r' = [] ∧ ForceSendFields r' = ["VersionCodes"]
  ∧ sends_VersionCodes r' = true
  ∧ Name r' = Name r ∧ Status r' = Status r ∧ ReleaseNotes r' = ReleaseNotes r
  ∧ UserFraction r' = UserFraction r ∧ NullFields r' = NullFields r.

(** A release the cleanup did not clear: the same codes in ascending order,
    all else as before. *)
Definition reordered (r r' : TrackRelease) : Prop :=
  Sorted Z.le (VersionCodes r') ∧ VersionCodes r' ≡ₚ VersionCodes r
  ∧ ForceSendFields r' = ForceSendFields r
  ∧ Name r' = Name r ∧ Status r' = Status r ∧ ReleaseNotes r' = ReleaseNotes r
  ∧ UserFraction r' = UserFraction r ∧ NullFields r' = NullFields r.

(** What the cleanup makes of release [r], judged by the blocking check. *)
Definition cleanup (newVersionCodes : list Z) (r r' : TrackRelease) : Prop :=
  match (hasBlockingVersionInRelease r newVersionCodes).2 with
  | Returned true => cleared r r'
  | Returned false => reordered r r'
  | Panicked _ => False
  end.

(** ** A small backend for examples: track alpha with two releases, track
    beta with one. *)

Definition release_of (name : string) (codes : list Z) : TrackRelease :=
  {| Name := name; ReleaseNotes := []; Status := "completed";
     UserFraction := float64_zero; VersionCodes := codes;
     ForceSendFields := []; NullFields := [] |}.

Definition demo_tracks : list Track :=
  [ {| Releases := [release_of "a1" [10; 5]; release_of "a2" [1; 2]];
       Track_Track := "alpha" |};
    {| Releases := [release_of "b1" [7; 9]]; Track_Track := "beta" |} ].

Definition demo_world : World :=
  {| filepath_Join := fun a b => a +:+ "/" +:+ b;
     os_Open := fun _ path => Ok path;
     filepath_Glob := fun _ _ => Ok [];
     fileutil_ReadStringFromFile := fun _ _ => Err (errorString "no such file");
     Expansionfiles_Upload_Do := fun _ _ _ _ _ _ => None;
     Tracks_Get_Do := fun _ _ _ track => getTrack track demo_tracks;
     Tracks_Patch_Do := fun _ _ _ _ _ => None |}.

(** The two messages of the cleanup report. *)
Definition report (anyTrackUpdated : bool) : string :=
  if anyTrackUpdated then "Desired versions deactivated"
  else "No blocking apk version found".



(** The track written back for alpha by the example backend when the new
    codes are [3; 6], and the one for beta. *)
Definition demo_alpha_patched : Track :=
  {| Releases :=
       [release_of "a1" [5; 10];
        {| Name := "a2"; ReleaseNotes := []; Status := "completed";
           UserFraction := float64_zero; VersionCodes := [];
           ForceSendFields := ["VersionCodes"]; NullFields := [] |}];
     Track_Track := "alpha" |}.

Definition demo_beta : Track :=
  {| Releases := [release_of "b1" [7; 9]]; Track_Track := "beta" |}.

(** The candidate tracks of a target, in the words of the specification:
    beta has alpha below it, rollout and production have alpha and beta,
    anything else has nothing. *)
Definition candidateTracksForCleanup (target : string) : gset string :=
  if decide (target = "beta") then {[ "alpha" ]}
  else if decide (target = "rollout" ∨ target = "production")
       then {[ "alpha"; "beta" ]}
       else ∅.

(** The values a Go [float64] can hold: the canonical binary64 numbers,
    the zeros, the infinities and NaN. *)
Definition float64_valid (x : float64) : bool := valid_binary 53 1024 x.

(** The half-open interval from 0 (excluded) to 1 (included). *)
Definition in_unit_interval (x : float64) : bool :=
  SFltb float64_zero x && SFleb x float64_one.

(** The fractions 0.25 and 2, and the number 1000000. *)
Definition float64_quarter : float64 := S754_finite false 4503599627370496 (-54).
Definition float64_two : float64 := S754_finite false 4503599627370496 (-51).
Definition float64_million : float64 := S754_finite false 8589934592000000 (-33).



(** ** Notions for white space

    The code points that [unicode.IsSpace] accepts, which are those with
    Unicode's White_Space property, and the UTF-8 encoding of a code point
    below U+10000. *)
Definition White_Space : list N :=
  [9; 10; 11; 12; 13; 32; 133; 160; 5760; 8192; 8193; 8194; 8195; 8196; 8197;
   8198; 8199; 8200; 8201; 8202; 8232; 8233; 8239; 8287; 12288]%N.

Definition utf8 (cp : N) : string :=
  if (cp <? 128)%N then String (ascii_of_N cp) ""
  else if (cp <? 2048)%N then
    String (ascii_of_N (192 + cp / 64))
      (String (ascii_of_N (128 + cp mod 64)) "")
  else
    String (ascii_of_N (224 + cp / 4096))
      (String (ascii_of_N (128 + (cp / 64) mod 64))
         (String (ascii_of_N (128 + cp mod 64)) "")).

(** The encoded white-space runes. *)
Definition white_runes : list string := utf8 <$> White_Space.

(** A run of white-space runes. *)
Inductive white : string → Prop :=
| white_nil : white ""
| white_cons r s : r ∈ white_runes → white s → white (r +:+ s).

(** Neither the first nor the last rune of the string is white space. *)
Definition trimmed (t : string) : Prop :=
  ∀ r x, r ∈ white_runes → t ≠ r +:+ x ∧ t ≠ x +:+ r.

(** [t] is [s] trimmed of surrounding white space: [s] is [t] between two
    runs of white space, and [t] cannot be trimmed further. *)
Definition trimmed_of (s t : string) : Prop :=
  ∃ l r, s = l +:+ t +:+ r ∧ white l ∧ white r ∧ trimmed t.

(** The encoded white-space runes, listed. *)
Definition white_runes_listed : list string := Eval vm_compute in white_runes.

(** The first byte of an encoded white-space rune is below 33, 194, or at
    least 225; no later byte of an encoded rune is. *)
Definition lead (n : N) : Prop := (n ≤ 32 ∨ n = 194 ∨ 225 ≤ n)%N.

(** What [TrimLeftSpace] tests at the head of a string, and
    [TrimLeftSpaceRev] at the head of the reversed string. *)
Definition starts_white (s : string) : bool :=
  match s with
  | String c1 r1 =>
      strings.space1 (strings.code c1)
      || match r1 with
         | String c2 r2 =>
             strings.space2 (strings.code c1) (strings.code c2)
             || match r2 with
                | String c3 _ =>
                    strings.space3 (strings.code c1) (strings.code c2)
                      (strings.code c3)
                | EmptyString => false
                end
         | EmptyString => false
         end
  | EmptyString => false
  end.

Definition starts_white_rev (s : string) : bool :=
  match s with
  | String c1 r1 =>
      strings.space1 (strings.code c1)
      || match r1 with
         | String c2 r2 =>
             strings.space2 (strings.code c2) (strings.code c1)
             || match r2 with
                | String c3 _ =>
                    strings.space3 (strings.code c3) (strings.code c2)
                      (strings.code c1)
                | EmptyString => false
                end
         | EmptyString => false
         end
  | EmptyString => false
  end.

(** The string without the occurrences of a byte. *)
Fixpoint without (b : ascii) (s : string) : string :=
  match s with
  | EmptyString => EmptyString
  | String c r => if Ascii.eqb c b then without b r else String c (without b r)
  end.

(** The type of an expansion-file descriptor: its first colon-delimited
    segment, trimmed. *)
Definition descriptor_type (d : string) : string :=
  strings.TrimSpace (nth 0 (strings.Split d ":") "").

(** A malformed descriptor: fewer than two colon-delimited segments, or a
    type, the first segment trimmed of surrounding white space, that is
    neither main nor patch. *)
Definition malformed (d : string) : Prop :=
  (length (strings.Split d ":") < 2)%nat
  ∨ ∃ ty, trimmed_of (nth 0 (strings.Split d ":") "") ty
          ∧ ty ≠ "main" ∧ ty ≠ "patch".

(** ** Notions for the release notes *)

(** The file names the pattern [whatsnew-*-*] accepts: [whatsnew-] and then
    a locale holding a hyphen.  (A file name holds no path separator.) *)
Definition matches_whatsnew (name : string) : bool :=
  strings.HasPrefix name "whatsnew-" && contains_byte "-" (strings.drop 9 name).

(** Whether a path holds one of the bytes that [filepath.Glob] reads as
    pattern syntax: [*], [?], the opening bracket or the backslash.  The
    glob reads the directory part of its pattern as a pattern too, so only
    for a directory free of these bytes does it list that directory. *)
Definition glob_meta (path : string) : bool :=
  contains_byte "*" path || contains_byte "?" path
  || contains_byte "[" path || contains_byte "092" path.

Fixpoint contains_string (sub s : string) : bool :=
  strings.HasPrefix s sub
  || match s with
     | EmptyString => false
     | String _ r => contains_string sub r
     end.

(** A directory of release notes for examples: two notes, a file of
    another kind, and the path under which each is found. *)
Definition notes_files : list (string * result string) :=
  [("readme.txt", Ok "Read me"); ("whatsnew-en-US", Ok "Fixed bugs");
   ("whatsnew-fr-FR", Ok "Corrections de bugs")].

Definition lookup_file (files : list (string * result string)) (pre path : string)
    : result string :=
  match list_find (λ f, pre +:+ f.1 = path) files with
  | Some (_, (_, r)) => r
  | None => Err (errorString "no such file")
  end.

Definition notes_world (dir : string) (files : list (string * result string)) : World :=
  {| filepath_Join := fun a b => a +:+ "/" +:+ b;
     os_Open := fun _ path => Ok path;
     filepath_Glob := fun _ pattern =>
       if String.eqb pattern (dir +:+ "/whatsnew-*-*")
       then Ok ((λ f, dir +:+ "/" +:+ f.1)
                <$> filter (λ f, matches_whatsnew f.1) files)
       else Ok [];
     fileutil_ReadStringFromFile := fun _ path =>
       lookup_file files (dir +:+ "/") path;
     Expansionfiles_Upload_Do := fun _ _ _ _ _ _ => None;
     Tracks_Get_Do := fun _ _ _ track => getTrack track demo_tracks;
     Tracks_Patch_Do := fun _ _ _ _ _ => None |}.





(** ** Notions for the further properties *)

(** Insertion into an ascending list, and the sort built on it; used to
    reason about ascending order. *)
Fixpoint insert_sorted (x : Z) (l : list Z) : list Z :=
  match l with
  | [] => [x]
  | y :: l' => if x <=? y then x :: l else y :: insert_sorted x l'
  end.

Definition isort (l : list Z) : list Z := foldr insert_sorted [] l.

(** A way to pair every new code with a current code of its own that is
    at least as large: a list of pairs (current, new) that uses up both
    lists. *)
Definition covers (cur new : list Z) (pairs : list (Z * Z)) : Prop :=
  cur ≡ₚ pairs.*1 ∧ new ≡ₚ pairs.*2 ∧ Forall (λ p, p.2 ≤ p.1) pairs.

(** The calls the cleanup makes for a list of track names, and how it
    ends: round by round a fetch, the report and the patch; it stops at a
    fetch that fails or after a patch that fails with an error other than
    end of file, and ends well once the names are used up. *)
Inductive cleanup_protocol (pkg edit : string)
    : list string → list Event → option error → Prop :=
| protocol_done : cleanup_protocol pkg edit [] [] None
| protocol_get_failed name rest err :
    cleanup_protocol pkg edit (name :: rest)
      [EvTracksGet pkg edit name (Err err)]
      (Some (errorString
         ("failed to get track (" +:+ name +:+ "), error: " +:+ Error err)))
| protocol_patch_failed name rest track msg body text :
    cleanup_protocol pkg edit (name :: rest)
      [EvTracksGet pkg edit name (Ok track); EvLogDonef msg;
       EvTracksPatch pkg edit name body (Some (errorString text))]
      (Some (errorString
         ("failed to update track (" +:+ name +:+ "), error: " +:+ text)))
| protocol_round name rest track msg body reply ext r :
    reply = None ∨ reply = Some io_EOF →
    cleanup_protocol pkg edit rest ext r →
    cleanup_protocol pkg edit (name :: rest)
      (EvTracksGet pkg edit name (Ok track) :: EvLogDonef msg
       :: EvTracksPatch pkg edit name body reply :: ext)
      r.

(** The event of a file read that succeeded. *)
Definition read_succeeded (ev : Event) : Prop :=
  ∃ path content, ev = EvReadStringFromFile path (Ok content).

(** A release of the list is blocking for the new codes. *)
Definition any_blocking (releases : list TrackRelease) (newVersionCodes : list Z)
    : bool :=
  existsb (λ r, blocks (VersionCodes r) newVersionCodes) releases.

(** ** Notions for the further properties of main.go *)

Module main_go_more.
Import main_go.

Definition is_check (c : Call) : bool :=
  match c with IsPathExists _ => true | _ => false end.

(** The computation returns, and all it does is check that paths exist. *)
Definition only_checks {A} (m : P A) : Prop :=
  ∀ tr, ∃ ext a, m tr = (tr ++ ext, Continue a)
                 ∧ Forall (λ s, is_check (call s) = true) ext.

(** The path was found to exist at some point of the run that ended with
    the trace [tr']. *)
Definition found_to_exist (w : Host) (tr' : list Step) (pth : string) : Prop :=
  ∃ pre, pre `prefix_of` tr' ∧ reply_IsPathExists w pre pth = Ok true.

(** The steps of uploading the files opened from the paths, in order. *)
Definition upload_steps (packageName editID : string)
    (opened : list (string * string)) : list Step :=
  opened ≫= λ '(apkPath, apkFile),
    [ {| call := os_Open_apk apkPath; failed := false |};
      {| call := Apks_Upload packageName editID apkFile; failed := false |} ].

(** The calls made within an edit, the opening of the edit included. *)
Definition is_session (c : Call) : bool :=
  match c with
  | Edits_Insert _ | Apks_Upload _ _ _ | Tracks_Update _ _ _ _
  | Edits_Commit _ _ => true
  | _ => false
  end.

(** The computation makes no call within an edit. *)
Definition no_session_calls {A} (m : P A) : Prop :=
  ∀ tr, ∃ ext st, m tr = (tr ++ ext, st)
                  ∧ Forall (λ s, is_session (call s) = false) ext.

(** What the host answered during the uploads that [upload_steps] records
    after the trace [tr]: the file at a position is what the host answered
    to the opening of the path at that position, asked after the uploads
    before it, and the code at that position is the version code of the apk
    the host answered to the upload of that file. *)
Definition uploads_answered (w : Host) (packageName editID : string)
    (tr : list Step) (apkPaths apkFiles : list string) (codes : list Z) : Prop :=
  ∀ i apkPath,
    apkPaths !! i = Some apkPath →
    ∃ apkFile apk,
      apkFiles !! i = Some apkFile
      ∧ codes !! i = Some (VersionCode apk)
      ∧ reply_os_Open w
          (tr ++ upload_steps packageName editID (take i (zip apkPaths apkFiles)))
          apkPath
        = Ok apkFile
      ∧ reply_Apks_Upload w
          ((tr ++ upload_steps packageName editID (take i (zip apkPaths apkFiles)))
           ++ [{| call := os_Open_apk apkPath; failed := false |}])
          packageName editID apkFile
        = Ok apk.

(** The steps of an upload that the host refused after the trace [tr]: the
    open that it answered with an error, or the open and the upload of the
    file it opened, answered with an error. *)
Definition upload_refused (w : Host) (packageName editID : string)
    (tr : list Step) (apkPath : string) (steps : list Step) : Prop :=
  (∃ e, reply_os_Open w tr apkPath = Err e
        ∧ steps = [ {| call := os_Open_apk apkPath; failed := true |} ])
  ∨ ∃ apkFile e,
      reply_os_Open w tr apkPath = Ok apkFile
      ∧ reply_Apks_Upload w
          (tr ++ [{| call := os_Open_apk apkPath; failed := false |}])
          packageName editID apkFile
        = Err e
      ∧ steps = [ {| call := os_Open_apk apkPath; failed := false |};
                  {| call := Apks_Upload packageName editID apkFile;
                     failed := true |} ].

End main_go_more.

(** * Properties *)

Example Split_ex : strings.Split "main: /tmp/a:b" ":" = ["main"; " /tmp/a"; "b"].
Proof. reflexivity. Qed.

Example TrimSpace_ex : strings.TrimSpace "  main  x " = "main  x".
Proof. reflexivity. Qed.

(** ** Sorting and the shadowing comparison *)

Section shadowing.

Implicit Types (cur new : list Z) (release : TrackRelease).

Lemma sort_Slice_Sorted cur : Sorted Z.le (sort_Slice cur).
Proof. apply (Sorted_merge_sort Z.le). Qed.

Lemma sort_Slice_Permutation cur : sort_Slice cur ≡ₚ cur.
Proof. apply (merge_sort_Permutation Z.le). Qed.

Lemma sort_Slice_length cur : length (sort_Slice cur) = length cur.
Proof. by rewrite sort_Slice_Permutation. Qed.

(** Ascending order is unique: any sorted rearrangement is the one the
    code computes. *)
Lemma sort_Slice_unique cur sorted :
  Sorted Z.le sorted → sorted ≡ₚ cur → sorted = sort_Slice cur.
Proof.
  intros Hs Hp. apply (Sorted_unique Z.le); [done | apply sort_Slice_Sorted |].
  by rewrite Hp, sort_Slice_Permutation.
Qed.

Lemma sort_Slice_idemp cur : sort_Slice (sort_Slice cur) = sort_Slice cur.
Proof.
  symmetry. apply sort_Slice_unique;
    [apply sort_Slice_Sorted | by rewrite !sort_Slice_Permutation].
Qed.

Lemma sort_Slice_sorted_id cur : Sorted Z.le cur → sort_Slice cur = cur.
Proof. intros Hs. symmetry. by apply sort_Slice_unique. Qed.

Lemma hasShadowingVersions_loop_spec cur new n i :
  length cur = length new → (i + n)%nat = length new →
  ∃ b, hasShadowingVersions_loop cur new i n = Returned b
       ∧ (b = true ↔ shadowed_from cur new i).
Proof.
  intros Hlen. revert i. induction n as [|n IH]; intros i Hi; simpl.
  - exists false. split; [done|]. split; [done|].
    intros (j & c & v & Hj & _ & Hv & _).
    apply lookup_lt_Some in Hv. lia.
  - destruct (lookup_lt_is_Some_2 cur i) as [c Hc]; [lia|].
    destruct (lookup_lt_is_Some_2 new i) as [v Hv]; [lia|].
    rewrite Hc, Hv. destruct (Z.ltb_spec c v) as [Hlt|Hge].
    + exists true. split; [done|]. split; [|done].
      intros _. exists i, c, v. auto.
    + destruct (IH (S i)) as (b & Hb & Hiff); [lia|].
      exists b. split; [done|]. rewrite Hiff. split.
      * intros (j & c' & v' & Hj & ?). exists j, c', v'. split; [lia|done].
      * intros (j & c' & v' & Hj & Hc' & Hv' & Hlt).
        destruct (decide (j = i)) as [->|Hne].
        -- rewrite Hc in Hc'. rewrite Hv in Hv'. simplify_eq. lia.
        -- exists j, c', v'. split; [lia|done].
Qed.

Lemma some_below_spec cur new :
  some_below cur new = true ↔ shadowed_from cur new 0.
Proof.
  revert new. induction cur as [|c cur IH]; intros [|v new]; simpl.
  1-3: split; [done|]; intros (j & c' & v' & _ & Hc & Hv & _); by destruct j.
  rewrite orb_true_iff, Z.ltb_lt, IH. split.
  - intros [Hlt|(j & c' & v' & _ & Hc & Hv & Hlt)].
    + exists 0%nat, c, v. auto with lia.
    + exists (S j), c', v'. auto with lia.
  - intros (j & c' & v' & _ & Hc & Hv & Hlt). destruct j as [|j]; simpl in *.
    + simplify_eq. by left.
    + right. exists j, c', v'. auto with lia.
Qed.

Lemma hasShadowingVersions_eq cur new :
  length cur = length new →
  hasShadowingVersions cur new
  = (sort_Slice cur, sort_Slice new,
     Returned (some_below (sort_Slice cur) (sort_Slice new))).
Proof.
  intros Hlen. unfold hasShadowingVersions. f_equal.
  destruct (hasShadowingVersions_loop_spec (sort_Slice cur) (sort_Slice new)
              (length (sort_Slice new)) 0) as (b & -> & Hb);
    [by rewrite !sort_Slice_length | done |].
  f_equal. apply eq_true_iff_eq. by rewrite Hb, some_below_spec.
Qed.

Lemma hasBlockingVersionInRelease_eq release new :
  hasBlockingVersionInRelease release new
  = if negb (length (VersionCodes release) =? length new)%nat
    then (release, new, Returned true)
    else (set_VersionCodes release (sort_Slice (VersionCodes release)),
          sort_Slice new, Returned (blocks (VersionCodes release) new)).
Proof.
  unfold hasBlockingVersionInRelease, blocks.
  destruct (Nat.eqb_spec (length (VersionCodes release)) (length new)) as [Hlen|];
    cbn [negb orb]; [|done].
  by rewrite hasShadowingVersions_eq.
Qed.

Lemma hasBlockingVersionInRelease_answer release new :
  (hasBlockingVersionInRelease release new).2
  = Returned (blocks (VersionCodes release) new).
Proof.
  rewrite hasBlockingVersionInRelease_eq. unfold blocks.
  by destruct (negb _).
Qed.

Lemma blocks_sorted_new cur new : blocks cur (sort_Slice new) = blocks cur new.
Proof. unfold blocks. by rewrite sort_Slice_idemp, sort_Slice_length. Qed.

End shadowing.

(** C1.  The blocking check of a release against the new version codes
    always returns, and returns true exactly when the two lists differ in
    length or, both being put in ascending order (in whatever way), some
    position holds a current code strictly below the new code.  So on lists
    of different lengths it is true unconditionally, and on lists of equal
    length it is true if and only if such a position exists. *)
Theorem hasBlockingVersionInRelease_spec
    (release : TrackRelease) (newVersionCodes sortedCurrent sortedNew : list Z) :
  Sorted Z.le sortedCurrent → sortedCurrent ≡ₚ VersionCodes release →
  Sorted Z.le sortedNew → sortedNew ≡ₚ newVersionCodes →
  ∃ b, (hasBlockingVersionInRelease release newVersionCodes).2 = Returned b
       ∧ (length (VersionCodes release) ≠ length newVersionCodes → b = true)
       ∧ (length (VersionCodes release) = length newVersionCodes →
          (b = true ↔ ∃ i c v, sortedCurrent !! i = Some c
                               ∧ sortedNew !! i = Some v ∧ c < v)).
Proof.
  intros Hsc Hpc Hsn Hpn.
  apply sort_Slice_unique in Hpc as ->; [|done].
  apply sort_Slice_unique in Hpn as ->; [|done].
  eexists. split; [apply hasBlockingVersionInRelease_answer|].
  unfold blocks. split.
  - intros Hne. by destruct (Nat.eqb_spec (length (VersionCodes release))
                               (length newVersionCodes)).
  - intros Heq. rewrite Heq, Nat.eqb_refl. simpl. rewrite some_below_spec.
    split.
    + intros (j & c & v & _ & ?). by exists j, c, v.
    + intros (j & c & v & ?). exists j, c, v. split; [lia|done].
Qed.

Lemma hasBlockingVersionInRelease_witness :
  ∃ b, (hasBlockingVersionInRelease (release_of "r" [10; 5]) [11; 3]).2 = Returned b
       ∧ (length [10; 5] ≠ length [11; 3] → b = true)
       ∧ (length [10; 5] = length [11; 3] →
          (b = true ↔ ∃ i c v, [5; 10] !! i = Some c ∧ [3; 11] !! i = Some v ∧ c < v)).
Proof.
  apply (hasBlockingVersionInRelease_spec (release_of "r" [10; 5]) [11; 3]
           [5; 10] [3; 11]).
  - repeat constructor; lia.
  - apply perm_swap.
  - repeat constructor; lia.
  - apply perm_swap.
Defined.

Example isBlocking_5_10_vs_6_3 :
  (hasBlockingVersionInRelease (release_of "r" [5; 10]) [6; 3]).2 = Returned false.
Proof. vm_compute. reflexivity. Qed.

Example isBlocking_5_10_vs_11_3 :
  (hasBlockingVersionInRelease (release_of "r" [5; 10]) [11; 3]).2 = Returned true.
Proof. vm_compute. reflexivity. Qed.

Example isBlocking_5_vs_5_6 :
  (hasBlockingVersionInRelease (release_of "r" [5]) [5; 6]).2 = Returned true.
Proof. vm_compute. reflexivity. Qed.

(** C8.  The shadowing comparison leaves both of its lists in ascending
    order, each holding the codes it held before, whatever the comparison
    answers (true, false, or a panic on a short current list); the caller
    sees the reordering, as for the lists [10; 5] and [6; 3]. *)
Theorem hasShadowingVersions_sorts_in_place (currentVersionCodes newVersionCodes : list Z) :
  (∃ answer,
      hasShadowingVersions currentVersionCodes newVersionCodes
      = (sort_Slice currentVersionCodes, sort_Slice newVersionCodes, answer))
  ∧ Sorted Z.le (hasShadowingVersions currentVersionCodes newVersionCodes).1.1
  ∧ (hasShadowingVersions currentVersionCodes newVersionCodes).1.1
      ≡ₚ currentVersionCodes
  ∧ Sorted Z.le (hasShadowingVersions currentVersionCodes newVersionCodes).1.2
  ∧ (hasShadowingVersions currentVersionCodes newVersionCodes).1.2
      ≡ₚ newVersionCodes
  ∧ hasShadowingVersions [10; 5] [6; 3] = ([5; 10], [3; 6], Returned false)
  ∧ hasShadowingVersions [5; 1] [6; 3] = ([1; 5], [3; 6], Returned true).
Proof.
  split; [by eexists|]. unfold hasShadowingVersions. simpl.
  split_and!; try apply sort_Slice_Sorted; try apply sort_Slice_Permutation;
    by vm_compute.
Qed.

(** ** The cleanup of the lower tracks *)

Section cleanup.

Implicit Types (r : TrackRelease) (vc : list Z).

Lemma blocks_Permutation cur vc vc' : vc ≡ₚ vc' → blocks cur vc = blocks cur vc'.
Proof.
  intros Hp. unfold blocks. rewrite (Permutation_length Hp). f_equal. f_equal.
  apply sort_Slice_unique; [apply sort_Slice_Sorted|].
  by rewrite sort_Slice_Permutation.
Qed.

Lemma cleanup_cleared vc r r' :
  blocks (VersionCodes r) vc = true → cleared r r' → cleanup vc r r'.
Proof.
  intros Hb Hc. unfold cleanup.
  by rewrite hasBlockingVersionInRelease_answer, Hb.
Qed.

Lemma cleanup_reordered vc r r' :
  blocks (VersionCodes r) vc = false → reordered r r' → cleanup vc r r'.
Proof.
  intros Hb Hc. unfold cleanup.
  by rewrite hasBlockingVersionInRelease_answer, Hb.
Qed.

(** The loop over the releases of a track never panics; it clears the
    blocking releases, reorders the codes of the others, and raises the
    flag when it cleared one. *)
Lemma untrackFromTracks_releases_spec releases vc0 :
  ∀ vc any, vc ≡ₚ vc0 →
    ∃ releases' vc',
      untrackFromTracks_releases releases vc any
      = Returned (releases', vc',
                  any || existsb (λ r, blocks (VersionCodes r) vc0) releases)
      ∧ vc' ≡ₚ vc0 ∧ Forall2 (cleanup vc0) releases releases'.
Proof.
  induction releases as [|r releases IH]; intros vc any Hp.
  - exists [], vc. simpl. rewrite orb_false_r. by repeat split.
  - simpl. rewrite hasBlockingVersionInRelease_eq.
    rewrite (blocks_Permutation _ _ _ Hp).
    destruct (negb (length (VersionCodes r) =? length vc)%nat) eqn:Hlen.
    + assert (blocks (VersionCodes r) vc0 = true) as Hb.
      { rewrite <- (blocks_Permutation _ _ _ Hp). unfold blocks. by rewrite Hlen. }
      destruct (IH vc true Hp) as (rs' & vc' & -> & Hp' & HF).
      eexists _, vc'. rewrite Hb, orb_true_r. split; [done|]. split; [done|].
      constructor; [|done]. apply cleanup_cleared; [done|]. by repeat split.
    + destruct (blocks (VersionCodes r) vc0) eqn:Hb.
      * destruct (IH (sort_Slice vc) true) as (rs' & vc' & -> & Hp' & HF).
        { by rewrite sort_Slice_Permutation. }
        eexists _, vc'. rewrite orb_true_r. split; [done|]. split; [done|].
        constructor; [|done]. apply cleanup_cleared; [done|]. by repeat split.
      * destruct (IH (sort_Slice vc) any) as (rs' & vc' & -> & Hp' & HF).
        { by rewrite sort_Slice_Permutation. }
        eexists _, vc'. split; [done|]. split; [done|].
        constructor; [|done]. apply cleanup_reordered; [done|].
        repeat split; simpl;
          [apply sort_Slice_Sorted | apply sort_Slice_Permutation].
Qed.

(** One round of the loop over the track names. *)
Lemma untrackFromTracks_loop_cons w name rest vc pkg edit any tr :
  untrackFromTracks_loop w (name :: rest) vc pkg edit any tr
  = let got := Tracks_Get_Do w tr pkg edit name in
    let tr1 := tr ++ [EvTracksGet pkg edit name got] in
    match got with
    | Err err =>
        (tr1, Returned (Some (errorString
           ("failed to get track (" +:+ name +:+ "), error: " +:+ Error err))))
    | Ok track =>
        match untrackFromTracks_releases (Releases track) vc any with
        | Panicked msg => (tr1, Panicked msg)
        | Returned (releases, vc', any') =>
            let body := {| Releases := releases;
                           Track_Track := Track_Track track |} in
            let tr2 := tr1 ++ [EvLogDonef (report any')] in
            let reply := Tracks_Patch_Do w tr2 pkg edit name body in
            let tr3 := tr2 ++ [EvTracksPatch pkg edit name body reply] in
            match reply with
            | Some (errorString msg) =>
                (tr3, Returned (Some (errorString
                   ("failed to update track (" +:+ name +:+ "), error: "
                    +:+ msg))))
            | _ => untrackFromTracks_loop w rest vc' pkg edit any' tr3
            end
        end
    end.
Proof.
  cbn [untrackFromTracks_loop]. unfold mbind, M_bind, perform, log_Donef.
  destruct (Tracks_Get_Do w tr pkg edit name) as [track|err]; [|done].
  destruct (untrackFromTracks_releases _ _ _) as [[[releases vc'] any']|msg];
    [|done].
  cbn zeta. unfold report.
  by destruct (Tracks_Patch_Do _ _ _ _ _ _) as [[|msg]|].
Qed.

End cleanup.

(** Every round that fetched its track goes on to report and to patch the
    track, and the patched body holds the cleaned-up releases. *)
Lemma untrackFromTracks_loop_rounds (w : World) (vc0 : list Z) (pkg edit : string)
    (names : list string) :
  ∀ vc any tr, vc ≡ₚ vc0 →
    ∃ ext r,
      untrackFromTracks_loop w names vc pkg edit any tr = (tr ++ ext, Returned r)
      ∧ ∀ i p e name track,
          ext !! i = Some (EvTracksGet p e name (Ok track)) →
          ∃ msg body reply,
            ext !! S i = Some (EvLogDonef msg)
            ∧ ext !! S (S i) = Some (EvTracksPatch p e name body reply)
            ∧ Track_Track body = Track_Track track
            ∧ Forall2 (cleanup vc0) (Releases track) (Releases body).
Proof.
  induction names as [|name rest IH]; intros vc any tr Hp.
  - exists [], None. simpl. rewrite app_nil_r. split; [done|].
    intros i ????. by rewrite lookup_nil.
  - rewrite untrackFromTracks_loop_cons. cbn zeta.
    destruct (Tracks_Get_Do w tr pkg edit name) as [track|err].
    + destruct (untrackFromTracks_releases_spec (Releases track) vc0 vc any Hp)
        as (releases' & vc' & -> & Hp' & HF).
      set (any' := any || _).
      set (body := {| Releases := releases'; Track_Track := Track_Track track |}).
      set (tr2 := (tr ++ _) ++ [EvLogDonef _]).
      set (reply := Tracks_Patch_Do w tr2 pkg edit name body).
      assert (∀ ext' i p e name' track',
        ([EvTracksGet pkg edit name (Ok track); EvLogDonef (report any');
          EvTracksPatch pkg edit name body reply] ++ ext') !! i
        = Some (EvTracksGet p e name' (Ok track')) →
        (i = 0%nat ∧ p = pkg ∧ e = edit ∧ name' = name ∧ track' = track)
        ∨ ∃ j, i = S (S (S j))
               ∧ ext' !! j = Some (EvTracksGet p e name' (Ok track'))) as Hcase.
      { intros ext' [|[|[|j]]] p e name' track' Hi; simpl in Hi; simplify_eq.
        - left. done.
        - right. by exists j. }
      assert (∃ ext r,
        untrackFromTracks_loop w rest vc' pkg edit any'
          (tr2 ++ [EvTracksPatch pkg edit name body reply])
        = ((tr2 ++ [EvTracksPatch pkg edit name body reply]) ++ ext, Returned r)
        ∧ ∀ i p e name track,
            ext !! i = Some (EvTracksGet p e name (Ok track)) →
            ∃ msg body reply,
              ext !! S i = Some (EvLogDonef msg)
              ∧ ext !! S (S i) = Some (EvTracksPatch p e name body reply)
              ∧ Track_Track body = Track_Track track
              ∧ Forall2 (cleanup vc0) (Releases track) (Releases body))
        as (ext' & r & Hrun & Hext') by (by apply IH).
      assert (∃ ext0 r0,
        match reply with
        | Some (errorString msg) =>
            (tr2 ++ [EvTracksPatch pkg edit name body reply],
             Returned (Some (errorString
               ("failed to update track (" +:+ name +:+ "), error: " +:+ msg))))
        | _ => untrackFromTracks_loop w rest vc' pkg edit any'
                 (tr2 ++ [EvTracksPatch pkg edit name body reply])
        end = ((tr2 ++ [EvTracksPatch pkg edit name body reply]) ++ ext0,
               Returned r0)
        ∧ (ext0 = [] ∨ ext0 = ext')) as (ext0 & r0 & -> & Hext0).
      { destruct reply as [[|msg]|].
        - exists ext', r. auto.
        - eexists [], _. rewrite app_nil_r. auto.
        - exists ext', r. auto. }
      exists ([EvTracksGet pkg edit name (Ok track); EvLogDonef (report any');
               EvTracksPatch pkg edit name body reply] ++ ext0), r0.
      split; [by subst tr2; rewrite <- !(assoc_L (++))|].
      intros i p e name' track' Hi.
      destruct (Hcase ext0 i p e name' track' Hi)
        as [(-> & -> & -> & -> & ->)|(j & -> & Hj)].
      * by eexists _, body, _.
      * destruct Hext0 as [->| ->]; [by rewrite lookup_nil in Hj|].
        by apply Hext'.
    + eexists [_], _. split; [done|].
      intros [|i] p e name' track' Hi; simpl in Hi; simplify_eq.
Qed.

(** C2, as the code has it.  For every track the cleanup fetched, the next
    two events are the report and the patch that writes the track back, and
    release by release the body of the patch is the fetched track cleaned
    up: a blocking release has an empty, force-sent version-code list and
    its name, status, release notes, user fraction and null fields as
    before; a release that is not blocking keeps all of these and its
    force-send fields, and holds the same version codes in ascending
    order. *)
Theorem untrackFromTracks_cleans_up (w : World) (trackNamesToUpdate : list string)
    (versionCodes : list Z) (packageName appEditID : string) (tr0 : list Event)
    (i : nat) (p e name : string) (track : Track) :
  (length tr0 ≤ i)%nat →
  (untrackFromTracks w trackNamesToUpdate versionCodes packageName appEditID tr0).1
    !! i = Some (EvTracksGet p e name (Ok track)) →
  ∃ msg body reply,
    (untrackFromTracks w trackNamesToUpdate versionCodes packageName appEditID tr0).1
      !! S i = Some (EvLogDonef msg)
    ∧ (untrackFromTracks w trackNamesToUpdate versionCodes packageName appEditID
         tr0).1 !! S (S i) = Some (EvTracksPatch p e name body reply)
    ∧ Track_Track body = Track_Track track
    ∧ Forall2 (cleanup versionCodes) (Releases track) (Releases body).
Proof.
  intros Hi Hget. unfold untrackFromTracks in *.
  destruct (untrackFromTracks_loop_rounds w versionCodes packageName appEditID
              trackNamesToUpdate versionCodes false tr0)
    as (ext & r & Hrun & Hext); [done|].
  rewrite Hrun in *. simpl in *.
  rewrite lookup_app_r in Hget by done.
  destruct (Hext _ _ _ _ _ Hget) as (msg & body & reply & H1 & H2 & H3 & H4).
  exists msg, body, reply.
  rewrite !lookup_app_r by lia.
  replace (S i - length tr0)%nat with (S (i - length tr0)) by lia.
  replace (S (S i) - length tr0)%nat with (S (S (i - length tr0))) by lia.
  done.
Qed.

Lemma untrackFromTracks_cleans_up_witness :
  ∃ msg body reply,
    (untrackFromTracks demo_world ["alpha"; "beta"] [3; 6] "pkg" "edit" []).1
      !! 1%nat = Some (EvLogDonef msg)
    ∧ (untrackFromTracks demo_world ["alpha"; "beta"] [3; 6] "pkg" "edit" []).1
        !! 2%nat = Some (EvTracksPatch "pkg" "edit" "alpha" body reply)
    ∧ Track_Track body = "alpha"
    ∧ Forall2 (cleanup [3; 6])
        [release_of "a1" [10; 5]; release_of "a2" [1; 2]] (Releases body).
Proof.
  apply (untrackFromTracks_cleans_up demo_world ["alpha"; "beta"] [3; 6]
           "pkg" "edit" [] 0 "pkg" "edit" "alpha"
           {| Releases := [release_of "a1" [10; 5]; release_of "a2" [1; 2]];
              Track_Track := "alpha" |}).
  - simpl. lia.
  - vm_compute. reflexivity.
Defined.

(** C2, as stated, fails: the release with codes [10; 5] is not blocking
    for the new codes [3; 6], yet the cleanup hands it back, and writes it
    back to the backend, with its codes reordered to [5; 10]. *)
Lemma cleanup_reorders_release_that_is_not_blocking :
  (hasBlockingVersionInRelease (release_of "a1" [10; 5]) [3; 6]).2 = Returned false
  ∧ untrackFromTracks_releases [release_of "a1" [10; 5]] [3; 6] false
    = Returned ([release_of "a1" [5; 10]], [3; 6], false)
  ∧ release_of "a1" [5; 10] ≠ release_of "a1" [10; 5]
  ∧ (untrackFromTracks demo_world ["alpha"] [3; 6] "pkg" "edit" []).1 !! 2%nat
    = Some (EvTracksPatch "pkg" "edit" "alpha" demo_alpha_patched None).
Proof.
  split_and!; [by vm_compute | by vm_compute | | by vm_compute].
  intros Heq. by injection Heq.
Qed.

(** C9, at the tracks alpha and beta of the example backend with new codes
    [3; 6]: a release of alpha is cleared, no release of beta is blocking
    and beta is written back as it was fetched, yet the report for beta
    reads that versions were deactivated.  Cleaning beta alone reports that
    nothing was blocking. *)
Theorem untrackFromTracks_report_carries_over :
  untrackFromTracks demo_world ["alpha"; "beta"] [3; 6] "pkg" "edit" []
  = ([EvTracksGet "pkg" "edit" "alpha"
        (Ok {| Releases := [release_of "a1" [10; 5]; release_of "a2" [1; 2]];
               Track_Track := "alpha" |});
      EvLogDonef "Desired versions deactivated";
      EvTracksPatch "pkg" "edit" "alpha" demo_alpha_patched None;
      EvTracksGet "pkg" "edit" "beta" (Ok demo_beta);
      EvLogDonef "Desired versions deactivated";
      EvTracksPatch "pkg" "edit" "beta" demo_beta None],
     Returned None)
  ∧ Forall (λ r, (hasBlockingVersionInRelease r [3; 6]).2 = Returned false)
      (Releases demo_beta)
  ∧ untrackFromTracks demo_world ["beta"] [3; 6] "pkg" "edit" []
    = ([EvTracksGet "pkg" "edit" "beta" (Ok demo_beta);
        EvLogDonef "No blocking apk version found";
        EvTracksPatch "pkg" "edit" "beta" demo_beta None],
       Returned None).
Proof.
  split_and!; [by vm_compute | | by vm_compute].
  repeat constructor.
Qed.

(** ** The candidate tracks *)

Section candidates.

Implicit Types (n : string) (acc poss : list string) (tracks : list Track).

Lemma trackNamesToUpdate_inner_elem poss track acc n :
  n ∈ trackNamesToUpdate_inner poss track acc
  ↔ n ∈ acc ∨ (n ∈ poss ∧ n = Track_Track track).
Proof.
  revert acc. induction poss as [|c poss IH]; intros acc; simpl.
  - rewrite elem_of_nil. tauto.
  - rewrite IH, elem_of_cons. destruct (String.eqb_spec c (Track_Track track)).
    + rewrite elem_of_app, list_elem_of_singleton. intuition congruence.
    + intuition congruence.
Qed.

Lemma trackNamesToUpdate_outer_elem poss tracks acc n :
  n ∈ trackNamesToUpdate_outer poss tracks acc
  ↔ n ∈ acc ∨ (n ∈ poss ∧ n ∈ Track_Track <$> tracks).
Proof.
  revert acc. induction tracks as [|t tracks IH]; intros acc; simpl.
  - rewrite elem_of_nil. tauto.
  - rewrite IH, trackNamesToUpdate_inner_elem, elem_of_cons. intuition congruence.
Qed.

Lemma possibleTrackNamesToUpdate_spec target :
  list_to_set (possibleTrackNamesToUpdate target) = candidateTracksForCleanup target.
Proof.
  unfold possibleTrackNamesToUpdate, candidateTracksForCleanup,
    betaTrackName, rolloutTrackName, productionTrackName, alphaTrackName.
  destruct (String.eqb_spec target "beta").
  { rewrite decide_True by done. set_solver. }
  rewrite decide_False by done.
  destruct (String.eqb_spec target "rollout"); simpl.
  { rewrite decide_True by auto. set_solver. }
  destruct (String.eqb_spec target "production").
  { rewrite decide_True by auto. set_solver. }
  rewrite decide_False by tauto. set_solver.
Qed.

End candidates.

(** C3.  As a set, the names returned for a target are its candidates
    (alpha for beta; alpha and beta for rollout and for production; none
    for alpha or any other name) that occur as the name of an existing
    track; a candidate without a track is left out. *)
Theorem trackNamesToUpdate_spec (track : string) (tracks : list Track) :
  list_to_set (trackNamesToUpdate track tracks)
  = candidateTracksForCleanup track ∩ list_to_set (Track_Track <$> tracks).
Proof.
  apply set_eq. intros n.
  rewrite elem_of_intersection, <- possibleTrackNamesToUpdate_spec,
    !elem_of_list_to_set.
  unfold trackNamesToUpdate. rewrite trackNamesToUpdate_outer_elem, elem_of_nil.
  tauto.
Qed.

Example trackNamesToUpdate_alpha tracks : trackNamesToUpdate "alpha" tracks = [].
Proof. unfold trackNamesToUpdate. simpl. by induction tracks. Qed.

Example trackNamesToUpdate_unknown tracks :
  trackNamesToUpdate "unknown-track" tracks = [].
Proof. unfold trackNamesToUpdate. simpl. by induction tracks. Qed.

Example trackNamesToUpdate_production :
  trackNamesToUpdate "production" demo_tracks = ["alpha"; "beta"].
Proof. reflexivity. Qed.

Example trackNamesToUpdate_rollout_without_alpha :
  trackNamesToUpdate "rollout" [demo_beta] = ["beta"].
Proof. reflexivity. Qed.

(** ** The release builder *)

Section release_builder.

Implicit Types (w : World) (release : TrackRelease) (x : float64).

Lemma float64_nonzero_false x :
  float64_nonzero x = false ↔ ∃ s, x = S754_zero s.
Proof.
  unfold float64_nonzero, float64_zero. split.
  - destruct x as [s|s| |s m e]; try destruct s; try done; by eexists.
  - by intros [s ->].
Qed.

Lemma in_unit_interval_nonzero x :
  in_unit_interval x = true → float64_nonzero x = true.
Proof.
  destruct x as [s|[]| |[] m e]; try reflexivity.
  destruct s; discriminate.
Qed.

(** *** The interval on binary64 values *)

Lemma digits2_pos_bounds m :
  2 ^ (Z.pos (digits2_pos m) - 1) ≤ Z.pos m < 2 ^ Z.pos (digits2_pos m).
Proof.
  induction m as [m IH|m IH|]; cbn [digits2_pos]; [| |by vm_compute].
  all: rewrite Pos2Z.inj_succ.
  all: replace (Z.succ (Z.pos (digits2_pos m)) - 1) with (Z.pos (digits2_pos m)) by lia.
  all: rewrite Z.pow_succ_r by lia.
  all: assert (2 ^ Z.pos (digits2_pos m)
               = 2 * 2 ^ (Z.pos (digits2_pos m) - 1)) as Hp
         by (rewrite <- Z.pow_succ_r by lia; f_equal; lia).
  all: lia.
Qed.

Lemma pow2_split a b : 0 ≤ a → 0 ≤ b → 2 ^ (a + b) = 2 ^ a * 2 ^ b.
Proof. intros. by apply Z.pow_add_r. Qed.

Lemma pow2_pos a : 0 ≤ a → 0 < 2 ^ a.
Proof. intros. apply Z.pow_pos_nonneg; lia. Qed.

(** The value m * 2^e of a positive binary64 number, scaled by 2^1074, is
    at most 2^1074 exactly when the comparison with 1 says so. *)
Lemma float64_le_one m e :
  float64_valid (S754_finite false m e) = true →
  SFleb (S754_finite false m e) float64_one = true
  ↔ Z.pos m * 2 ^ (e + 1074) ≤ 2 ^ 1074.
Proof.
  unfold float64_valid, valid_binary, bounded, canonical_mantissa, fexp, emin.
  intros [Hcanon _]%andb_true_iff. apply Z.eqb_eq in Hcanon.
  pose proof (digits2_pos_bounds m) as Hm.
  assert (-1074 ≤ e) as He by lia.
  unfold SFleb, float64_one. cbn [SFcompare].
  replace 1074 with (52 + 1022) at 2 by lia.
  rewrite (pow2_split 52 1022) by lia.
  destruct (Z.compare_spec e (-52)) as [->|Hlt|Hgt].
  - replace (-52 + 1074) with 1022 by lia.
    pose proof (pow2_pos 1022 ltac:(lia)) as Hpos.
    rewrite <- Z.mul_le_mono_pos_r by exact Hpos.
    rewrite Pos.compare_cont_spec. cbn [Pos.switch_Eq].
    assert (2 ^ 52 = Z.pos 4503599627370496) as -> by reflexivity.
    clear. destruct (Pos.compare_spec m 4503599627370496) as [H|H|H].
    + subst m. split; [intros _; apply Z.le_refl|reflexivity].
    + apply Pos2Z.pos_lt_pos in H. split; [intros _; lia|reflexivity].
    + apply Pos2Z.pos_lt_pos in H. split; [discriminate|lia].
  - split; [intros _|done].
    assert (Z.pos (digits2_pos m) ≤ 53) as Hd by lia.
    assert (Z.pos m < 2 ^ 53) as Hm'.
    { eapply Z.lt_le_trans; [apply Hm|]. apply Z.pow_le_mono_r; lia. }
    rewrite <- (pow2_split 52 1022) by lia.
    pose proof (pow2_pos (e + 1074) ltac:(lia)) as Hpos.
    assert (2 ^ 53 * 2 ^ (e + 1074) ≤ 2 ^ (52 + 1022)) as Hle.
    { rewrite <- pow2_split by lia. apply Z.pow_le_mono_r; lia. }
    revert Hm' Hpos Hle. clear.
    generalize (2 ^ 53) (2 ^ (e + 1074)) (2 ^ (52 + 1022)). intros a b c. nia.
  - split; [done|intros Hle; exfalso].
    assert (Z.pos (digits2_pos m) = 53) as Hd by lia.
    rewrite Hd in Hm. replace (53 - 1) with 52 in Hm by lia.
    assert (2 ^ 52 * 2 ^ (e + 1074) ≤ 2 ^ 52 * 2 ^ 1022) as Hle'.
    { etrans; [|exact Hle]. apply Z.mul_le_mono_nonneg_r; [|lia].
      apply Z.lt_le_incl, pow2_pos. lia. }
    rewrite <- !pow2_split in Hle' by lia.
    apply Z.pow_le_mono_r_iff in Hle'; lia.
Qed.

(** On the values of [float64], [in_unit_interval] is the interval: it
    holds exactly of the positive finite numbers m * 2^e that are at most 1
    (the bound is written with both sides scaled by 2^1074, the exponent
    of a canonical number being at least -1074). *)
Lemma in_unit_interval_spec (x : float64) :
  float64_valid x = true →
  in_unit_interval x = true
  ↔ ∃ m e, x = S754_finite false m e ∧ Z.pos m * 2 ^ (e + 1074) ≤ 2 ^ 1074.
Proof.
  intros Hvalid. unfold in_unit_interval. split.
  - destruct x as [[]|[]| |[] m e]; try done.
    intros [_ Hle]%andb_true_iff. exists m, e. split; [done|].
    by apply float64_le_one.
  - intros (m & e & -> & Hle). apply andb_true_iff. split; [done|].
    by apply float64_le_one.
Qed.

Example in_unit_interval_values :
  Forall (λ x, float64_valid x = true)
    [float64_zero; float64_quarter; float64_one; float64_two; float64_million;
     S754_finite false 1 (-1074)]
  ∧ in_unit_interval <$> [float64_zero; float64_quarter; float64_one; float64_two;
                          float64_million; S754_finite false 1 (-1074);
                          S754_infinity false; S754_nan;
                          S754_finite true 4503599627370496 (-54)]
    = [false; true; true; false; false; true; false; false; false].
Proof. split; [by repeat constructor|reflexivity]. Qed.

(** [updateListing] touches nothing but the release notes, and fails only
    when the notes cannot be read. *)
Lemma updateListing_frame w dir release tr :
  let '(release', err) := (updateListing w dir release tr).2 in
  Name release' = Name release ∧ Status release' = Status release
  ∧ UserFraction release' = UserFraction release
  ∧ VersionCodes release' = VersionCodes release
  ∧ ForceSendFields release' = ForceSendFields release
  ∧ NullFields release' = NullFields release
  ∧ (err = None
     ∨ dir ≠ "" ∧ ∃ e, (readLocalisedRecentChanges w dir tr).2 = Err e).
Proof.
  unfold updateListing. destruct (String.eqb_spec dir ""); simpl.
  { repeat split; auto. }
  unfold mbind, M_bind.
  destruct (readLocalisedRecentChanges w dir tr) as [tr' [m|e]]; simpl.
  - repeat split; auto.
  - repeat split; eauto.
Qed.

Lemma createTrackRelease_eq w dir vc x tr :
  (createTrackRelease w dir vc x tr).2
  = let '(release', err) :=
      (updateListing w dir
         {| Name := ""; ReleaseNotes := [];
            Status := releaseStatusFromConfig x;
            UserFraction := if float64_nonzero x then x else float64_zero;
            VersionCodes := vc; ForceSendFields := []; NullFields := [] |}
         tr).2 in
    match err with
    | Some err =>
        Err (errorString ("failed to update listing, reason: " +:+ Error err))
    | None => Ok release'
    end.
Proof.
  unfold createTrackRelease, mbind, M_bind.
  destruct (float64_nonzero x) eqn:Hx; unfold set_UserFraction; simpl;
    by destruct (updateListing _ _ _ _) as [tr' [release' [err|]]].
Qed.

End release_builder.

(** What the release builder returns, in full: a fresh release with the
    status and fraction of the configuration and whatever notes were read,
    or an error when the notes cannot be read. *)
Lemma createTrackRelease_built (w : World) (whatsNewsDir : string)
    (versionCodes : list Z) (userFraction : float64) (tr : list Event) :
  match (createTrackRelease w whatsNewsDir versionCodes userFraction tr).2 with
  | Ok release =>
      ∃ notes,
        release
        = {| Name := ""; ReleaseNotes := notes;
             Status := releaseStatusFromConfig userFraction;
             UserFraction := if float64_nonzero userFraction
                             then userFraction else float64_zero;
             VersionCodes := versionCodes;
             ForceSendFields := []; NullFields := [] |}
  | Err _ =>
      whatsNewsDir ≠ ""
      ∧ ∃ e, (readLocalisedRecentChanges w whatsNewsDir tr).2 = Err e
  end.
Proof.
  rewrite createTrackRelease_eq.
  pose proof (updateListing_frame w whatsNewsDir
    {| Name := ""; ReleaseNotes := [];
       Status := releaseStatusFromConfig userFraction;
       UserFraction := if float64_nonzero userFraction
                       then userFraction else float64_zero;
       VersionCodes := versionCodes; ForceSendFields := []; NullFields := [] |}
    tr) as Hframe.
  destruct (updateListing _ _ _ _).2 as [release' [err|]]; simpl in *.
  - destruct Hframe as (_ & _ & _ & _ & _ & _ & [?|?]); done.
  - destruct Hframe as (HN & HS & HU & HV & HF & HNull & _).
    exists (ReleaseNotes release'). destruct release'; simpl in *. by subst.
Qed.

(** C5.  The release builder fails only when the release notes cannot be
    read.  The release it builds has status inProgress when the fraction is
    not zero and completed when it is zero; its user fraction is the given
    one when that is not zero; and the user-fraction field travels with the
    release exactly when the fraction is not zero, so a zero fraction never
    shows as a field.  The version codes are the given ones. *)
Theorem createTrackRelease_status_and_fraction (w : World) (whatsNewsDir : string)
    (versionCodes : list Z) (userFraction : float64) (tr : list Event) :
  match (createTrackRelease w whatsNewsDir versionCodes userFraction tr).2 with
  | Ok release =>
      Status release = (if float64_nonzero userFraction
                        then "inProgress" else "completed")
      ∧ UserFraction release = (if float64_nonzero userFraction
                                then userFraction else float64_zero)
      ∧ sends_UserFraction release = float64_nonzero userFraction
      ∧ VersionCodes release = versionCodes
  | Err _ =>
      whatsNewsDir ≠ ""
      ∧ ∃ e, (readLocalisedRecentChanges w whatsNewsDir tr).2 = Err e
  end.
Proof.
  pose proof (createTrackRelease_built w whatsNewsDir versionCodes userFraction tr)
    as Hbuilt.
  destruct (createTrackRelease _ _ _ _ _).2 as [release|e]; [|done].
  destruct Hbuilt as [notes ->]. unfold sends_UserFraction, releaseStatusFromConfig.
  cbn [Status UserFraction VersionCodes ForceSendFields].
  rewrite bool_decide_eq_false_2 by apply not_elem_of_nil.
  rewrite orb_false_r. by destruct (float64_nonzero userFraction) eqn:Hx.
Qed.

Example createTrackRelease_zero :
  createTrackRelease demo_world "" [6] float64_zero []
  = ([], Ok {| Name := ""; ReleaseNotes := []; Status := "completed";
               UserFraction := float64_zero; VersionCodes := [6];
               ForceSendFields := []; NullFields := [] |}).
Proof. reflexivity. Qed.

Example createTrackRelease_quarter :
  createTrackRelease demo_world "" [6] float64_quarter []
  = ([], Ok {| Name := ""; ReleaseNotes := []; Status := "inProgress";
               UserFraction := float64_quarter; VersionCodes := [6];
               ForceSendFields := []; NullFields := [] |}).
Proof. reflexivity. Qed.

(** C6, as the code has it.  In every release the builder returns, the
    user-fraction field is present if and only if the status is inProgress,
    and a fraction that is present is the configured one: the builder does
    not check its range, so it lies between 0 (excluded) and 1 (included)
    whenever the configured fraction does. *)
Theorem createTrackRelease_fraction_invariant (w : World) (whatsNewsDir : string)
    (versionCodes : list Z) (userFraction : float64) (tr : list Event)
    (release : TrackRelease) :
  (createTrackRelease w whatsNewsDir versionCodes userFraction tr).2 = Ok release →
  (sends_UserFraction release = true ↔ Status release = releaseStatusInProgress)
  ∧ (sends_UserFraction release = true → UserFraction release = userFraction)
  ∧ (in_unit_interval userFraction = true →
     sends_UserFraction release = true
     ∧ in_unit_interval (UserFraction release) = true).
Proof.
  intros Hrun.
  pose proof (createTrackRelease_built w whatsNewsDir versionCodes userFraction tr)
    as Hbuilt.
  rewrite Hrun in Hbuilt. destruct Hbuilt as [notes ->].
  unfold sends_UserFraction, releaseStatusFromConfig.
  cbn [Status UserFraction VersionCodes ForceSendFields].
  rewrite bool_decide_eq_false_2 by apply not_elem_of_nil.
  rewrite orb_false_r. split_and!.
  - by destruct (float64_nonzero userFraction) eqn:Hx.
  - by destruct (float64_nonzero userFraction) eqn:Hx.
  - intros Hin. by rewrite !(in_unit_interval_nonzero _ Hin).
Qed.

Lemma createTrackRelease_fraction_invariant_witness :
  ∃ release,
    (createTrackRelease demo_world "" [6] float64_quarter []).2 = Ok release
    ∧ (sends_UserFraction release = true ↔ Status release = releaseStatusInProgress)
    ∧ (sends_UserFraction release = true → UserFraction release = float64_quarter)
    ∧ (in_unit_interval float64_quarter = true →
       sends_UserFraction release = true
       ∧ in_unit_interval (UserFraction release) = true).
Proof.
  eexists. split; [reflexivity|].
  apply (createTrackRelease_fraction_invariant demo_world "" [6] float64_quarter []).
  reflexivity.
Defined.

(** C6, as stated, fails: built for the fraction 2, a value of [float64],
    the release carries a user fraction, and that fraction is outside the
    interval. *)
Lemma createTrackRelease_fraction_out_of_range :
  ∃ release,
    float64_valid float64_two = true
    ∧ (createTrackRelease demo_world "" [6] float64_two []).2 = Ok release
    ∧ sends_UserFraction release = true
    ∧ Status release = releaseStatusInProgress
    ∧ UserFraction release = float64_two
    ∧ in_unit_interval (UserFraction release) = false.
Proof. eexists. by split_and!. Qed.

(** ** The workflow of main.go *)

Module main_go_facts.
Import main_go.

Lemma clean_no_commit tr : clean tr → no_commit tr.
Proof.
  unfold clean, no_commit. intros H. eapply Forall_impl; [exact H|].
  by intros ev [? _].
Qed.

Lemma clean_snoc tr c f :
  clean tr → is_commit c = false → (f = true → is_close c = true) →
  clean (tr ++ [{| call := c; failed := f |}]).
Proof. intros. apply Forall_app. split; [done|]. by repeat constructor. Qed.

Lemma no_commit_snoc tr c f :
  no_commit tr → is_commit c = false →
  no_commit (tr ++ [{| call := c; failed := f |}]).
Proof. intros. apply Forall_app. split; [done|]. by repeat constructor. Qed.

Create HintDb run.
#[local] Hint Resolve clean_no_commit clean_snoc no_commit_snoc : run.

Lemma invoke_reports {A} c (ask : list Step → A) bad :
  is_commit c = false → reports bad (invoke c ask bad).
Proof.
  intros Hc tr Htr. eexists _, _. split; [reflexivity|].
  destruct (bad (ask tr)) eqn:Hbad; [auto with run|].
  by apply clean_snoc.
Qed.

Lemma reports_bind {A B} bad1 bad2 (m : P A) (k : A → P B) :
  reports bad1 m →
  (∀ a, bad1 a = true → ∃ b, bad2 b = true ∧ k a = mret b) →
  (∀ a, bad1 a = false → reports bad2 (k a)) →
  reports bad2 (m ≫= k).
Proof.
  intros Hm Hbad Hgood tr Htr. unfold mbind, P_bind.
  destruct (Hm tr Htr) as (tr' & a & -> & Hpost).
  destruct (bad1 a) eqn:Ha.
  - destruct (Hbad a Ha) as (b & Hb & ->). exists tr', b.
    split; [done|]. by rewrite Hb.
  - by apply Hgood.
Qed.

Lemma proceeds_ret {A} (a : A) : proceeds (mret a).
Proof. intros tr Htr. exists tr. left. by exists a. Qed.

Lemma proceeds_bind {A B} (m : P A) (k : A → P B) :
  proceeds m → (∀ a, proceeds (k a)) → proceeds (m ≫= k).
Proof.
  intros Hm Hk tr Htr. unfold mbind, P_bind.
  destruct (Hm tr Htr) as (tr' & [(a & -> & Hc)|[-> Hn]]).
  - by apply Hk.
  - exists tr'. by right.
Qed.

Lemma proceeds_reports_bind {A B} bad (m : P A) (k : A → P B) :
  reports bad m →
  (∀ a, bad a = true → k a = os_Exit 1) →
  (∀ a, bad a = false → proceeds (k a)) →
  proceeds (m ≫= k).
Proof.
  intros Hm Hbad Hgood tr Htr. unfold mbind, P_bind.
  destruct (Hm tr Htr) as (tr' & a & -> & Hpost).
  destruct (bad a) eqn:Ha.
  - rewrite (Hbad a Ha). exists tr'. by right.
  - by apply Hgood.
Qed.

Lemma verdict_exit w tr : clean tr → verdict w (tr, Exited 1).
Proof. left. auto with run. Qed.

Lemma verdict_proceeds_bind {A} w (m : P A) (k : A → P unit) :
  proceeds m →
  (∀ a tr, clean tr → verdict w (k a tr)) →
  ∀ tr, clean tr → verdict w ((m ≫= k) tr).
Proof.
  intros Hm Hk tr Htr. unfold mbind, P_bind.
  destruct (Hm tr Htr) as (tr' & [(a & -> & Hc)|[-> Hn]]).
  - by apply Hk.
  - by left.
Qed.

Lemma verdict_reports_bind {A} w bad (m : P A) (k : A → P unit) :
  reports bad m →
  (∀ a, bad a = true → k a = os_Exit 1) →
  (∀ a tr, bad a = false → clean tr → verdict w (k a tr)) →
  ∀ tr, clean tr → verdict w ((m ≫= k) tr).
Proof.
  intros Hm Hbad Hgood tr Htr. unfold mbind, P_bind.
  destruct (Hm tr Htr) as (tr' & a & -> & Hpost).
  destruct (bad a) eqn:Ha.
  - rewrite (Hbad a Ha). by left.
  - by apply Hgood.
Qed.


Lemma check_exists_reports w what pth :
  reports is_Some_error (check_exists w what pth).
Proof.
  intros tr Hc. unfold check_exists, mbind, P_bind, invoke.
  destruct (reply_IsPathExists w tr pth) as [[]|e]; simpl;
    eexists _, _; (split; [reflexivity|]); simpl; auto 6 with run.
Qed.

Lemma reports_ret {A} bad (a : A) : reports bad (mret a).
Proof.
  intros tr Htr. exists tr, a. split; [done|].
  destruct (bad a); auto with run.
Qed.

#[local] Hint Resolve reports_ret proceeds_ret check_exists_reports : run.

Lemma validate_apks_reports w apkPaths :
  reports is_Some_error (validate_apks w apkPaths).
Proof.
  induction apkPaths as [|apkPath rest IH]; simpl; [auto with run|].
  eapply reports_bind; [apply check_exists_reports| |].
  - intros [e|]; [|done]. by eexists.
  - by intros [e|].
Qed.

Lemma validate_tail_reports w configs :
  reports is_Some_error (validate_tail w configs).
Proof.
  unfold validate_tail. repeat case_match; auto with run.
  all: eapply reports_bind; [apply validate_apks_reports| |].
  all: intros [e|]; try done; try (by eexists); intros _; auto with run.
Qed.

Lemma validate_key_reports w what keyPath :
  reports is_Some_error (validate_key w what keyPath).
Proof. unfold validate_key. case_match; auto with run. Qed.

Lemma validate_reports w configs : reports is_Some_error (validate w configs).
Proof.
  unfold validate. repeat case_match; auto with run.
  all: eapply reports_bind; [apply validate_key_reports| |].
  all: intros [e|]; try done; try (by eexists); intros _;
    auto using validate_tail_reports with run.
Qed.

Lemma downloadFile_reports w downloadURL targetPath :
  reports is_Some_error (downloadFile w downloadURL targetPath).
Proof.
  intros tr Htr. unfold downloadFile, mbind, P_bind, invoke.
  destruct (reply_os_Create w tr targetPath) as [e|] eqn:Hcreate; simpl.
  { eexists _, _. split; [reflexivity|]. simpl. auto with run. }
  destruct (reply_http_Get w _ downloadURL) as [e|] eqn:Hget; simpl.
  { eexists _, _. split; [reflexivity|]. simpl. auto 7 with run. }
  destruct (reply_io_Copy w _ targetPath downloadURL) as [e|] eqn:Hcopy; simpl.
  { eexists _, _. split; [reflexivity|]. simpl. auto 9 with run. }
  eexists _, _. split; [reflexivity|]. simpl.
  repeat (apply clean_snoc; [|done|done]). done.
Qed.

Lemma jwtConfigFromJSONKeyFile_reports w pth :
  reports is_Err (jwtConfigFromJSONKeyFile w pth).
Proof.
  unfold jwtConfigFromJSONKeyFile.
  eapply reports_bind; [by apply invoke_reports| |].
  - intros [v|e]; [done|]. intros _. eexists. by split; [|reflexivity].
  - intros [v|e]; [|done]. intros _. by apply invoke_reports.
Qed.

Lemma jwtConfigFromP12KeyFile_reports w pth email :
  reports is_Err (jwtConfigFromP12KeyFile w pth email).
Proof.
  unfold jwtConfigFromP12KeyFile.
  eapply reports_bind; [by apply invoke_reports| |].
  - intros [v|e|e]; [done| |]; intros _; eexists; by split; [|reflexivity].
  - intros [v|e|e]; [|done..]. intros _. apply reports_ret.
Qed.

Lemma keyPath_proceeds w configured fileName :
  proceeds (keyPath w configured fileName).
Proof.
  unfold keyPath. case_match; [apply proceeds_ret|].
  eapply proceeds_reports_bind; [by apply invoke_reports| |].
  - by intros [v|e].
  - intros [tmpDir|e]; [|done]. intros _.
    eapply proceeds_reports_bind; [apply downloadFile_reports| |].
    + by intros [e|].
    + intros [e|]; [done|]. intros _. apply proceeds_ret.
Qed.

Lemma createClient_proceeds w configs : proceeds (createClient w configs).
Proof.
  unfold createClient. case_match.
  - apply proceeds_bind; [apply keyPath_proceeds|]. intros jsonKeyPth.
    eapply proceeds_reports_bind; [apply jwtConfigFromJSONKeyFile_reports| |].
    + by intros [v|e].
    + intros [v|e]; [|done]. intros _. apply proceeds_ret.
  - apply proceeds_bind; [apply keyPath_proceeds|]. intros p12KeyPath.
    eapply proceeds_reports_bind; [apply jwtConfigFromP12KeyFile_reports| |].
    + by intros [v|e].
    + intros [v|e]; [|done]. intros _. apply proceeds_ret.
Qed.

Lemma uploadApks_proceeds w packageName editID apkPaths :
  ∀ versionCode, proceeds (uploadApks w packageName editID apkPaths versionCode).
Proof.
  induction apkPaths as [|apkPath rest IH]; intros versionCode; simpl.
  { apply proceeds_ret. }
  eapply proceeds_reports_bind; [by apply invoke_reports| |].
  - by intros [v|e].
  - intros [apkFile|e]; [|done]. intros _.
    eapply proceeds_reports_bind; [by apply invoke_reports| |].
    + by intros [v|e].
    + intros [apk|e]; [|done]. intros _. apply IH.
Qed.

Lemma proceeds_exit {A} : proceeds (os_Exit (A:=A) 1).
Proof. intros tr Htr. exists tr. right. auto with run. Qed.

(** Every run of [main] ends in one of the two ways of [verdict]. *)
Lemma main_verdict w : verdict w (main w []).
Proof.
  unfold main.
  destruct (validate_reports w (createConfigsModelFromEnvs w) [])
    as (tr0 & invalid & Hval & Hpost); [constructor|].
  unfold mbind at 1, P_bind at 1. rewrite Hval.
  destruct invalid as [e|]; simpl in Hpost; [by left|].
  assert (∃ tr, validate w (createConfigsModelFromEnvs w) [] = (tr, Continue None))
    as Hvalid by eauto.
  clear Hval. revert tr0 Hpost.
  apply verdict_proceeds_bind; [apply createClient_proceeds|].
  intros jwtConfig.
  eapply verdict_reports_bind; [by apply invoke_reports| |].
  { by intros [e|]. }
  intros [e|]; [done|]. intros tr1 _. revert tr1.
  eapply verdict_reports_bind; [by apply invoke_reports| |].
  { by intros [v|e]. }
  intros [appEdit|e]; [|done]. intros tr2 _. revert tr2.
  apply verdict_proceeds_bind; [apply uploadApks_proceeds|].
  intros versionCode.
  apply verdict_proceeds_bind.
  { repeat case_match; auto using proceeds_exit with run. }
  intros newTrack.
  eapply verdict_reports_bind; [by apply invoke_reports| |].
  { by intros [v|e]. }
  intros [updated|e]; [|done]. intros tr3 _ Htr3.
  unfold mbind, P_bind, invoke.
  destruct (reply_Edits_Commit w tr3 _ _) as [appEdit' err] eqn:Hcommit.
  right. exists tr3, (PackageName (createConfigsModelFromEnvs w)), (Id appEdit),
           (commit_failed (appEdit', err)).
  destruct err as [err|], appEdit' as [appEdit'|]; simpl; split_and!; eauto.
Qed.

(** C4.  In every run of [main]: a failed call, the closing of a file or
    of a response body apart, and so in particular a failed remote call
    before the commit, ends the run with status 1 and without any commit
    call; and a commit call, when one is made, is the last call of the run,
    made after a successful validation and after calls that all
    succeeded. *)
Theorem main_commits_only_after_success (w : Host) :
  (∀ ev, ev ∈ (main w []).1 → failed ev = true →
         is_commit (call ev) = false →
         is_remote (call ev) = true ∨ is_close (call ev) = false →
         (main w []).2 = Exited 1 ∧ no_commit (main w []).1)
  ∧ (∀ pre ev post, (main w []).1 = pre ++ ev :: post →
         is_commit (call ev) = true →
         post = [] ∧ clean pre
         ∧ ∃ tr, validate w (createConfigsModelFromEnvs w) [] = (tr, Continue None)).
Proof.
  destruct (main_verdict w)
    as [[Hst Hn]|(pre0 & pkg & ed & f & Htr & Hclean & Hval & Hf)].
  - split; [done|]. intros pre ev post Heq Hcommit.
    rewrite Heq in Hn. apply Forall_app in Hn as [_ Hn].
    apply Forall_cons in Hn as [Hn _]. congruence.
  - split.
    + intros ev Hev Hfailed Hnc Hncl. rewrite Htr in Hev.
      assert (is_close (call ev) = false) as Hopen.
      { destruct Hncl as [Hremote|?]; [|done]. by destruct (call ev). }
      apply elem_of_app in Hev as [Hev|Hev].
      * unfold clean in Hclean. rewrite Forall_forall in Hclean.
        destruct (Hclean ev Hev) as [_ Hcl]. specialize (Hcl Hfailed). congruence.
      * apply list_elem_of_singleton in Hev as ->. done.
    + intros pre ev post Heq Hcommit. rewrite Htr in Heq.
      destruct post as [|x post _] using rev_ind.
      * apply app_inj_tail in Heq as [-> _]. done.
      * rewrite app_comm_cons, (assoc_L (++)) in Heq.
        apply app_inj_tail in Heq as [-> _].
        apply Forall_app in Hclean as [_ Hclean].
        apply Forall_cons in Hclean as [[Hnc _] _]. congruence.
Qed.

Lemma main_commits_only_after_success_witness :
  ((main failing_host []).2 = Exited 1 ∧ no_commit (main failing_host []).1)
  ∧ clean (take 12 (main calm_host []).1).
Proof.
  split.
  - apply (proj1 (main_commits_only_after_success failing_host)
             {| call := Apks_Upload "com.example.app" "edit1" "/b.apk";
                failed := true |}); [|reflexivity|reflexivity|by left].
    apply list_elem_of_lookup. exists 10%nat. reflexivity.
  - apply (proj2 (main_commits_only_after_success calm_host)
             (take 12 (main calm_host []).1)
             {| call := Edits_Commit "com.example.app" "edit1"; failed := false |}
             []); reflexivity.
Defined.

Example main_failing_host_trace :
  call <$> (main failing_host []).1
  = [IsPathExists "/key.json"; IsPathExists "/a.apk"; IsPathExists "/b.apk";
     ReadBytesFromFile "/key.json"; JWTConfigFromJSON "{}"; androidpublisher_New;
     Edits_Insert "com.example.app";
     os_Open_apk "/a.apk"; Apks_Upload "com.example.app" "edit1" "/a.apk";
     os_Open_apk "/b.apk"; Apks_Upload "com.example.app" "edit1" "/b.apk"].
Proof. reflexivity. Qed.

End main_go_facts.

(** ** Strings *)

Section string_facts.

Implicit Types (s t a q : string) (b c : ascii).

Lemma append_nil_l t : "" +:+ t = t.
Proof. reflexivity. Qed.

Lemma append_cons c s t : String c s +:+ t = String c (s +:+ t).
Proof. reflexivity. Qed.

Ltac sapp := rewrite ?append_cons, ?append_nil_l.

Lemma append_nil_r s : s +:+ "" = s.
Proof. induction s as [|c s IH]; sapp; [done | by rewrite IH]. Qed.

Lemma append_assoc s t q : (s +:+ t) +:+ q = s +:+ t +:+ q.
Proof. induction s as [|c s IH]; sapp; [done | by rewrite IH]. Qed.

Lemma length_append s t :
  String.length (s +:+ t) = (String.length s + String.length t)%nat.
Proof. induction s as [|c s IH]; sapp; simpl; [done | by rewrite IH]. Qed.

Lemma HasPrefix_nil s : strings.HasPrefix s "" = true.
Proof. by destruct s. Qed.

Lemma HasPrefix_append s a q :
  strings.HasPrefix s a = true → strings.HasPrefix (s +:+ q) a = true.
Proof.
  revert s. induction a as [|c a IH]; intros s; [by rewrite !HasPrefix_nil|].
  destruct s as [|c' s]; [done|]. sapp. unfold strings.HasPrefix in *. simpl.
  destruct (ascii_dec c c'); [apply IH|done].
Qed.

Lemma HasPrefix_decomp s a :
  strings.HasPrefix s a = true → s = a +:+ strings.drop (String.length a) s.
Proof.
  revert s. induction a as [|c a IH]; intros s; [done|].
  destruct s as [|c' s]; [done|]. sapp. unfold strings.HasPrefix in *. simpl.
  destruct (ascii_dec c c') as [->|]; [|done]. intros H. f_equal. by apply IH.
Qed.

Lemma HasPrefix_append_l a q : strings.HasPrefix (a +:+ q) a = true.
Proof.
  induction a as [|c a IH]; sapp; [apply HasPrefix_nil|].
  unfold strings.HasPrefix in *. simpl. by destruct (ascii_dec c c).
Qed.

Lemma contains_byte_append b s t :
  contains_byte b (s +:+ t) = contains_byte b s || contains_byte b t.
Proof.
  induction s as [|c s IH]; sapp; simpl; [done|]. by rewrite IH, orb_assoc.
Qed.

Lemma Split_nonempty s b : strings.Split s b ≠ [].
Proof.
  destruct s as [|c s]; simpl; [done|].
  destruct (Ascii.eqb c b); [done|]. by destruct (strings.Split s b).
Qed.

Lemma Split_without_sep s b :
  contains_byte b s = false → strings.Split s b = [s].
Proof.
  induction s as [|c s IH]; simpl; [done|].
  intros [Hc Hs]%orb_false_elim. by rewrite Hc, IH.
Qed.

Lemma Split_append_sep t b s :
  contains_byte b t = false →
  strings.Split (t +:+ String b s) b = t :: strings.Split s b.
Proof.
  induction t as [|c t IH]; sapp; simpl.
  - intros _. by rewrite Ascii.eqb_refl.
  - intros [Hc Ht]%orb_false_elim. by rewrite Hc, IH.
Qed.

Lemma contains_byte_split b s :
  contains_byte b s = true →
  ∃ t r, s = t +:+ String b r ∧ contains_byte b t = false.
Proof.
  induction s as [|c s IH]; simpl; [done|].
  destruct (Ascii.eqb_spec c b) as [->|Hne]; simpl.
  - intros _. by exists "", s.
  - intros (t & r & -> & Ht)%IH. exists (String c t), r. split; [done|].
    simpl. rewrite Ht. by destruct (Ascii.eqb_spec c b).
Qed.

Lemma Split_length_lt_2 s b :
  (length (strings.Split s b) < 2)%nat ↔ contains_byte b s = false.
Proof.
  split.
  - destruct (contains_byte b s) eqn:Hs; [|done].
    destruct (contains_byte_split b s Hs) as (t & r & -> & Ht).
    rewrite Split_append_sep by done. simpl.
    pose proof (Split_nonempty r b). destruct (strings.Split r b); [done|].
    simpl. lia.
  - intros Hs. rewrite Split_without_sep by done. simpl. lia.
Qed.

Lemma Join_Split_without s b :
  strings.Join (strings.Split s b) "" = without b s.
Proof.
  unfold strings.Join. induction s as [|c s IH]; simpl; [done|].
  destruct (Ascii.eqb c b).
  - pose proof (Split_nonempty s b).
    simpl. destruct (strings.Split s b) eqn:Hs; [done|]. by rewrite <- IH.
  - pose proof (Split_nonempty s b).
    destruct (strings.Split s b) as [|seg segs]; [done|].
    rewrite <- IH. simpl. by destruct segs.
Qed.

Lemma space1_not_colon c :
  strings.space1 (strings.code c) = true → Ascii.eqb c ":" = false.
Proof. destruct (Ascii.eqb_spec c ":") as [->|]; [by vm_compute|done]. Qed.

Lemma space2_not_colon c1 c2 :
  strings.space2 (strings.code c1) (strings.code c2) = true →
  Ascii.eqb c1 ":" = false ∧ Ascii.eqb c2 ":" = false.
Proof.
  unfold strings.space2.
  destruct (Ascii.eqb_spec c1 ":") as [->|]; [by vm_compute|].
  destruct (Ascii.eqb_spec c2 ":") as [->|]; [|done].
  rewrite andb_true_iff. by intros [_ ?].
Qed.

Lemma space3_not_colon c1 c2 c3 :
  strings.space3 (strings.code c1) (strings.code c2) (strings.code c3) = true →
  Ascii.eqb c1 ":" = false ∧ Ascii.eqb c2 ":" = false ∧ Ascii.eqb c3 ":" = false.
Proof.
  unfold strings.space3.
  destruct (Ascii.eqb_spec c1 ":") as [->|]; [by vm_compute|].
  destruct (Ascii.eqb_spec c2 ":") as [->|].
  { change (strings.code ":") with 58%N. simpl. rewrite !andb_false_r. done. }
  destruct (Ascii.eqb_spec c3 ":") as [->|]; [|done].
  change (strings.code ":") with 58%N. simpl. rewrite !andb_false_r. done.
Qed.

(** Trimming on the left removes a run of white-space runes: a prefix
    free of colons that trimming always removes. *)
Lemma TrimLeftSpace_decomp_bounded n :
  ∀ s, (String.length s ≤ n)%nat →
    ∃ L, s = L +:+ strings.TrimLeftSpace s
         ∧ contains_byte ":" L = false
         ∧ ∀ z, strings.TrimLeftSpace (L +:+ z) = strings.TrimLeftSpace z.
Proof.
  induction n as [|n IH]; intros s Hn.
  { destruct s; [by exists ""|simpl in Hn; lia]. }
  destruct s as [|c1 r1]; [by exists ""|]. simpl in Hn.
  cbn [strings.TrimLeftSpace].
  destruct (strings.space1 (strings.code c1)) eqn:H1.
  { destruct (IH r1) as (L & HL & HcL & HzL); [lia|].
    exists (String c1 L). split_and!.
    - sapp. by rewrite <- HL.
    - simpl. by rewrite HcL, space1_not_colon.
    - intros z. sapp. cbn [strings.TrimLeftSpace]. by rewrite H1. }
  destruct r1 as [|c2 r2]; [by exists ""|]. simpl in Hn.
  destruct (strings.space2 (strings.code c1) (strings.code c2)) eqn:H2.
  { destruct (IH r2) as (L & HL & HcL & HzL); [lia|].
    destruct (space2_not_colon _ _ H2) as [Hc1 Hc2].
    exists (String c1 (String c2 L)). split_and!.
    - sapp. by rewrite <- HL.
    - simpl. by rewrite HcL, Hc1, Hc2.
    - intros z. sapp. cbn [strings.TrimLeftSpace]. by rewrite H1, H2. }
  destruct r2 as [|c3 r3]; [by exists ""|]. simpl in Hn.
  destruct (strings.space3 _ _ _) eqn:H3; [|by exists ""].
  destruct (IH r3) as (L & HL & HcL & HzL); [lia|].
  destruct (space3_not_colon _ _ _ H3) as (Hc1 & Hc2 & Hc3).
  exists (String c1 (String c2 (String c3 L))). split_and!.
  - sapp. by rewrite <- HL.
  - simpl. by rewrite HcL, Hc1, Hc2, Hc3.
  - intros z. sapp. cbn [strings.TrimLeftSpace]. by rewrite H1, H2, H3.
Qed.

Lemma TrimLeftSpace_decomp s :
  ∃ L, s = L +:+ strings.TrimLeftSpace s
       ∧ contains_byte ":" L = false
       ∧ ∀ z, strings.TrimLeftSpace (L +:+ z) = strings.TrimLeftSpace z.
Proof. by apply (TrimLeftSpace_decomp_bounded (String.length s)). Qed.

Lemma TrimLeftSpace_idemp s :
  strings.TrimLeftSpace (strings.TrimLeftSpace s) = strings.TrimLeftSpace s.
Proof.
  destruct (TrimLeftSpace_decomp s) as (L & HL & _ & Hz).
  by rewrite HL at 2; rewrite Hz.
Qed.

(** The scan on the reversed bytes only drops bytes from the front. *)
Lemma TrimLeftSpaceRev_suffix_bounded n :
  ∀ s, (String.length s ≤ n)%nat → ∃ p, s = p +:+ strings.TrimLeftSpaceRev s.
Proof.
  induction n as [|n IH]; intros s Hn.
  { destruct s; [by exists ""|simpl in Hn; lia]. }
  destruct s as [|c1 r1]; [by exists ""|]. simpl in Hn.
  cbn [strings.TrimLeftSpaceRev].
  destruct (strings.space1 (strings.code c1)).
  { destruct (IH r1) as (p & Hp); [lia|]. exists (String c1 p).
    sapp. by rewrite <- Hp. }
  destruct r1 as [|c2 r2]; [by exists ""|]. simpl in Hn.
  destruct (strings.space2 _ _).
  { destruct (IH r2) as (p & Hp); [lia|]. exists (String c1 (String c2 p)).
    sapp. by rewrite <- Hp. }
  destruct r2 as [|c3 r3]; [by exists ""|]. simpl in Hn.
  destruct (strings.space3 _ _ _); [|by exists ""].
  destruct (IH r3) as (p & Hp); [lia|].
  exists (String c1 (String c2 (String c3 p))). sapp. by rewrite <- Hp.
Qed.

Lemma rev_onto_append s acc :
  strings.rev_onto s acc = strings.reverse s +:+ acc.
Proof.
  unfold strings.reverse. revert acc.
  induction s as [|c s IH]; intros acc; simpl; [done|].
  rewrite (IH (String c acc)), (IH (String c "")), append_assoc. by sapp.
Qed.

Lemma reverse_append s t :
  strings.reverse (s +:+ t) = strings.reverse t +:+ strings.reverse s.
Proof.
  induction s as [|c s IH]; sapp.
  - by rewrite append_nil_r.
  - unfold strings.reverse at 1 3. simpl.
    by rewrite !rev_onto_append, IH, append_assoc.
Qed.

Lemma reverse_involutive s : strings.reverse (strings.reverse s) = s.
Proof.
  induction s as [|c s IH]; [done|].
  unfold strings.reverse at 2. simpl.
  by rewrite rev_onto_append, reverse_append, IH.
Qed.

(** Trimming on the right keeps a prefix. *)
Lemma TrimRightSpace_prefix s : ∃ q, s = strings.TrimRightSpace s +:+ q.
Proof.
  unfold strings.TrimRightSpace.
  destruct (TrimLeftSpaceRev_suffix_bounded _ (strings.reverse s) (le_n _))
    as (p & Hp).
  exists (strings.reverse p).
  by rewrite <- reverse_append, <- Hp, reverse_involutive.
Qed.

Lemma HasPrefix_TrimSpace s a :
  strings.HasPrefix (strings.TrimSpace s) a = true →
  strings.HasPrefix (strings.TrimLeftSpace s) a = true.
Proof.
  unfold strings.TrimSpace. intros H.
  destruct (TrimRightSpace_prefix (strings.TrimLeftSpace s)) as (q & Hq).
  rewrite Hq. by apply HasPrefix_append.
Qed.

(** *** What trimming removes *)

Lemma white_runes_eq : white_runes = white_runes_listed.
Proof. reflexivity. Qed.

Ltac rune_cases H :=
  rewrite white_runes_eq in H; unfold white_runes_listed in H;
  repeat (apply elem_of_cons in H as [->|H]); [..|by apply elem_of_nil in H].

Lemma space1_rune c :
  strings.space1 (strings.code c) = true → String c "" ∈ white_runes.
Proof.
  rewrite <- (ascii_N_embedding c) at 2. unfold strings.code.
  generalize (N_of_ascii c). intros n. unfold strings.space1.
  rewrite orb_true_iff, andb_true_iff, !N.leb_le, N.eqb_eq. intros Hn.
  assert (n = 9 ∨ n = 10 ∨ n = 11 ∨ n = 12 ∨ n = 13 ∨ n = 32)%N as Hn' by lia.
  clear Hn. rewrite white_runes_eq.
  repeat (destruct Hn' as [->|Hn']); try subst n;
    by apply (bool_decide_unpack _).
Qed.

Lemma space2_rune c1 c2 :
  strings.space2 (strings.code c1) (strings.code c2) = true →
  String c1 (String c2 "") ∈ white_runes.
Proof.
  rewrite <- (ascii_N_embedding c1), <- (ascii_N_embedding c2) at 2.
  unfold strings.code.
  generalize (N_of_ascii c1) (N_of_ascii c2). intros n1 n2. unfold strings.space2.
  rewrite andb_true_iff, orb_true_iff, !N.eqb_eq. intros [-> Hn].
  rewrite white_runes_eq.
  destruct Hn as [->| ->]; by apply (bool_decide_unpack _).
Qed.

Lemma space3_rune c1 c2 c3 :
  strings.space3 (strings.code c1) (strings.code c2) (strings.code c3) = true →
  String c1 (String c2 (String c3 "")) ∈ white_runes.
Proof.
  rewrite <- (ascii_N_embedding c1), <- (ascii_N_embedding c2),
    <- (ascii_N_embedding c3) at 2.
  unfold strings.code.
  generalize (N_of_ascii c1) (N_of_ascii c2) (N_of_ascii c3). intros n1 n2 n3.
  unfold strings.space3.
  rewrite !orb_true_iff, !andb_true_iff, !orb_true_iff, !andb_true_iff,
    !N.leb_le, !N.eqb_eq.
  intros Hn.
  assert ((n1 = 225 ∧ n2 = 154 ∧ n3 = 128)
          ∨ (n1 = 226 ∧ n2 = 128
             ∧ (n3 = 128 ∨ n3 = 129 ∨ n3 = 130 ∨ n3 = 131 ∨ n3 = 132 ∨ n3 = 133
                ∨ n3 = 134 ∨ n3 = 135 ∨ n3 = 136 ∨ n3 = 137 ∨ n3 = 138
                ∨ n3 = 168 ∨ n3 = 169 ∨ n3 = 175))
          ∨ (n1 = 226 ∧ n2 = 129 ∧ n3 = 159)
          ∨ (n1 = 227 ∧ n2 = 128 ∧ n3 = 128))%N as Hn' by lia.
  clear Hn. rewrite white_runes_eq.
  destruct Hn' as [(-> & -> & ->)|[(-> & -> & Hn3)|[(-> & -> & ->)|(-> & -> & ->)]]];
    [by apply (bool_decide_unpack _)| |by apply (bool_decide_unpack _)..].
  repeat (destruct Hn3 as [->|Hn3]); try subst n3; by apply (bool_decide_unpack _).
Qed.

(** The tests at the head of a string are those for an encoded white-space
    rune. *)
Lemma starts_white_rune s :
  starts_white s = true → ∃ r x, r ∈ white_runes ∧ s = r +:+ x.
Proof.
  destruct s as [|c1 [|c2 [|c3 r3]]]; cbn [starts_white]; [done|..].
  - rewrite orb_false_r. intros H%space1_rune. by exists (String c1 ""), "".
  - rewrite orb_false_r.
    intros [H%space1_rune|H%space2_rune]%orb_true_iff.
    + by exists (String c1 ""), (String c2 "").
    + by exists (String c1 (String c2 "")), "".
  - intros [H%space1_rune|[H%space2_rune|H%space3_rune]%orb_true_iff]%orb_true_iff.
    + by exists (String c1 ""), (String c2 (String c3 r3)).
    + by exists (String c1 (String c2 "")), (String c3 r3).
    + by exists (String c1 (String c2 (String c3 ""))), r3.
Qed.

Lemma rune_starts_white r x : r ∈ white_runes → starts_white (r +:+ x) = true.
Proof. intros H. rune_cases H. all: by destruct x as [|? [|? ?]]. Qed.

Lemma starts_white_rev_rune s :
  starts_white_rev s = true →
  ∃ r x, r ∈ white_runes ∧ s = strings.reverse r +:+ x.
Proof.
  destruct s as [|c1 [|c2 [|c3 r3]]]; cbn [starts_white_rev]; [done|..].
  - rewrite orb_false_r. intros H%space1_rune. by exists (String c1 ""), "".
  - rewrite orb_false_r.
    intros [H%space1_rune|H%space2_rune]%orb_true_iff.
    + by exists (String c1 ""), (String c2 "").
    + by exists (String c2 (String c1 "")), "".
  - intros [H%space1_rune|[H%space2_rune|H%space3_rune]%orb_true_iff]%orb_true_iff.
    + by exists (String c1 ""), (String c2 (String c3 r3)).
    + by exists (String c2 (String c1 "")), (String c3 r3).
    + by exists (String c3 (String c2 (String c1 ""))), r3.
Qed.

Lemma rune_starts_white_rev r x :
  r ∈ white_runes → starts_white_rev (strings.reverse r +:+ x) = true.
Proof. intros H. rune_cases H. all: by destruct x as [|? [|? ?]]. Qed.


Lemma white_app (u v : string) : white u → white v → white (u +:+ v).
Proof.
  induction 1 as [|r s Hr Hs IH]; intros Hv; [done|].
  rewrite append_assoc. by constructor; [|apply IH].
Qed.

Lemma white_rune r : r ∈ white_runes → white r.
Proof.
  intros H. rewrite <- (append_nil_r r). apply white_cons; [done|constructor].
Qed.

(** Trimming on the left removes a run of white-space runes and leaves a
    string that does not start with one. *)
Lemma TrimLeftSpace_white_bounded n :
  ∀ s, (String.length s ≤ n)%nat →
    ∃ L, s = L +:+ strings.TrimLeftSpace s ∧ white L
         ∧ starts_white (strings.TrimLeftSpace s) = false.
Proof.
  induction n as [|n IH]; intros s Hn.
  { destruct s; [by exists ""; split_and!; [|constructor|]|simpl in Hn; lia]. }
  destruct s as [|c1 r1]; [by exists ""; split_and!; [|constructor|]|].
  simpl in Hn. cbn [strings.TrimLeftSpace starts_white].
  destruct (strings.space1 (strings.code c1)) eqn:H1.
  { destruct (IH r1) as (L & HL & HwL & Hs); [lia|].
    exists (String c1 "" +:+ L). split_and!; [|constructor|done].
    - sapp. by rewrite <- HL.
    - by apply space1_rune.
    - done. }
  destruct r1 as [|c2 r2].
  { exists "". split_and!; [done|constructor|]. cbn [starts_white]. by rewrite H1. }
  simpl in Hn.
  destruct (strings.space2 (strings.code c1) (strings.code c2)) eqn:H2.
  { destruct (IH r2) as (L & HL & HwL & Hs); [lia|].
    exists (String c1 (String c2 "") +:+ L). split_and!; [|constructor|done].
    - sapp. by rewrite <- HL.
    - by apply space2_rune.
    - done. }
  destruct r2 as [|c3 r3].
  { exists "". split_and!; [done|constructor|]. cbn [starts_white].
    by rewrite H1, H2. }
  simpl in Hn.
  destruct (strings.space3 _ _ _) eqn:H3.
  { destruct (IH r3) as (L & HL & HwL & Hs); [lia|].
    exists (String c1 (String c2 (String c3 "")) +:+ L).
    split_and!; [|constructor|done].
    - sapp. by rewrite <- HL.
    - by apply space3_rune.
    - done. }
  exists "". split_and!; [done|constructor|]. cbn [starts_white].
  by rewrite H1, H2, H3.
Qed.

Lemma TrimLeftSpaceRev_white_bounded n :
  ∀ s, (String.length s ≤ n)%nat →
    ∃ p, s = p +:+ strings.TrimLeftSpaceRev s ∧ white (strings.reverse p)
         ∧ starts_white_rev (strings.TrimLeftSpaceRev s) = false.
Proof.
  induction n as [|n IH]; intros s Hn.
  { destruct s; [by exists ""; split_and!; [|constructor|]|simpl in Hn; lia]. }
  destruct s as [|c1 r1]; [by exists ""; split_and!; [|constructor|]|].
  simpl in Hn. cbn [strings.TrimLeftSpaceRev starts_white_rev].
  destruct (strings.space1 (strings.code c1)) eqn:H1.
  { destruct (IH r1) as (p & Hp & Hwp & Hs); [lia|].
    exists (String c1 "" +:+ p). split_and!; [| |done].
    - sapp. by rewrite <- Hp.
    - rewrite reverse_append. apply white_app; [done|].
      by apply white_rune, space1_rune. }
  destruct r1 as [|c2 r2].
  { exists "". split_and!; [done|constructor|]. cbn [starts_white_rev].
    by rewrite H1. }
  simpl in Hn.
  destruct (strings.space2 (strings.code c2) (strings.code c1)) eqn:H2.
  { destruct (IH r2) as (p & Hp & Hwp & Hs); [lia|].
    exists (String c1 (String c2 "") +:+ p). split_and!; [| |done].
    - sapp. by rewrite <- Hp.
    - rewrite reverse_append. apply white_app; [done|].
      by apply white_rune, space2_rune. }
  destruct r2 as [|c3 r3].
  { exists "". split_and!; [done|constructor|]. cbn [starts_white_rev].
    by rewrite H1, H2. }
  simpl in Hn.
  destruct (strings.space3 _ _ _) eqn:H3.
  { destruct (IH r3) as (p & Hp & Hwp & Hs); [lia|].
    exists (String c1 (String c2 (String c3 "")) +:+ p). split_and!; [| |done].
    - sapp. by rewrite <- Hp.
    - rewrite reverse_append. apply white_app; [done|].
      by apply white_rune, space3_rune. }
  exists "". split_and!; [done|constructor|]. cbn [starts_white_rev].
  by rewrite H1, H2, H3.
Qed.

(** [strings.TrimSpace] trims: what it returns is the string between two
    runs of white-space runes, and neither starts nor ends with one. *)
Lemma TrimSpace_trimmed_of s : trimmed_of s (strings.TrimSpace s).
Proof.
  destruct (TrimLeftSpace_white_bounded _ s (le_n _)) as (L & HL & HwL & Hstart).
  destruct (TrimLeftSpaceRev_white_bounded _
              (strings.reverse (strings.TrimLeftSpace s)) (le_n _))
    as (p & Hp & Hwp & Hend).
  assert (strings.TrimLeftSpace s = strings.TrimSpace s +:+ strings.reverse p) as Hu.
  { unfold strings.TrimSpace, strings.TrimRightSpace.
    by rewrite <- reverse_append, <- Hp, reverse_involutive. }
  exists L, (strings.reverse p). split_and!; [by rewrite <- Hu| done | done |].
  intros r x Hr. split.
  - intros Ht. rewrite Ht, append_assoc in Hu.
    by rewrite Hu, rune_starts_white in Hstart.
  - intros Ht. unfold strings.TrimSpace, strings.TrimRightSpace in Ht.
    apply (f_equal strings.reverse) in Ht.
    rewrite reverse_involutive, reverse_append in Ht.
    by rewrite Ht, rune_starts_white_rev in Hend.
Qed.


(** Conversely, the trimmed form is unique. *)
Lemma TrimLeftSpace_rune r z :
  r ∈ white_runes → strings.TrimLeftSpace (r +:+ z) = strings.TrimLeftSpace z.
Proof. intros H. by rune_cases H. Qed.

Lemma TrimLeftSpace_white l z :
  white l → strings.TrimLeftSpace (l +:+ z) = strings.TrimLeftSpace z.
Proof.
  induction 1 as [|r s Hr Hs IH]; [done|].
  by rewrite append_assoc, TrimLeftSpace_rune.
Qed.

Lemma TrimLeftSpaceRev_rune r z :
  r ∈ white_runes →
  strings.TrimLeftSpaceRev (strings.reverse r +:+ z) = strings.TrimLeftSpaceRev z.
Proof. intros H. by rune_cases H. Qed.

Lemma TrimLeftSpaceRev_white r :
  white r →
  ∀ z, strings.TrimLeftSpaceRev (strings.reverse r +:+ z)
       = strings.TrimLeftSpaceRev z.
Proof.
  induction 1 as [|r s Hr Hs IH]; intros z; [done|].
  by rewrite reverse_append, append_assoc, IH, TrimLeftSpaceRev_rune.
Qed.

Lemma TrimLeftSpace_fixed s :
  starts_white s = false → strings.TrimLeftSpace s = s.
Proof.
  destruct s as [|c1 [|c2 [|c3 r3]]];
    cbn [starts_white strings.TrimLeftSpace]; [done|..].
  - by intros [-> _]%orb_false_iff.
  - by intros [-> [-> _]%orb_false_iff]%orb_false_iff.
  - by intros [-> [-> ->]%orb_false_iff]%orb_false_iff.
Qed.

Lemma TrimLeftSpaceRev_fixed s :
  starts_white_rev s = false → strings.TrimLeftSpaceRev s = s.
Proof.
  destruct s as [|c1 [|c2 [|c3 r3]]];
    cbn [starts_white_rev strings.TrimLeftSpaceRev]; [done|..].
  - by intros [-> _]%orb_false_iff.
  - by intros [-> [-> _]%orb_false_iff]%orb_false_iff.
  - by intros [-> [-> ->]%orb_false_iff]%orb_false_iff.
Qed.

Lemma white_lead r :
  white r → r = "" ∨ ∃ c y, r = String c y ∧ lead (strings.code c).
Proof.
  destruct 1 as [|r s Hr Hs]; [by left|]. right.
  rune_cases Hr; sapp; eexists _, _; (split; [reflexivity|]);
    unfold lead; vm_compute; intuition discriminate.
Qed.

Lemma space2_not_lead n1 n2 : strings.space2 n1 n2 = true → ¬ lead n2.
Proof.
  unfold strings.space2, lead.
  rewrite andb_true_iff, orb_true_iff, !N.eqb_eq. lia.
Qed.

Lemma space3_not_lead n1 n2 n3 :
  strings.space3 n1 n2 n3 = true → ¬ lead n2 ∧ ¬ lead n3.
Proof.
  unfold strings.space3, lead.
  rewrite !orb_true_iff, !andb_true_iff, !orb_true_iff, !andb_true_iff,
    !N.leb_le, !N.eqb_eq. lia.
Qed.

(** A string that does not start with a white-space rune does not come to
    start with one when white space is appended: a rune of the appended run
    starts with a byte that continues no rune. *)
Lemma starts_white_append t r :
  t ≠ "" → starts_white t = false → white r → starts_white (t +:+ r) = false.
Proof.
  intros Ht Hstart [->|(c & y & -> & Hc)]%white_lead; [by rewrite append_nil_r|].
  destruct t as [|c1 [|c2 [|c3 t']]]; [done|..]; sapp;
    cbn [starts_white] in *.
  - apply orb_false_iff in Hstart as [-> _]. cbn [orb].
    apply orb_false_iff. split.
    + destruct (strings.space2 _ _) eqn:H2; [|done].
      by apply space2_not_lead in H2.
    + destruct y as [|c3 y]; [done|].
      destruct (strings.space3 _ _ _) eqn:H3; [|done].
      by apply space3_not_lead in H3 as [? _].
  - apply orb_false_iff in Hstart as [-> [-> _]%orb_false_iff]. cbn [orb].
    destruct (strings.space3 _ _ _) eqn:H3; [|done].
    by apply space3_not_lead in H3 as [_ ?].
  - done.
Qed.

Lemma trimmed_of_TrimSpace s t : trimmed_of s t → strings.TrimSpace s = t.
Proof.
  intros (l & r & -> & Hl & Hr & Ht). unfold strings.TrimSpace.
  rewrite TrimLeftSpace_white by done.
  destruct (decide (t = "")) as [->|Hne].
  { sapp. rewrite <- (append_nil_r r), TrimLeftSpace_white by done. done. }
  assert (starts_white t = false) as Hstart.
  { destruct (starts_white t) eqn:Hs; [|done].
    apply starts_white_rune in Hs as (r' & x & Hr' & ->).
    by destruct (Ht r' x Hr') as [[] _]. }
  assert (starts_white_rev (strings.reverse t) = false) as Hend.
  { destruct (starts_white_rev _) eqn:Hs; [|done].
    apply starts_white_rev_rune in Hs as (r' & x & Hr' & Hx).
    apply (f_equal strings.reverse) in Hx.
    rewrite reverse_involutive, reverse_append, reverse_involutive in Hx.
    by destruct (Ht r' (strings.reverse x) Hr') as [_ []]. }
  rewrite TrimLeftSpace_fixed by (by apply starts_white_append).
  unfold strings.TrimRightSpace.
  rewrite reverse_append, TrimLeftSpaceRev_white by done.
  by rewrite TrimLeftSpaceRev_fixed, reverse_involutive.
Qed.

Lemma TrimSpace_spec s t : trimmed_of s t ↔ t = strings.TrimSpace s.
Proof.
  split; [by intros <-%trimmed_of_TrimSpace|intros ->; apply TrimSpace_trimmed_of].
Qed.

(** A descriptor that passes validation is white space, then the type
    main or patch, then a colon. *)
Lemma validateExpansionFileConfig_decomp s :
  validateExpansionFileConfig s = true →
  ∃ L ty r, (ty = "main" ∨ ty = "patch")
            ∧ s = L +:+ ty +:+ ":" +:+ r
            ∧ strings.TrimLeftSpace s = ty +:+ ":" +:+ r
            ∧ contains_byte ":" L = false
            ∧ ∀ z, strings.TrimLeftSpace (L +:+ z) = strings.TrimLeftSpace z.
Proof.
  unfold validateExpansionFileConfig.
  destruct (TrimLeftSpace_decomp s) as (L & HL & HcL & HzL).
  intros [H|H]%orb_true_iff; apply HasPrefix_TrimSpace, HasPrefix_decomp in H.
  - exists L, "main", (strings.drop 5 (strings.TrimLeftSpace s)).
    split_and!; auto. by rewrite HL at 1; rewrite H at 1.
  - exists L, "patch", (strings.drop 6 (strings.TrimLeftSpace s)).
    split_and!; auto. by rewrite HL at 1; rewrite H at 1.
Qed.

Lemma validateExpansionFileConfig_well_formed s :
  validateExpansionFileConfig s = true →
  (2 ≤ length (strings.Split s ":"))%nat
  ∧ (descriptor_type s = "main" ∨ descriptor_type s = "patch").
Proof.
  intros (L & ty & r & Hty & -> & _ & HcL & HzL)%validateExpansionFileConfig_decomp.
  assert (contains_byte ":" (L +:+ ty) = false) as Hc.
  { rewrite contains_byte_append, HcL. by destruct Hty as [-> | ->]. }
  assert (strings.Split (L +:+ ty +:+ ":" +:+ r) ":"
          = (L +:+ ty) :: strings.Split r ":") as Hsplit.
  { rewrite <- append_assoc. by apply Split_append_sep. }
  unfold descriptor_type. rewrite Hsplit. simpl. split.
  - pose proof (Split_nonempty r ":"). destruct (strings.Split r ":"); [done|].
    simpl. lia.
  - unfold strings.TrimSpace. rewrite HzL. by destruct Hty as [-> | ->]; [left|right].
Qed.

Lemma malformed_invalid d : malformed d → validateExpansionFileConfig d = false.
Proof.
  intros Hbad. destruct (validateExpansionFileConfig d) eqn:Hv; [|done].
  destruct (validateExpansionFileConfig_well_formed d Hv) as [Hlen Hty].
  destruct Hbad as [?|(ty & Heq%trimmed_of_TrimSpace & ? & ?)]; [lia|].
  fold (descriptor_type d) in Heq. subst ty. by destruct Hty.
Qed.

(** Validation gives the same answer on an entry and on its trimmed form. *)
Lemma validateExpansionFileConfig_TrimSpace e :
  validateExpansionFileConfig (strings.TrimSpace e) = true →
  validateExpansionFileConfig e = true.
Proof.
  intros (L & ty & r & Hty & Hz & _ & _ & HzL)%validateExpansionFileConfig_decomp.
  destruct (TrimRightSpace_prefix (strings.TrimLeftSpace e)) as (q & Hq).
  fold (strings.TrimSpace e) in Hq. rewrite Hz in Hq.
  assert (strings.TrimLeftSpace e = ty +:+ ":" +:+ r +:+ q) as Hy.
  { rewrite <- TrimLeftSpace_idemp. rewrite Hq at 1.
    rewrite !append_assoc, HzL. by destruct Hty as [-> | ->]. }
  assert (L = "") as ->.
  { rewrite Hy, !append_assoc in Hq. apply (f_equal String.length) in Hq.
    rewrite (length_append L) in Hq. destruct L; [done|]. simpl in Hq. lia. }
  unfold validateExpansionFileConfig. rewrite Hz.
  destruct Hty as [-> | ->]; apply orb_true_iff; [left|right].
  - exact (HasPrefix_append_l "main:" r).
  - exact (HasPrefix_append_l "patch:" r).
Qed.

End string_facts.

(** C7.  A descriptor with a colon parses to the text before its first
    colon as type and the text after it, colons removed, as path, both
    trimmed of surrounding white space: each is what stands between two runs
    of white-space runes and neither starts nor ends with such a rune.  So
    [main: /tmp/app.obb] gives type main and path /tmp/app.obb; a descriptor
    without a colon does not parse.  A malformed descriptor (fewer than two
    colon-delimited segments, or a type other than main and patch) fails
    validation, and the upload of an entry that is malformed, as given or
    trimmed, returns the validation error without opening a file or calling
    the backend: the trace is unchanged. *)
Theorem expansion_file_descriptor :
  (∀ ty rest, contains_byte ":" ty = false →
      ∃ path type,
        expFileInfo (ty +:+ ":" +:+ rest) = Ok (path, type)
        ∧ trimmed_of ty type
        ∧ trimmed_of (without ":" rest) path)
  ∧ (∀ d, contains_byte ":" d = false →
      expFileInfo d = Err (errorString ("malformed expansion file path: " +:+ d)))
  ∧ expFileInfo "main: /tmp/app.obb" = Ok ("/tmp/app.obb", "main")
  ∧ (∀ d, malformed d → validateExpansionFileConfig d = false)
  ∧ (∀ w expFileEntry packageName appEditID versionCode tr,
      malformed expFileEntry
      ∨ (∃ entry, trimmed_of expFileEntry entry ∧ malformed entry) →
      uploadExpansionFiles w expFileEntry packageName appEditID versionCode tr
      = (tr, Some (errorString
                     ("invalid expansion file config: " +:+ expFileEntry)))).
Proof.
  split_and!.
  - intros ty rest Hty. unfold expFileInfo.
    change (ty +:+ ":" +:+ rest) with (ty +:+ String ":" rest).
    rewrite Split_append_sep by done. rewrite <- Join_Split_without.
    pose proof (Split_nonempty rest ":").
    exists (strings.TrimSpace (strings.Join (strings.Split rest ":") "")),
      (strings.TrimSpace ty).
    split_and!; [|apply TrimSpace_trimmed_of..].
    by destruct (strings.Split rest ":") as [|seg segs].
  - intros d Hd. unfold expFileInfo. by rewrite Split_without_sep.
  - by vm_compute.
  - apply malformed_invalid.
  - intros w e pkg edit vc tr Hbad. unfold uploadExpansionFiles.
    assert (validateExpansionFileConfig (strings.TrimSpace e) = false) as ->; [|done].
    destruct Hbad as [Hbad|(entry & ->%trimmed_of_TrimSpace & Hbad)];
      [|by apply malformed_invalid].
    apply malformed_invalid in Hbad.
    destruct (validateExpansionFileConfig (strings.TrimSpace e)) eqn:Hv; [|done].
    apply validateExpansionFileConfig_TrimSpace in Hv. congruence.
Qed.

Lemma expansion_file_descriptor_witness :
  uploadExpansionFiles demo_world "weird/path" "pkg" "edit" 7 []
  = ([], Some (errorString "invalid expansion file config: weird/path"))
  ∧ uploadExpansionFiles demo_world " badtype:/x" "pkg" "edit" 7 []
    = ([], Some (errorString "invalid expansion file config:  badtype:/x"))
  ∧ (∃ path type,
       expFileInfo "patch  : /tmp/a:b.obb  " = Ok (path, type)
       ∧ trimmed_of "patch  " type
       ∧ trimmed_of " /tmp/ab.obb  " path).
Proof.
  destruct expansion_file_descriptor as (Hparse & _ & _ & Hvalid & Hupload).
  split_and!.
  - apply (Hupload demo_world "weird/path"). left. left. vm_compute. lia.
  - apply (Hupload demo_world " badtype:/x"). right. exists "badtype:/x". split.
    + by apply TrimSpace_spec.
    + right. exists "badtype". split; [by apply TrimSpace_spec|done].
  - by apply (Hparse "patch  " " /tmp/a:b.obb  ").
Defined.

(** Trimming removes white space of one, two and three bytes at both ends,
    and nothing inside. *)
Example TrimSpace_unicode :
  strings.TrimSpace (utf8 8195 +:+ " patch x" +:+ utf8 160 +:+ utf8 9 +:+ utf8 12288)
  = "patch x".
Proof. reflexivity. Qed.

Example uploadExpansionFiles_main :
  uploadExpansionFiles demo_world " main: /tmp/app.obb " "pkg" "edit" 7 []
  = ([EvOpen "/tmp/app.obb" (Ok "/tmp/app.obb");
      EvExpansionfilesUpload "pkg" "edit" 7 "main" "/tmp/app.obb" None], None).
Proof. by vm_compute. Qed.

(** ** The release notes *)

Section release_notes_facts.

Implicit Types (s pre name : string).

Lemma HasPrefix_append_cases s t a :
  strings.HasPrefix (s +:+ t) a = true →
  strings.HasPrefix s a = true ∨ strings.HasPrefix a s = true.
Proof.
  revert s. induction a as [|c a IH]; intros s.
  { left. apply HasPrefix_nil. }
  destruct s as [|c' s]; [by right|].
  rewrite append_cons. unfold strings.HasPrefix in *. simpl.
  destruct (ascii_dec c c') as [->|]; [|done].
  intros [H|H]%IH; [by left|right]. by destruct (ascii_dec c' c').
Qed.

Lemma HasPrefix_contains_byte s a b :
  strings.HasPrefix s a = true → contains_byte b a = true →
  contains_byte b s = true.
Proof.
  intros Hp%HasPrefix_decomp Hb. rewrite Hp, contains_byte_append, Hb. done.
Qed.

(** No match of the pattern starts inside a prefix that is empty or ends
    with the path separator and does not hold [whatsnew-]. *)
Lemma FindStringSubmatch_skip pre s :
  contains_string "whatsnew-" pre = false →
  (pre = "" ∨ ∃ p, pre = p +:+ "/") →
  FindStringSubmatch (pre +:+ s) = FindStringSubmatch s.
Proof.
  induction pre as [|c pre IH]; [done|].
  intros Hc Hend. cbn [contains_string] in Hc.
  apply orb_false_elim in Hc as [Hhere Hrest].
  destruct Hend as [?|[p Hp]]; [done|].
  assert (contains_byte "/" (String c pre) = true) as Hslash.
  { rewrite Hp, contains_byte_append. simpl. by rewrite orb_true_r. }
  rewrite append_cons. cbn [FindStringSubmatch]. rewrite <- append_cons.
  destruct (strings.HasPrefix (String c pre +:+ s) "whatsnew-") eqn:Hpre.
  { apply HasPrefix_append_cases in Hpre as [Hpre|Hpre]; [congruence|].
    by pose proof (HasPrefix_contains_byte _ _ _ Hpre Hslash). }
  simpl. apply IH; [done|].
  destruct p as [|c' p]; [left|right].
  - by injection Hp.
  - rewrite append_cons in Hp. injection Hp as _ ->. by exists p.
Qed.

Lemma line_without_line_feed s : contains_byte "010" s = false → line s = s.
Proof.
  induction s as [|c s IH]; simpl; [done|].
  intros [-> Hs]%orb_false_elim. by rewrite IH.
Qed.

Lemma matches_whatsnew_decomp name :
  matches_whatsnew name = true →
  name = "whatsnew-" +:+ strings.drop 9 name
  ∧ contains_byte "-" (strings.drop 9 name) = true.
Proof.
  unfold matches_whatsnew. intros [Hp Hc]%andb_true_iff.
  split; [|done]. by apply HasPrefix_decomp in Hp.
Qed.

(** On the path of a matching file the pattern finds the file name, and
    the group is the locale. *)
Lemma FindStringSubmatch_path pre name :
  contains_string "whatsnew-" pre = false →
  (pre = "" ∨ ∃ p, pre = p +:+ "/") →
  matches_whatsnew name = true → contains_byte "010" name = false →
  FindStringSubmatch (pre +:+ name) = [name; strings.drop 9 name].
Proof.
  intros Hpre Hend Hm Hnl. rewrite FindStringSubmatch_skip by done.
  destruct (matches_whatsnew_decomp name Hm) as [Hname Hloc].
  assert (contains_byte "010" (strings.drop 9 name) = false) as Hnl'.
  { rewrite Hname, contains_byte_append in Hnl.
    by apply orb_false_elim in Hnl as [_ ?]. }
  destruct name as [|c name]; [done|].
  cbn [FindStringSubmatch]. rewrite line_without_line_feed by done.
  apply andb_true_iff in Hm as [-> _]. rewrite Hloc. cbn [andb].
  by rewrite <- Hname.
Qed.

End release_notes_facts.

Section release_notes.

Context (w : World) (pre : string) (files : list (string * result string)).

(** The paths handed out by the glob are the prefix [pre] followed by a
    file name; [pre] is empty or ends with the separator and does not hold
    [whatsnew-]. *)
Hypothesis pre_plain : contains_string "whatsnew-" pre = false.
Hypothesis pre_end : pre = "" ∨ ∃ p, pre = p +:+ "/".

(** Reading a file of the directory gives what the directory holds. *)
Hypothesis read_files : ∀ tr name r,
  (name, r) ∈ files → fileutil_ReadStringFromFile w tr (pre +:+ name) = r.

Lemma readLocalisedRecentChanges_loop_cons path rest m tr name locale :
  FindStringSubmatch path = [name; locale] →
  readLocalisedRecentChanges_loop w (path :: rest) m tr
  = let content := fileutil_ReadStringFromFile w tr path in
    let tr1 := tr ++ [EvReadStringFromFile path content] in
    match content with
    | Err err => (tr1, Err err)
    | Ok content =>
        readLocalisedRecentChanges_loop w rest (<[locale := content]> m) tr1
    end.
Proof.
  intros Hfind. cbn [readLocalisedRecentChanges_loop]. rewrite Hfind.
  unfold mbind, M_bind, perform. cbn zeta.
  by destruct (fileutil_ReadStringFromFile w tr path).
Qed.

Lemma readLocalisedRecentChanges_loop_spec (fs : list (string * result string)) :
  Forall (λ f, f ∈ files ∧ matches_whatsnew f.1 = true
               ∧ contains_byte "010" f.1 = false) fs →
  NoDup fs.*1 →
  ∀ m0 tr,
    match (readLocalisedRecentChanges_loop w ((λ f, pre +:+ f.1) <$> fs) m0 tr).2
    with
    | Ok m =>
        (∀ name e, (name, Err e) ∉ fs)
        ∧ ∀ locale content,
            m !! locale = Some content
            ↔ ("whatsnew-" +:+ locale, Ok content) ∈ fs
              ∨ (m0 !! locale = Some content
                 ∧ "whatsnew-" +:+ locale ∉ fs.*1)
    | Err e => ∃ name, (name, Err e) ∈ fs
    end.
Proof.
  induction fs as [|[name r] fs IH]; intros Hall Hnd m0 tr.
  { simpl. split; [intros ?? []%elem_of_nil|].
    intros locale content. rewrite !elem_of_nil. tauto. }
  apply Forall_cons in Hall as [(Hin & Hm & Hnl) Hall].
  rewrite fmap_cons in Hnd. apply NoDup_cons in Hnd as [Hfresh Hnd].
  cbn [fst] in Hm, Hnl, Hfresh.
  assert (∀ r', (name, r') ∈ fs → False) as Hfresh'.
  { intros r' Hin'. apply Hfresh, list_elem_of_fmap. by exists (name, r'). }
  rewrite fmap_cons. cbn [fst].
  erewrite readLocalisedRecentChanges_loop_cons
    by (by apply FindStringSubmatch_path).
  cbn zeta. rewrite (read_files tr name r Hin).
  destruct r as [content0|e].
  2:{ simpl. exists name. apply elem_of_cons. by left. }
  specialize (IH Hall Hnd (<[strings.drop 9 name := content0]> m0)
                (tr ++ [EvReadStringFromFile (pre +:+ name) (Ok content0)])).
  destruct (readLocalisedRecentChanges_loop w _ _ _).2 as [m|e].
  2:{ destruct IH as [name' Hin']. exists name'. apply elem_of_cons. by right. }
  destruct IH as [Hok IH]. split.
  { intros name' e [Heq|Hin']%elem_of_cons; [done|]. by apply (Hok name' e). }
  destruct (matches_whatsnew_decomp name Hm) as [Hname _].
  intros locale content. rewrite IH, (fmap_cons fst). cbn [fst].
  rewrite !elem_of_cons.
  destruct (decide (locale = strings.drop 9 name)) as [->|Hne].
  - rewrite <- Hname, lookup_insert_eq. split.
    + intros [Hin'|[[= ->] _]]; [|by left; left].
      by destruct (Hfresh' _ Hin').
    + intros [[[= ->]|Hin']|[_ Hnot]].
      * right. done.
      * by destruct (Hfresh' _ Hin').
      * exfalso. apply Hnot. by left.
  - rewrite lookup_insert_ne by done.
    assert ("whatsnew-" +:+ locale ≠ name) as Hne'.
    { intros Heq. apply Hne. rewrite <- Heq. done. }
    split.
    + intros [Hin'|[Hm0 Hnot]]; [by left; right|].
      right. split; [done|]. by intros [?|?].
    + intros [[[= ? _]|Hin']|[Hm0 Hnot]]; [done|by left|].
      right. split; [done|]. intros ?. apply Hnot. by right.
Qed.

End release_notes.

Lemma NoDup_fst_filter {A B} (P : A * B → Prop) `{!∀ x, Decision (P x)}
    (l : list (A * B)) :
  NoDup l.*1 → NoDup (filter P l).*1.
Proof.
  induction l as [|x l IH]; [done|].
  rewrite fmap_cons, NoDup_cons, filter_cons. intros [Hx Hnd].
  destruct (decide (P x)); [|by apply IH].
  rewrite fmap_cons. apply NoDup_cons. split; [|by apply IH].
  intros (y & Hy & [_ Hin]%list_elem_of_filter)%list_elem_of_fmap.
  apply Hx, list_elem_of_fmap. by exists y.
Qed.



Example readLocalisedRecentChanges_notes :
  (readLocalisedRecentChanges (notes_world "notes" notes_files) "notes" []).2
  = Ok (<["fr-FR" := "Corrections de bugs"]> (<["en-US" := "Fixed bugs"]> ∅)).
Proof. reflexivity. Qed.

(** Nothing found by the glob, as for an empty or an absent directory: the
    mapping is empty and there is no error. *)
Lemma readLocalisedRecentChanges_nothing_found (w : World) (recentChangesDir : string)
    (tr : list Event) :
  filepath_Glob w tr (filepath_Join w recentChangesDir "whatsnew-*-*") = Ok [] →
  (readLocalisedRecentChanges w recentChangesDir tr).2 = Ok ∅.
Proof.
  intros Hglob. unfold readLocalisedRecentChanges, mbind, M_bind, perform.
  cbn zeta. by rewrite Hglob.
Qed.


(** The locale is searched for in the whole path, not in the file name: in
    a directory that is itself named [whatsnew-x] the key is not the locale
    of the file. *)
Example readLocalisedRecentChanges_directory_named_whatsnew :
  (readLocalisedRecentChanges
     (notes_world "whatsnew-x" [("whatsnew-en-US", Ok "Fixed bugs")])
     "whatsnew-x" []).2
  = Ok (<["x/whatsnew-en-US" := "Fixed bugs"]> ∅).
Proof. reflexivity. Qed.

(** * Further properties of publish.go *)

(** ** Looking up a track *)

(** X1.  [getTrack] returns the first track of the list that bears the
    name; it fails, with the name in its message, exactly when no track of
    the list bears the name. *)
Theorem getTrack_first_match (trackName : string) (allTracks : list Track) :
  match getTrack trackName allTracks with
  | Ok track =>
      ∃ before after,
        allTracks = before ++ track :: after
        ∧ Track_Track track = trackName
        ∧ Forall (λ t, Track_Track t ≠ trackName) before
  | Err e =>
      e = errorString ("could not find track with name " +:+ trackName)
      ∧ Forall (λ t, Track_Track t ≠ trackName) allTracks
  end.
Proof.
  induction allTracks as [|t rest IH]; simpl; [done|].
  destruct (String.eqb_spec trackName (Track_Track t)) as [Heq|Hne].
  - by exists [], rest.
  - destruct (getTrack trackName rest) as [track|e].
    + destruct IH as (before & after & -> & Hname & Hbefore).
      exists (t :: before), after. split_and!; [done|done|].
      constructor; [congruence|done].
    + destruct IH as [-> Hall]. split; [done|]. constructor; [congruence|done].
Qed.

(** ** The names selected for cleanup, as a list *)

Section candidates_order.

Implicit Types (poss acc : list string) (tracks : list Track).

Lemma trackNamesToUpdate_inner_eq poss track acc :
  trackNamesToUpdate_inner poss track acc
  = acc ++ filter (λ c, c = Track_Track track) poss.
Proof.
  revert acc. induction poss as [|c poss IH]; intros acc; simpl.
  - by rewrite app_nil_r.
  - rewrite IH, filter_cons.
    destruct (String.eqb_spec c (Track_Track track)).
    + rewrite decide_True by done. by rewrite <- (assoc_L (++)).
    + by rewrite decide_False.
Qed.

Lemma filter_eq_NoDup poss (n : string) :
  NoDup poss →
  filter (λ c, c = n) poss = if decide (n ∈ poss) then [n] else [].
Proof.
  induction 1 as [|c poss Hc Hnd IH]; [done|].
  rewrite filter_cons, IH. destruct (decide (c = n)) as [->|Hne].
  - rewrite (decide_False (P := n ∈ poss)) by done.
    rewrite decide_True; [done|by left].
  - destruct (decide (n ∈ poss)) as [Hin|Hout].
    + rewrite decide_True by (by right). done.
    + rewrite decide_False; [done|]. by intros [?|?]%elem_of_cons.
Qed.

Lemma trackNamesToUpdate_outer_eq poss tracks acc :
  NoDup poss →
  trackNamesToUpdate_outer poss tracks acc
  = acc ++ filter (λ n, n ∈ poss) (Track_Track <$> tracks).
Proof.
  intros Hnd. revert acc.
  induction tracks as [|t tracks IH]; intros acc; simpl.
  - by rewrite app_nil_r.
  - rewrite IH, trackNamesToUpdate_inner_eq, filter_eq_NoDup by done.
    rewrite filter_cons.
    destruct (decide (Track_Track t ∈ poss)); [|by rewrite app_nil_r].
    by rewrite <- (assoc_L (++)).
Qed.

Lemma possibleTrackNamesToUpdate_NoDup target :
  NoDup (possibleTrackNamesToUpdate target).
Proof.
  unfold possibleTrackNamesToUpdate. repeat case_match; try constructor.
  - apply not_elem_of_nil.
  - constructor.
  - by intros [?|[]%elem_of_nil]%elem_of_cons.
  - repeat constructor. apply not_elem_of_nil.
Qed.

End candidates_order.

(** X2.  As a list, the names returned for a target are the names of the
    existing tracks, in the order of the track list and as often as they
    occur there, restricted to the candidates of the target. *)
Theorem trackNamesToUpdate_in_track_order (track : string) (tracks : list Track) :
  trackNamesToUpdate track tracks
  = filter (λ n, n ∈ candidateTracksForCleanup track) (Track_Track <$> tracks).
Proof.
  unfold trackNamesToUpdate.
  rewrite trackNamesToUpdate_outer_eq by apply possibleTrackNamesToUpdate_NoDup.
  simpl. apply list_filter_iff. intros n.
  by rewrite <- possibleTrackNamesToUpdate_spec, elem_of_list_to_set.
Qed.

(** X3.  Whatever the target and the existing tracks, only alpha and beta
    are ever selected for cleanup, and the target itself never is. *)
Theorem trackNamesToUpdate_never_target (track : string) (tracks : list Track)
    (n : string) :
  n ∈ trackNamesToUpdate track tracks →
  (n = "alpha" ∨ n = "beta") ∧ n ≠ track.
Proof.
  unfold trackNamesToUpdate. rewrite trackNamesToUpdate_outer_elem, elem_of_nil.
  intros [[]|[Hin _]]. revert Hin. unfold possibleTrackNamesToUpdate,
    alphaTrackName, betaTrackName, rolloutTrackName, productionTrackName.
  destruct (String.eqb_spec track "beta") as [->|].
  { intros Hn%list_elem_of_singleton. subst n. split; [by left|done]. }
  destruct (String.eqb_spec track "rollout") as [->|]; simpl.
  { intros [Hn|Hn%list_elem_of_singleton]%elem_of_cons; subst n; split; auto; done. }
  destruct (String.eqb_spec track "production") as [->|]; simpl.
  { intros [Hn|Hn%list_elem_of_singleton]%elem_of_cons; subst n; split; auto; done. }
  by intros ?%elem_of_nil.
Qed.

Lemma trackNamesToUpdate_never_target_witness :
  ("alpha" = "alpha" ∨ "alpha" = "beta") ∧ "alpha" ≠ "production".
Proof.
  apply (trackNamesToUpdate_never_target "production" demo_tracks "alpha").
  apply list_elem_of_lookup. exists 0%nat. reflexivity.
Defined.

(** ** More on the shadowing comparison *)

Section shadowing_more.

Implicit Types (cur new A B : list Z).

Lemma some_below_nil_r cur : some_below cur [] = false.
Proof. by destruct cur. Qed.

Lemma hasShadowingVersions_loop_general cur new n i :
  (i ≤ length cur)%nat → (i + n)%nat = length new →
  hasShadowingVersions_loop cur new i n
  = if some_below (drop i cur) (drop i new) then Returned true
    else if (length cur <? length new)%nat then Panicked "index out of range"
    else Returned false.
Proof.
  revert i. induction n as [|n IH]; intros i Hi Hn; simpl.
  - rewrite (drop_ge new) by lia. rewrite some_below_nil_r.
    by destruct (Nat.ltb_spec (length cur) (length new)); [lia|].
  - destruct (lookup_lt_is_Some_2 new i) as [v Hv]; [lia|].
    rewrite Hv, (drop_S new v i Hv).
    destruct (cur !! i) as [c|] eqn:Hc.
    + rewrite (drop_S cur c i Hc). simpl.
      destruct (c <? v); [done|]. simpl. apply IH; [|lia].
      apply lookup_lt_Some in Hc. lia.
    + apply lookup_ge_None in Hc. rewrite (drop_ge cur) by lia. simpl.
      by destruct (Nat.ltb_spec (length cur) (length new)); [|lia].
Qed.

Lemma some_below_false_Forall2 A B :
  Forall2 (λ a b, b ≤ a) A B → some_below A B = false.
Proof.
  induction 1 as [|a b A B Hab _ IH]; simpl; [done|].
  rewrite IH, orb_false_r. by apply Z.ltb_ge.
Qed.

Lemma some_below_false_inv A B :
  length A = length B → some_below A B = false → Forall2 (λ a b, b ≤ a) A B.
Proof.
  revert B. induction A as [|a A IH]; intros [|b B] Hlen; simpl in *; try done.
  intros [Hab HAB]%orb_false_elim. constructor; [by apply Z.ltb_ge|].
  apply IH; [lia|done].
Qed.

Lemma insert_sorted_Permutation x A : insert_sorted x A ≡ₚ x :: A.
Proof.
  induction A as [|a A IH]; simpl; [done|].
  destruct (x <=? a); [done|]. by rewrite IH, perm_swap.
Qed.

Lemma insert_sorted_StronglySorted x A :
  StronglySorted Z.le A → StronglySorted Z.le (insert_sorted x A).
Proof.
  induction 1 as [|a A HA IH Hall]; simpl; [by repeat constructor|].
  destruct (Z.leb_spec x a) as [Hxa|Hax].
  - constructor; [by constructor|]. constructor; [done|].
    eapply Forall_impl; [exact Hall|]. intros y ?. simpl in *. lia.
  - constructor; [done|]. rewrite insert_sorted_Permutation.
    constructor; [lia|done].
Qed.

Lemma isort_StronglySorted A : StronglySorted Z.le (isort A).
Proof.
  induction A as [|a A IH]; simpl; [constructor|].
  by apply insert_sorted_StronglySorted.
Qed.

Lemma isort_Permutation A : isort A ≡ₚ A.
Proof.
  induction A as [|a A IH]; simpl; [done|].
  by rewrite insert_sorted_Permutation, IH.
Qed.

Lemma sort_Slice_isort A : sort_Slice A = isort A.
Proof.
  symmetry. apply sort_Slice_unique; [|apply isort_Permutation].
  apply StronglySorted_Sorted, isort_StronglySorted.
Qed.

Lemma insert_sorted_head x A :
  Forall (Z.le x) A → insert_sorted x A = x :: A.
Proof.
  destruct 1 as [|a A Hxa _]; simpl; [done|].
  by destruct (Z.leb_spec x a); [|lia].
Qed.

(** Inserting above a floor: the list shifts up by at most one place. *)
Lemma insert_sorted_above c x A B :
  StronglySorted Z.le A → Forall2 (λ a b, b ≤ a) A B →
  x ≤ c → Forall (Z.le x) A →
  Forall2 (λ a b, b ≤ a) (insert_sorted c A) (x :: B).
Proof.
  intros HA HAB. revert x. induction HAB as [|a b A B Hab HAB IH];
    intros x Hxc Hx; simpl.
  { by repeat constructor. }
  apply StronglySorted_inv in HA as [HA Hall].
  apply Forall_cons in Hx as [Hxa Hx].
  destruct (Z.leb_spec c a) as [Hca|Hac].
  - constructor; [done|]. by constructor.
  - constructor; [done|]. apply IH; [done|lia|].
    eapply Forall_impl; [exact Hall|]. intros y ?. simpl in *. lia.
Qed.

(** Inserting a larger code on the left and a smaller one on the right
    keeps the left list above the right one, place by place. *)
Lemma insert_sorted_dominates c v A B :
  StronglySorted Z.le A → Forall2 (λ a b, b ≤ a) A B → v ≤ c →
  Forall2 (λ a b, b ≤ a) (insert_sorted c A) (insert_sorted v B).
Proof.
  intros HA HAB. revert c v. induction HAB as [|a b A B Hab HAB IH];
    intros c v Hvc; simpl.
  { by repeat constructor. }
  pose proof HA as HA'. apply StronglySorted_inv in HA' as [HA' Hall].
  destruct (Z.leb_spec c a) as [Hca|Hac], (Z.leb_spec v b) as [Hvb|Hbv].
  - constructor; [done|]. by constructor.
  - constructor; [lia|].
    rewrite <- (insert_sorted_head a A) by done. apply IH; [done|lia].
  - constructor; [lia|]. apply insert_sorted_above; [done|done|lia|].
    eapply Forall_impl; [exact Hall|]. intros y ?. simpl in *. lia.
  - constructor; [done|]. by apply IH.
Qed.

Lemma covers_isort (pairs : list (Z * Z)) :
  Forall (λ p, p.2 ≤ p.1) pairs →
  Forall2 (λ a b, b ≤ a) (isort pairs.*1) (isort pairs.*2).
Proof.
  induction 1 as [|[c v] pairs Hp _ IH]; simpl; [constructor|].
  apply insert_sorted_dominates; [apply isort_StronglySorted|done|done].
Qed.

(** The comparison is exact: it finds nothing exactly when the new codes
    can be covered by the current ones. *)
Lemma blocks_false_iff cur new :
  blocks cur new = false ↔ ∃ pairs, covers cur new pairs.
Proof.
  unfold blocks, covers. rewrite orb_false_iff, negb_false_iff, Nat.eqb_eq. split.
  - intros [Hlen Hsome].
    apply some_below_false_inv in Hsome; [|by rewrite !sort_Slice_length].
    exists (zip (sort_Slice cur) (sort_Slice new)).
    rewrite fst_zip, snd_zip by (rewrite !sort_Slice_length; lia).
    split_and!; [by rewrite sort_Slice_Permutation
                |by rewrite sort_Slice_Permutation|].
    apply Forall_forall. intros [c v] Hin.
    apply elem_of_lookup_zip_with in Hin as (i & c' & v' & [= -> ->] & Hc & Hv).
    rewrite Forall2_lookup in Hsome. specialize (Hsome i).
    rewrite Hc, Hv in Hsome. by inversion Hsome.
  - intros (pairs & Hc & Hn & Hall). split.
    + by rewrite Hc, Hn, !length_fmap.
    + apply some_below_false_Forall2. rewrite !sort_Slice_isort.
      assert (isort cur = isort pairs.*1) as ->.
      { rewrite <- !sort_Slice_isort. apply sort_Slice_unique;
          [apply sort_Slice_Sorted|]. by rewrite sort_Slice_Permutation. }
      assert (isort new = isort pairs.*2) as ->.
      { rewrite <- !sort_Slice_isort. apply sort_Slice_unique;
          [apply sort_Slice_Sorted|]. by rewrite sort_Slice_Permutation. }
      by apply covers_isort.
Qed.

End shadowing_more.

(** X4.  The shadowing comparison taken alone, without the length guard of
    its caller: it answers true when, after sorting, some position that both
    lists have holds a current code below the new one; failing that, it
    panics with an index out of range when the current list is the shorter
    one, and answers false otherwise.  So with a shorter current list it
    never answers false, and with a current list at least as long it never
    panics. *)
Theorem hasShadowingVersions_answer (currentVersionCodes newVersionCodes : list Z) :
  (hasShadowingVersions currentVersionCodes newVersionCodes).2
  = if some_below (sort_Slice currentVersionCodes) (sort_Slice newVersionCodes)
    then Returned true
    else if (length currentVersionCodes <? length newVersionCodes)%nat
         then Panicked "index out of range"
         else Returned false.
Proof.
  unfold hasShadowingVersions. cbn [snd].
  rewrite hasShadowingVersions_loop_general by (simpl; lia).
  by rewrite !drop_0, !sort_Slice_length.
Qed.

Example hasShadowingVersions_panics :
  (hasShadowingVersions [9] [3; 5]).2 = Panicked "index out of range".
Proof. by vm_compute. Qed.

(** X5.  The blocking check looks at the codes as multisets: listing the
    current codes or the new codes in another order does not change its
    answer. *)
Theorem hasBlockingVersionInRelease_order_irrelevant
    (release release' : TrackRelease) (newVersionCodes newVersionCodes' : list Z) :
  VersionCodes release ≡ₚ VersionCodes release' →
  newVersionCodes ≡ₚ newVersionCodes' →
  (hasBlockingVersionInRelease release newVersionCodes).2
  = (hasBlockingVersionInRelease release' newVersionCodes').2.
Proof.
  intros Hc Hn. rewrite !hasBlockingVersionInRelease_answer. f_equal.
  rewrite (blocks_Permutation _ _ _ Hn). unfold blocks.
  rewrite (Permutation_length Hc). f_equal. f_equal.
  apply sort_Slice_unique; [apply sort_Slice_Sorted|].
  by rewrite sort_Slice_Permutation.
Qed.

Lemma hasBlockingVersionInRelease_order_irrelevant_witness :
  (hasBlockingVersionInRelease (release_of "r" [10; 5]) [6; 3]).2
  = (hasBlockingVersionInRelease (release_of "s" [5; 10]) [3; 6]).2.
Proof.
  apply hasBlockingVersionInRelease_order_irrelevant; apply perm_swap.
Defined.

(** X6.  The blocking check is exact.  A release is found not blocking
    if and only if every new code can be paired with a current code of its
    own that is at least as large, the pairs using up both lists. *)
Theorem hasBlockingVersionInRelease_exact
    (release : TrackRelease) (newVersionCodes : list Z) :
  (hasBlockingVersionInRelease release newVersionCodes).2 = Returned false
  ↔ ∃ pairs, covers (VersionCodes release) newVersionCodes pairs.
Proof.
  rewrite hasBlockingVersionInRelease_answer, <- blocks_false_iff.
  split; [by intros [= ->]|by intros ->].
Qed.

(** X7.  Publishing the codes a release already holds, in any order, never
    finds it blocking; a new code above every current code always does. *)
Theorem hasBlockingVersionInRelease_same_and_higher
    (release : TrackRelease) (newVersionCodes : list Z) :
  (newVersionCodes ≡ₚ VersionCodes release →
   (hasBlockingVersionInRelease release newVersionCodes).2 = Returned false)
  ∧ (∀ v, v ∈ newVersionCodes → Forall (λ c, c < v) (VersionCodes release) →
     (hasBlockingVersionInRelease release newVersionCodes).2 = Returned true).
Proof.
  rewrite hasBlockingVersionInRelease_answer. split.
  - intros Hp. f_equal. apply blocks_false_iff.
    exists ((λ c, (c, c)) <$> VersionCodes release). unfold covers.
    rewrite <- !list_fmap_compose. simpl. rewrite !list_fmap_id.
    split_and!; [done|done|].
    apply Forall_fmap, Forall_forall. intros c _. simpl. lia.
  - intros v Hv Hall. f_equal.
    destruct (blocks (VersionCodes release) newVersionCodes) eqn:Hb; [done|].
    apply blocks_false_iff in Hb as (pairs & Hc & Hn & Hle).
    rewrite Hn in Hv. apply list_elem_of_fmap in Hv as ([c v'] & -> & Hin).
    rewrite Forall_forall in Hle. specialize (Hle _ Hin). simpl in Hle.
    rewrite Hc, Forall_forall in Hall.
    assert (c < v') as Hlt.
    { apply Hall, list_elem_of_fmap. by exists (c, v'). }
    lia.
Qed.

Lemma hasBlockingVersionInRelease_same_and_higher_witness :
  (hasBlockingVersionInRelease (release_of "r" [4; 5]) [5; 4]).2 = Returned false
  ∧ (hasBlockingVersionInRelease (release_of "r" [4; 5]) [1; 6]).2 = Returned true.
Proof.
  split.
  - apply (proj1 (hasBlockingVersionInRelease_same_and_higher
                    (release_of "r" [4; 5]) [5; 4])).
    apply perm_swap.
  - apply (proj2 (hasBlockingVersionInRelease_same_and_higher
                    (release_of "r" [4; 5]) [1; 6]) 6).
    + apply list_elem_of_lookup. exists 1%nat. reflexivity.
    + repeat constructor.
Defined.

(** ** More on the cleanup *)

(** The run of the loop over the track names: its calls follow the
    protocol, and each report tells of the releases of its track and of the
    flag it started from. *)
Lemma untrackFromTracks_loop_run (w : World) (vc0 : list Z) (pkg edit : string)
    (names : list string) :
  ∀ vc any tr, vc ≡ₚ vc0 →
    ∃ ext r,
      untrackFromTracks_loop w names vc pkg edit any tr = (tr ++ ext, Returned r)
      ∧ cleanup_protocol pkg edit names ext r
      ∧ (∀ track, ext !! 0%nat = Some (EvTracksGet pkg edit
                                        (default "" (head names)) (Ok track)) →
           ext !! 1%nat
           = Some (EvLogDonef (report (any || any_blocking (Releases track) vc0))))
      ∧ ∀ i p e name track,
          ext !! i = Some (EvTracksGet p e name (Ok track)) →
          ∃ b, ext !! S i = Some (EvLogDonef (report b))
               ∧ (b = false → any_blocking (Releases track) vc0 = false).
Proof.
  induction names as [|name rest IH]; intros vc any tr Hp.
  - exists [], None. simpl. rewrite app_nil_r. split_and!; [done|constructor|done|].
    intros i ????. by rewrite lookup_nil.
  - rewrite untrackFromTracks_loop_cons. cbn zeta.
    destruct (Tracks_Get_Do w tr pkg edit name) as [track|err].
    2:{ eexists [_], _. split_and!; [done|constructor|done|].
        intros [|i] p e name' track' Hi; simpl in Hi; simplify_eq. }
    destruct (untrackFromTracks_releases_spec (Releases track) vc0 vc any Hp)
      as (releases' & vc' & -> & Hp' & HF).
    fold (any_blocking (Releases track) vc0).
    set (any' := any || any_blocking (Releases track) vc0).
    set (body := {| Releases := releases'; Track_Track := Track_Track track |}).
    set (tr2 := (tr ++ _) ++ [EvLogDonef _]).
    set (reply := Tracks_Patch_Do w tr2 pkg edit name body).
    destruct (IH vc' any' (tr2 ++ [EvTracksPatch pkg edit name body reply]) Hp')
      as (ext' & r & Hrun & Hproto & _ & Hext').
    assert (∃ ext0 r0,
      match reply with
      | Some (errorString msg) =>
          (tr2 ++ [EvTracksPatch pkg edit name body reply],
           Returned (Some (errorString
             ("failed to update track (" +:+ name +:+ "), error: " +:+ msg))))
      | _ => untrackFromTracks_loop w rest vc' pkg edit any'
               (tr2 ++ [EvTracksPatch pkg edit name body reply])
      end = ((tr2 ++ [EvTracksPatch pkg edit name body reply]) ++ ext0,
             Returned r0)
      ∧ cleanup_protocol pkg edit (name :: rest)
          (EvTracksGet pkg edit name (Ok track) :: EvLogDonef (report any')
           :: EvTracksPatch pkg edit name body reply :: ext0) r0
      ∧ (ext0 = [] ∨ ext0 = ext')) as (ext0 & r0 & -> & Hproto0 & Hext0).
    { destruct reply as [[|msg]|].
      - exists ext', r. split_and!; [done| |by right].
        apply protocol_round; auto.
      - eexists [], _. rewrite app_nil_r. split_and!; [done| |by left].
        apply protocol_patch_failed.
      - exists ext', r. split_and!; [done| |by right].
        apply protocol_round; auto. }
    exists (EvTracksGet pkg edit name (Ok track) :: EvLogDonef (report any')
            :: EvTracksPatch pkg edit name body reply :: ext0), r0.
    split_and!; [by subst tr2; rewrite <- !(assoc_L (++))|done| |].
    + simpl. by intros track' [= ->].
    + intros [|[|[|j]]] p e name' track' Hi; simpl in Hi; simplify_eq.
      * exists any'. split; [done|]. subst any'. by intros [_ ?]%orb_false_elim.
      * destruct Hext0 as [->| ->]; [by rewrite lookup_nil in Hi|].
        by apply (Hext' j p e name' track').
Qed.

(** X8.  The loop of the cleanup over the releases of a track never
    panics.  It hands back as many releases as it was given, and the new
    version codes with the same content, whatever their order; the flag it
    hands back is raised exactly when it was raised before or a release of
    the track is blocking. *)
Theorem untrackFromTracks_releases_keeps (releases : list TrackRelease)
    (versionCodes : list Z) (anyTrackUpdated : bool) :
  ∃ releases' versionCodes',
    untrackFromTracks_releases releases versionCodes anyTrackUpdated
    = Returned (releases', versionCodes',
                anyTrackUpdated || any_blocking releases versionCodes)
    ∧ length releases' = length releases
    ∧ versionCodes' ≡ₚ versionCodes.
Proof.
  destruct (untrackFromTracks_releases_spec releases versionCodes versionCodes
              anyTrackUpdated) as (releases' & vc' & Hrun & Hp & HF); [done|].
  exists releases', vc'. split_and!; [done| |done].
  symmetry. by eapply Forall2_length.
Qed.

(** X9.  The cleanup always returns, and its calls follow the protocol:
    for the names in order a fetch, the report and the patch of the track
    just fetched; a failed fetch ends it with an error and without patch; a
    patch failing with an error other than end of file ends it with an
    error; a patch answered by end of file counts as done; it returns no
    error exactly when every name was fetched and patched. *)
Theorem untrackFromTracks_protocol (w : World) (trackNamesToUpdate : list string)
    (versionCodes : list Z) (packageName appEditID : string) (tr : list Event) :
  ∃ ext r,
    untrackFromTracks w trackNamesToUpdate versionCodes packageName appEditID tr
    = (tr ++ ext, Returned r)
    ∧ cleanup_protocol packageName appEditID trackNamesToUpdate ext r.
Proof.
  destruct (untrackFromTracks_loop_run w versionCodes packageName appEditID
              trackNamesToUpdate versionCodes false tr)
    as (ext & r & Hrun & Hproto & _); [done|].
  by exists ext, r.
Qed.

Lemma any_blocking_Exists (releases : list TrackRelease) (vc : list Z) :
  any_blocking releases vc = true
  ↔ Exists (λ r, (hasBlockingVersionInRelease r vc).2 = Returned true) releases.
Proof.
  unfold any_blocking. induction releases as [|r releases IH]; simpl.
  - rewrite Exists_nil. done.
  - rewrite Exists_cons, orb_true_iff, IH, hasBlockingVersionInRelease_answer.
    split; (intros [H|H]; [left|by right]); [by rewrite H|by injection H].
Qed.

(** X10.  The report of the cleanup errs on one side only.  When it reads
    that no blocking version was found for a track, no release of that
    track is blocking; and for the first track fetched the report is
    exact. *)
Theorem untrackFromTracks_report_sound (w : World) (trackNamesToUpdate : list string)
    (versionCodes : list Z) (packageName appEditID : string) (tr0 : list Event)
    (i : nat) (p e name : string) (track : Track) :
  (length tr0 ≤ i)%nat →
  (untrackFromTracks w trackNamesToUpdate versionCodes packageName appEditID tr0).1
    !! i = Some (EvTracksGet p e name (Ok track)) →
  ∃ b,
    (untrackFromTracks w trackNamesToUpdate versionCodes packageName appEditID tr0).1
      !! S i = Some (EvLogDonef (report b))
    ∧ (b = false →
       Forall (λ r, (hasBlockingVersionInRelease r versionCodes).2 = Returned false)
         (Releases track))
    ∧ (i = length tr0 →
       b = true ↔
       Exists (λ r, (hasBlockingVersionInRelease r versionCodes).2 = Returned true)
         (Releases track)).
Proof.
  intros Hi Hget. unfold untrackFromTracks in *.
  destruct (untrackFromTracks_loop_run w versionCodes packageName appEditID
              trackNamesToUpdate versionCodes false tr0)
    as (ext & r & Hrun & Hproto & Hfirst & Hext); [done|].
  rewrite Hrun in *. cbn [fst] in *.
  rewrite lookup_app_r in Hget by done.
  destruct (Hext _ _ _ _ _ Hget) as (b & Hlog & Hb).
  exists b. rewrite lookup_app_r by lia.
  replace (S i - length tr0)%nat with (S (i - length tr0)) by lia.
  split_and!; [done| |].
  - intros Hfalse. specialize (Hb Hfalse). unfold any_blocking in Hb.
    apply Forall_forall. intros r' Hin.
    rewrite hasBlockingVersionInRelease_answer. f_equal.
    destruct (blocks (VersionCodes r') versionCodes) eqn:Hbl; [|done].
    assert (existsb (λ r, blocks (VersionCodes r) versionCodes) (Releases track)
            = true) as Hex; [|congruence].
    apply existsb_exists. exists r'. split; [|done]. by apply list_elem_of_In.
  - intros ->. rewrite Nat.sub_diag in Hget, Hlog.
    inversion Hproto as [|name0 rest err Hn He|name0 rest t0 msg0 body0 text0 Hn He
                         |name0 rest t0 msg0 body0 reply0 ext0 r1 Hreply Hrest Hn He];
      subst; simpl in Hget; simplify_eq.
    + specialize (Hfirst track eq_refl). simpl in Hfirst, Hlog.
      rewrite Hfirst in Hlog. injection Hlog as Hlog.
      assert (b = any_blocking (Releases track) versionCodes) as ->.
      { by destruct b, (any_blocking _ _). }
      apply any_blocking_Exists.
    + specialize (Hfirst track eq_refl). simpl in Hfirst, Hlog.
      rewrite Hfirst in Hlog. injection Hlog as Hlog.
      assert (b = any_blocking (Releases track) versionCodes) as ->.
      { by destruct b, (any_blocking _ _). }
      apply any_blocking_Exists.
Qed.

Lemma untrackFromTracks_report_sound_witness :
  ∃ b,
    (untrackFromTracks demo_world ["beta"] [3; 6] "pkg" "edit" []).1 !! 1%nat
    = Some (EvLogDonef (report b))
    ∧ (b = false →
       Forall (λ r, (hasBlockingVersionInRelease r [3; 6]).2 = Returned false)
         (Releases demo_beta))
    ∧ (0%nat = length (@nil Event) →
       b = true ↔
       Exists (λ r, (hasBlockingVersionInRelease r [3; 6]).2 = Returned true)
         (Releases demo_beta)).
Proof.
  apply (untrackFromTracks_report_sound demo_world ["beta"] [3; 6] "pkg" "edit"
           [] 0 "pkg" "edit" "beta" demo_beta).
  - simpl. lia.
  - reflexivity.
Defined.

(** ** More on expansion files *)

Section expansion_more.

Implicit Types (s d : string) (b : ascii).

Lemma TrimSpace_infix s : ∃ L q, s = L +:+ strings.TrimSpace s +:+ q.
Proof.
  destruct (TrimLeftSpace_decomp s) as (L & HL & _).
  destruct (TrimRightSpace_prefix (strings.TrimLeftSpace s)) as (q & Hq).
  exists L, q. unfold strings.TrimSpace. by rewrite <- Hq.
Qed.

Lemma contains_byte_TrimSpace b s :
  contains_byte b s = false → contains_byte b (strings.TrimSpace s) = false.
Proof.
  destruct (TrimSpace_infix s) as (L & q & Hs). intros Hc.
  rewrite Hs, !contains_byte_append in Hc.
  by apply orb_false_elim in Hc as [_ [? _]%orb_false_elim].
Qed.

Lemma contains_byte_without b s : contains_byte b (without b s) = false.
Proof.
  induction s as [|c s IH]; simpl; [done|].
  destruct (Ascii.eqb c b) eqn:Hc; [done|]. simpl. by rewrite Hc.
Qed.

Lemma without_id b s : contains_byte b s = false → without b s = s.
Proof.
  induction s as [|c s IH]; simpl; [done|].
  intros [-> Hs]%orb_false_elim. by rewrite IH.
Qed.

(** What [expFileInfo] makes of a descriptor, by its first colon. *)
Lemma expFileInfo_eq d :
  (contains_byte ":" d = false
   ∧ expFileInfo d = Err (errorString ("malformed expansion file path: " +:+ d)))
  ∨ ∃ ty rest,
      d = ty +:+ ":" +:+ rest ∧ contains_byte ":" ty = false
      ∧ expFileInfo d
        = Ok (strings.TrimSpace (without ":" rest), strings.TrimSpace ty).
Proof.
  destruct (contains_byte ":" d) eqn:Hd.
  - right. destruct (contains_byte_split ":" d Hd) as (ty & rest & -> & Hty).
    exists ty, rest. split_and!; [done|done|]. unfold expFileInfo.
    rewrite Split_append_sep by done. rewrite <- Join_Split_without.
    pose proof (Split_nonempty rest ":").
    by destruct (strings.Split rest ":") as [|seg segs].
  - left. split; [done|]. unfold expFileInfo. by rewrite Split_without_sep.
Qed.

End expansion_more.

(** X11.  Neither part of a parsed descriptor holds a colon: the colons of
    the path are dropped, so a path written with colons is not the path that
    is opened.  A descriptor made of a type and a path that hold no colon
    and no surrounding white space parses back to that path and type. *)
Theorem expFileInfo_colons :
  (∀ d path ty, expFileInfo d = Ok (path, ty) →
     contains_byte ":" path = false ∧ contains_byte ":" ty = false)
  ∧ (∀ ty path,
       contains_byte ":" ty = false → contains_byte ":" path = false →
       strings.TrimSpace ty = ty → strings.TrimSpace path = path →
       expFileInfo (ty +:+ ":" +:+ path) = Ok (path, ty)).
Proof.
  split.
  - intros d path ty Hd.
    destruct (expFileInfo_eq d) as [[_ Herr]|(ty' & rest & _ & Hty & Hok)];
      [congruence|].
    rewrite Hok in Hd. injection Hd as <- <-. split.
    + apply contains_byte_TrimSpace, contains_byte_without.
    + by apply contains_byte_TrimSpace.
  - intros ty path Hty Hpath Htrim Htrim'.
    destruct (expFileInfo_eq (ty +:+ ":" +:+ path))
      as [[Hc _]|(ty' & rest & Heq & Hty' & ->)].
    { rewrite contains_byte_append in Hc. simpl in Hc.
      by rewrite orb_true_r in Hc. }
    assert (strings.Split (ty +:+ ":" +:+ path) ":"
            = ty :: strings.Split path ":") as H1.
    { by apply (Split_append_sep ty ":" path). }
    assert (strings.Split (ty' +:+ ":" +:+ rest) ":"
            = ty' :: strings.Split rest ":") as H2.
    { by apply (Split_append_sep ty' ":" rest). }
    rewrite Heq, H2 in H1. injection H1 as -> Hsplit.
    assert (without ":" rest = without ":" path) as ->.
    { by rewrite <- !Join_Split_without, Hsplit. }
    by rewrite without_id, Htrim, Htrim'.
Qed.

Lemma expFileInfo_colons_witness :
  (contains_byte ":" "C/data/app.obb" = false ∧ contains_byte ":" "main" = false)
  ∧ expFileInfo "patch:/data/app.obb" = Ok ("/data/app.obb", "patch").
Proof.
  destruct expFileInfo_colons as [Hno Hback]. split.
  - apply (Hno "main:C:/data/app.obb"). by vm_compute.
  - apply (Hback "patch" "/data/app.obb"); by vm_compute.
Defined.

(** X12.  The upload of an expansion file does one of three things: it
    rejects the entry and calls nothing; it fails to open the file and does
    not call the backend; or it opens the file and uploads what it opened,
    once, for the given package, edit and version code and with a type that
    is main or patch.  It returns no error exactly when the upload was made
    and answered without error. *)
Theorem uploadExpansionFiles_protocol (w : World)
    (expFileEntry packageName appEditID : string) (versionCode : Z)
    (tr : list Event) :
  (uploadExpansionFiles w expFileEntry packageName appEditID versionCode tr
   = (tr, Some (errorString ("invalid expansion file config: " +:+ expFileEntry))))
  ∨ (∃ path ty err,
       expFileInfo (strings.TrimSpace expFileEntry) = Ok (path, ty)
       ∧ uploadExpansionFiles w expFileEntry packageName appEditID versionCode tr
         = (tr ++ [EvOpen path (Err err)],
            Some (errorString
              ("failed to read expansion file (<nil>), error: " +:+ Error err))))
  ∨ (∃ path ty file reply,
       expFileInfo (strings.TrimSpace expFileEntry) = Ok (path, ty)
       ∧ (ty = "main" ∨ ty = "patch")
       ∧ (uploadExpansionFiles w expFileEntry packageName appEditID versionCode
            tr).1
         = tr ++ [EvOpen path (Ok file);
                  EvExpansionfilesUpload packageName appEditID versionCode ty
                    file reply]
       ∧ ((uploadExpansionFiles w expFileEntry packageName appEditID versionCode
             tr).2 = None ↔ reply = None)).
Proof.
  unfold uploadExpansionFiles.
  destruct (validateExpansionFileConfig (strings.TrimSpace expFileEntry)) eqn:Hv;
    [|by left].
  right. cbn [negb].
  destruct (validateExpansionFileConfig_well_formed _ Hv) as [Hlen Hty].
  destruct (expFileInfo_eq (strings.TrimSpace expFileEntry))
    as [[Hc _]|(ty & rest & Heq & Hcty & Hok)].
  { apply Split_length_lt_2 in Hc. lia. }
  rewrite Hok.
  assert (strings.TrimSpace ty = descriptor_type (strings.TrimSpace expFileEntry))
    as Hty'.
  { unfold descriptor_type. rewrite Heq.
    change (ty +:+ ":" +:+ rest) with (ty +:+ String ":" rest).
    by rewrite Split_append_sep. }
  unfold mbind, M_bind, perform. cbn zeta.
  destruct (os_Open w tr _) as [file|err] eqn:Hopen.
  - right. set (reply := Expansionfiles_Upload_Do w _ _ _ _ _ _).
    exists (strings.TrimSpace (without ":" rest)), (strings.TrimSpace ty), file,
      reply.
    split_and!; [done|by rewrite Hty'| |].
    + rewrite <- (assoc_L (++)). by destruct reply.
    + by destruct reply.
  - left. by eexists _, _, err.
Qed.

(** ** More on the release notes *)

Section release_notes_more.

Implicit Types (s : string).

Lemma line_prefix s : ∃ b, s = line s +:+ b.
Proof.
  induction s as [|c s [b IH]]; simpl; [by exists ""|].
  destruct (Ascii.eqb c "010"); [by eexists|].
  exists b. rewrite append_cons. by rewrite <- IH.
Qed.

Lemma line_no_line_feed s : contains_byte "010" (line s) = false.
Proof.
  induction s as [|c s IH]; simpl; [done|].
  destruct (Ascii.eqb c "010") eqn:Hc; [done|]. simpl. by rewrite Hc.
Qed.

(** What the pattern finds: nothing, or an occurrence of [whatsnew-]
    followed by a group that holds a hyphen and no line feed. *)
Lemma FindStringSubmatch_shape s :
  FindStringSubmatch s = []
  ∨ ∃ group a b,
      FindStringSubmatch s = ["whatsnew-" +:+ group; group]
      ∧ contains_byte "-" group = true
      ∧ contains_byte "010" group = false
      ∧ s = a +:+ "whatsnew-" +:+ group +:+ b.
Proof.
  induction s as [|c s IH]; [by left|].
  cbn [FindStringSubmatch].
  destruct (strings.HasPrefix (String c s) "whatsnew-") eqn:Hp;
    [destruct (contains_byte "-" (line (strings.drop 9 (String c s)))) eqn:Hh|].
  - right. cbn [andb]. destruct (line_prefix (strings.drop 9 (String c s))) as [b Hb].
    exists (line (strings.drop 9 (String c s))), "", b.
    split_and!; [done|done|apply line_no_line_feed|].
    apply HasPrefix_decomp in Hp. rewrite append_nil_l, <- Hb. exact Hp.
  - cbn [andb]. destruct IH as [IH|(group & a & b & IH & ? & ? & ->)]; [by left|].
    right. exists group, (String c a), b. by rewrite append_cons.
  - cbn [andb]. destruct IH as [IH|(group & a & b & IH & ? & ? & ->)]; [by left|].
    right. exists group, (String c a), b. by rewrite append_cons.
Qed.

(** The loop over the paths reads only paths it was given; what it adds
    to the mapping was read under a key found in the path. *)
Lemma readLocalisedRecentChanges_loop_general (w : World) (all : list string)
    (paths : list string) :
  paths ⊆ all →
  ∀ m0 tr,
    ∃ reads,
      (readLocalisedRecentChanges_loop w paths m0 tr).1 = tr ++ reads
      ∧ Forall (λ ev, ∃ path reply,
                  ev = EvReadStringFromFile path reply ∧ path ∈ all) reads
      ∧ match (readLocalisedRecentChanges_loop w paths m0 tr).2 with
        | Ok m =>
            Forall read_succeeded reads
            ∧ ∀ locale content,
                m !! locale = Some content →
                m0 !! locale = Some content
                ∨ (contains_byte "-" locale = true
                   ∧ contains_byte "010" locale = false
                   ∧ ∃ path a b,
                       path = a +:+ "whatsnew-" +:+ locale +:+ b
                       ∧ EvReadStringFromFile path (Ok content) ∈ reads)
        | Err e =>
            ∃ before path,
              reads = before ++ [EvReadStringFromFile path (Err e)]
              ∧ Forall read_succeeded before
        end.
Proof.
  induction paths as [|path paths IH]; intros Hsub m0 tr.
  { exists []. simpl. rewrite app_nil_r.
    split_and!; [done|constructor|constructor|auto]. }
  assert (path ∈ all) as Hpath by (apply Hsub; by left).
  assert (paths ⊆ all) as Hsub' by (intros x Hx; apply Hsub; by right).
  destruct (FindStringSubmatch_shape path)
    as [Hnone|(group & a & b & Hfind & Hh & Hnl & Hocc)].
  { cbn [readLocalisedRecentChanges_loop]. rewrite Hnone. by apply IH. }
  rewrite (readLocalisedRecentChanges_loop_cons w path paths m0 tr _ _ Hfind).
  cbn zeta. destruct (fileutil_ReadStringFromFile w tr path) as [content0|e].
  2:{ eexists [_]. split_and!; [done| |by exists [], path].
      repeat constructor. by eexists _, _. }
  destruct (IH Hsub' (<[group := content0]> m0)
              (tr ++ [EvReadStringFromFile path (Ok content0)]))
    as (reads & Htr & Hreads & Hres).
  exists (EvReadStringFromFile path (Ok content0) :: reads).
  split_and!.
  - rewrite Htr. by rewrite <- (assoc_L (++)).
  - constructor; [by eexists _, _|done].
  - destruct (readLocalisedRecentChanges_loop w paths _ _).2 as [m|e].
    + destruct Hres as [Hok Hres]. split.
      { constructor; [by eexists _, _|done]. }
      intros locale content Hl.
      destruct (Hres locale content Hl) as [Hm0|(? & ? & p' & a' & b' & ? & Hin)].
      * destruct (decide (group = locale)) as [->|Hne].
        -- rewrite lookup_insert_eq in Hm0. injection Hm0 as ->.
           right. split_and!; [done|done|].
           exists path, a, b. split; [done|]. by left.
        -- rewrite lookup_insert_ne in Hm0 by done. by left.
      * right. split_and!; [done|done|]. exists p', a', b'. split; [done|by right].
    + destruct Hres as (before & p' & -> & Hok).
      exists (EvReadStringFromFile path (Ok content0) :: before), p'.
      split; [done|]. constructor; [by eexists _, _|done].
Qed.

End release_notes_more.

(** X13.  Whatever the file system answers, the loader asks for one glob
    and then reads only paths the glob gave it.  When the glob fails it
    reads nothing and returns that error.  It returns a mapping only when
    every read succeeded; otherwise the read that failed is its last call,
    every read before it succeeded, and the error of that read is returned.
    Every key of a mapping it returns holds a hyphen and no line feed,
    stands behind an occurrence of [whatsnew-] in a path that was read, and
    maps to what that read returned. *)
Theorem readLocalisedRecentChanges_calls (w : World) (recentChangesDir : string)
    (tr : list Event) :
  ∃ globbed reads,
    (readLocalisedRecentChanges w recentChangesDir tr).1
    = tr ++ EvGlob (filepath_Join w recentChangesDir "whatsnew-*-*") globbed
         :: reads
    ∧ match globbed with
      | Err e =>
          reads = [] ∧ (readLocalisedRecentChanges w recentChangesDir tr).2 = Err e
      | Ok paths =>
          Forall (λ ev, ∃ path reply,
                    ev = EvReadStringFromFile path reply ∧ path ∈ paths) reads
          ∧ match (readLocalisedRecentChanges w recentChangesDir tr).2 with
            | Ok m =>
                Forall read_succeeded reads
                ∧ ∀ locale content,
                    m !! locale = Some content →
                    contains_byte "-" locale = true
                    ∧ contains_byte "010" locale = false
                    ∧ ∃ path a b,
                        path = a +:+ "whatsnew-" +:+ locale +:+ b
                        ∧ EvReadStringFromFile path (Ok content) ∈ reads
            | Err e =>
                ∃ before path,
                  reads = before ++ [EvReadStringFromFile path (Err e)]
                  ∧ Forall read_succeeded before
            end
      end.
Proof.
  unfold readLocalisedRecentChanges, mbind, M_bind, perform. cbn zeta.
  destruct (filepath_Glob w tr _) as [paths|e] eqn:Hglob.
  2:{ exists (Err e), []. by split_and!. }
  destruct (readLocalisedRecentChanges_loop_general w paths paths (reflexivity _) ∅
              (tr ++ [EvGlob (filepath_Join w recentChangesDir "whatsnew-*-*")
                        (Ok paths)]))
    as (reads & Htr & Hreads & Hres).
  exists (Ok paths), reads. split_and!.
  - rewrite Htr. by rewrite <- (assoc_L (++)).
  - done.
  - destruct (readLocalisedRecentChanges_loop w paths _ _).2 as [m|e]; [|done].
    destruct Hres as [Hok Hres]. split; [done|].
    intros locale content Hl.
    destruct (Hres locale content Hl) as [Hm0|?]; [|done].
    by rewrite lookup_empty in Hm0.
Qed.

(** X14.  Without a notes directory the release builder calls nothing and
    builds a release without notes.  With one, it makes the calls of the
    loader and nothing else; when the loader fails, so does the builder,
    wrapping the error; otherwise the release carries exactly one note per
    locale of the mapping, with the text of that locale. *)
Theorem createTrackRelease_notes (w : World) (whatsNewsDir : string)
    (versionCodes : list Z) (userFraction : float64) (tr : list Event) :
  match createTrackRelease w whatsNewsDir versionCodes userFraction tr with
  | (tr', Ok release) =>
      if String.eqb whatsNewsDir "" then tr' = tr ∧ ReleaseNotes release = []
      else
        ∃ m, readLocalisedRecentChanges w whatsNewsDir tr = (tr', Ok m)
             ∧ NoDup (Language <$> ReleaseNotes release)
             ∧ ∀ language text,
                 m !! language = Some text
                 ↔ {| Language := language; Text := text;
                      LocalizedText_ForceSendFields := [];
                      LocalizedText_NullFields := [] |} ∈ ReleaseNotes release
  | (tr', Err e) =>
      whatsNewsDir ≠ ""
      ∧ ∃ e', readLocalisedRecentChanges w whatsNewsDir tr = (tr', Err e')
              ∧ e = errorString
                      ("failed to update listing, reason: "
                       +:+ "failed to read whatsnews, error: " +:+ Error e')
  end.
Proof.
  unfold createTrackRelease, updateListing, mbind, M_bind.
  destruct (String.eqb_spec whatsNewsDir "") as [->|Hdir]; cbn [negb].
  { by destruct (float64_nonzero userFraction). }
  destruct (readLocalisedRecentChanges w whatsNewsDir tr) as [tr' [m|e']] eqn:Hread.
  2:{ destruct (float64_nonzero userFraction); simpl;
        (split; [done|]); by exists e'. }
  set (notes :=
    (λ '(language, recentChanges),
       {| Language := language; Text := recentChanges;
          LocalizedText_ForceSendFields := [];
          LocalizedText_NullFields := [] |}) <$> map_to_list m).
  assert (NoDup (Language <$> notes)
    ∧ ∀ language text,
        m !! language = Some text
        ↔ {| Language := language; Text := text;
             LocalizedText_ForceSendFields := [];
             LocalizedText_NullFields := [] |} ∈ notes) as Hnotes.
  { subst notes. split.
    - rewrite <- list_fmap_compose.
      erewrite (list_fmap_ext _ fst); [apply NoDup_fst_map_to_list|].
      by intros i [l t] _.
    - intros language text. rewrite <- elem_of_map_to_list, list_elem_of_fmap.
      split.
      + intros Hin. by exists (language, text).
      + intros ([l t] & [= -> ->] & Hin). done. }
  destruct (float64_nonzero userFraction); unfold mret, M_ret;
    cbn [ReleaseNotes set_ReleaseNotes]; exists m; (split; [done|]);
    exact Hnotes.
Qed.

(** * Further properties of main.go *)

Module main_go_more_facts.
Import main_go main_go_more.

Lemma nonempty_true s : nonempty s = true ↔ s ≠ "".
Proof. unfold nonempty. by destruct (String.eqb_spec s ""). Qed.

Lemma nonempty_false s : nonempty s = false ↔ s = "".
Proof. unfold nonempty. by destruct (String.eqb_spec s ""). Qed.

Lemma only_checks_ret {A} (a : A) : only_checks (mret a).
Proof. intros tr. exists [], a. by rewrite app_nil_r. Qed.

Lemma only_checks_bind {A B} (m : P A) (k : A → P B) :
  only_checks m → (∀ a, only_checks (k a)) → only_checks (m ≫= k).
Proof.
  intros Hm Hk tr. unfold mbind, P_bind.
  destruct (Hm tr) as (ext & a & -> & Hext).
  destruct (Hk a (tr ++ ext)) as (ext' & b & -> & Hext').
  exists (ext ++ ext'), b. rewrite (assoc_L (++)). split; [done|].
  by apply Forall_app.
Qed.

Lemma check_exists_only_checks w what pth : only_checks (check_exists w what pth).
Proof.
  intros tr. unfold check_exists, mbind, P_bind, invoke.
  destruct (reply_IsPathExists w tr pth) as [[]|e]; simpl;
    eexists [_], _; (split; [reflexivity|]); by repeat constructor.
Qed.

Lemma validate_apks_only_checks w apkPaths : only_checks (validate_apks w apkPaths).
Proof.
  induction apkPaths as [|apkPath rest IH]; simpl; [apply only_checks_ret|].
  apply only_checks_bind; [apply check_exists_only_checks|].
  intros [e|]; [apply only_checks_ret|done].
Qed.

Lemma validate_only_checks w configs : only_checks (validate w configs).
Proof.
  assert (only_checks (validate_tail w configs)) as Htail.
  { unfold validate_tail. repeat case_match; try apply only_checks_ret.
    all: apply only_checks_bind; [apply validate_apks_only_checks|].
    all: intros [e|]; apply only_checks_ret. }
  assert (∀ what keyPath, only_checks (validate_key w what keyPath)) as Hkey.
  { intros what keyPath. unfold validate_key.
    case_match; [apply check_exists_only_checks|apply only_checks_ret]. }
  unfold validate. repeat case_match; try apply only_checks_ret.
  all: apply only_checks_bind; [apply Hkey|].
  all: intros [e|]; try apply only_checks_ret; done.
Qed.

Lemma check_exists_accepts w what pth tr tr' :
  check_exists w what pth tr = (tr', Continue None) →
  tr `prefix_of` tr' ∧ reply_IsPathExists w tr pth = Ok true.
Proof.
  unfold check_exists, mbind, P_bind, invoke.
  destruct (reply_IsPathExists w tr pth) as [[]|e]; simpl; [|done..].
  intros [= <-]. split; [by apply prefix_app_r|done].
Qed.

Lemma validate_apks_accepts w apkPaths :
  ∀ tr tr', validate_apks w apkPaths tr = (tr', Continue None) →
    tr `prefix_of` tr'
    ∧ Forall (λ pth, ∃ pre, tr `prefix_of` pre ∧ pre `prefix_of` tr'
                            ∧ reply_IsPathExists w pre pth = Ok true) apkPaths.
Proof.
  induction apkPaths as [|apkPath rest IH]; intros tr tr'; simpl.
  { intros [= <-]. by split. }
  unfold mbind, P_bind.
  destruct (check_exists w "APK" apkPath tr) as [tr1 [[e|]|c|msg]] eqn:Hcheck;
    try done.
  intros Hrest. apply check_exists_accepts in Hcheck as [Hpre Hreply].
  apply IH in Hrest as [Hpre' Hall]. split; [by etrans|].
  constructor.
  - exists tr. split_and!; [done|by etrans|done].
  - eapply Forall_impl; [exact Hall|]. intros pth (pre & ? & ? & ?).
    exists pre. split_and!; [by etrans|done|done].
Qed.

(** What an accepted configuration holds. *)
Lemma validate_None (w : Host) (configs : ConfigsModel) (tr tr' : list Step) :
  validate w configs tr = (tr', Continue None) →
  (JSONKeyPath configs ≠ ""
   ∨ (P12KeyPath configs ≠ "" ∧ ServiceAccountEmail configs ≠ ""))
  ∧ PackageName configs ≠ "" ∧ ApkPath configs ≠ "" ∧ Track configs ≠ ""
  ∧ (Track configs = "rollout" → UserFraction configs ≠ "")
  ∧ Forall (found_to_exist w tr') (strings.Split (ApkPath configs) "|").
Proof.
  intros Hrun.
  assert (∀ tr1, validate_tail w configs tr1 = (tr', Continue None) →
    PackageName configs ≠ "" ∧ ApkPath configs ≠ "" ∧ Track configs ≠ ""
    ∧ (Track configs = "rollout" → UserFraction configs ≠ "")
    ∧ Forall (found_to_exist w tr') (strings.Split (ApkPath configs) "|"))
    as Htail.
  { intros tr1. unfold validate_tail.
    destruct (nonempty (PackageName configs)) eqn:Hpkg; [|done].
    destruct (nonempty (ApkPath configs)) eqn:Hapk; [|done]. cbn [negb].
    unfold mbind, P_bind.
    destruct (validate_apks w _ tr1) as [tr2 [[e|]|c|msg]] eqn:Hapks; try done.
    destruct (nonempty (Track configs)) eqn:Htrack; [|done]. cbn [negb].
    apply validate_apks_accepts in Hapks as [_ Hall].
    apply nonempty_true in Hpkg, Hapk, Htrack.
    destruct (String.eqb_spec (Track configs) "rollout") as [Hroll|Hroll];
      cbn [andb].
    - destruct (nonempty (UserFraction configs)) eqn:Hfrac; [|done].
      apply nonempty_true in Hfrac. intros [= <-]. split_and!; try done.
      eapply Forall_impl; [exact Hall|]. intros pth (pre & _ & ? & ?).
      by exists pre.
    - intros [= <-]. split_and!; try done.
      eapply Forall_impl; [exact Hall|]. intros pth (pre & _ & ? & ?).
      by exists pre. }
  revert Hrun. unfold validate, mbind, P_bind.
  destruct (nonempty (JSONKeyPath configs)) eqn:Hjson.
  - apply nonempty_true in Hjson.
    destruct (validate_key w _ _ tr) as [tr1 [[e|]|c|msg]]; try done.
    intros Hrun%Htail. destruct Hrun as (? & ? & ? & ? & ?).
    split_and!; auto.
  - destruct (nonempty (P12KeyPath configs)) eqn:Hp12; [|done].
    apply nonempty_true in Hp12.
    destruct (validate_key w _ _ tr) as [tr1 [[e|]|c|msg]]; try done.
    destruct (nonempty (ServiceAccountEmail configs)) eqn:Hmail; [|done].
    apply nonempty_true in Hmail. cbn [negb].
    intros Hrun%Htail. destruct Hrun as (? & ? & ? & ? & ?).
    split_and!; auto.
Qed.

(** X15.  [validate] always returns, and all it does is check that paths
    exist.  When it accepts the configuration, a key is configured (a JSON
    key, or a P12 key together with the account email), package name, apk
    path and track are given, the user fraction is given when the track is
    rollout, and every path of the apk list was found to exist. *)
Theorem validate_accepts (w : Host) (configs : ConfigsModel) (tr : list Step) :
  ∃ ext r,
    validate w configs tr = (tr ++ ext, Continue r)
    ∧ Forall (λ s, is_check (call s) = true) ext
    ∧ (r = None →
       (JSONKeyPath configs ≠ ""
        ∨ (P12KeyPath configs ≠ "" ∧ ServiceAccountEmail configs ≠ ""))
       ∧ PackageName configs ≠ "" ∧ ApkPath configs ≠ "" ∧ Track configs ≠ ""
       ∧ (Track configs = "rollout" → UserFraction configs ≠ "")
       ∧ Forall (found_to_exist w (tr ++ ext))
           (strings.Split (ApkPath configs) "|")).
Proof.
  destruct (validate_only_checks w configs tr) as (ext & r & Hrun & Hchecks).
  exists ext, r. split_and!; [done|done|].
  intros ->. by apply (validate_None w configs tr).
Qed.

Lemma validate_accepts_witness :
  (validate calm_host (createConfigsModelFromEnvs calm_host) []).2 = Continue None
  ∧ Forall (λ s, is_check (call s) = true)
      (validate calm_host (createConfigsModelFromEnvs calm_host) []).1
  ∧ Forall (found_to_exist calm_host
              (validate calm_host (createConfigsModelFromEnvs calm_host) []).1)
      (strings.Split (ApkPath (createConfigsModelFromEnvs calm_host)) "|").
Proof.
  destruct (validate_accepts calm_host (createConfigsModelFromEnvs calm_host) [])
    as (ext & r & Hrun & Hchecks & Haccepts).
  rewrite Hrun. cbn [fst snd app].
  assert (r = None) as Hr.
  { apply (f_equal snd) in Hrun. vm_compute in Hrun. by injection Hrun. }
  split_and!; [by rewrite Hr|done|].
  by destruct (Haccepts Hr) as (_ & _ & _ & _ & _ & Hfound).
Defined.

(** X16.  A configuration that [validate] rejects ends the run with status
    1 before anything but path checks was done: no temporary directory, no
    download, no key reading, no call to the backend. *)
Theorem main_invalid_configuration (w : Host) (tr : list Step) (err : error) :
  validate w (createConfigsModelFromEnvs w) [] = (tr, Continue (Some err)) →
  main w [] = (tr, Exited 1)
  ∧ Forall (λ s, is_check (call s) = true) tr.
Proof.
  intros Hval. split.
  - unfold main. unfold mbind at 1, P_bind at 1. by rewrite Hval.
  - destruct (validate_only_checks w (createConfigsModelFromEnvs w) [])
      as (ext & a & Heq & Hall).
    rewrite Heq in Hval. by injection Hval as <- _.
Qed.

Lemma main_invalid_configuration_witness :
  main (main_go.Build_Host (λ _, "") (λ a b, a) (λ _, Ok float64_zero) ""
          (λ _ _, Ok true) (λ _ _, Ok "") (λ _ _, None) (λ _ _, None)
          (λ _ _ _, None) (λ _ _, None) (λ _ _, None) (λ _ _, Ok "")
          (reply_JWTConfigFromJSON calm_host) (λ _ _, RunOk "") (λ _, None)
          (λ _ _, Ok "") (λ _ _, Ok {| Id := "" |})
          (λ _ _ _ _, Ok {| VersionCode := 0 |}) (λ _ _ _ _ t, Ok t)
          (λ _ _ _, (None, None))) []
  = ([], Exited 1)
  ∧ Forall (λ s, is_check (call s) = true) [].
Proof.
  apply (main_invalid_configuration _ []
           (errorString "No JSONKeyPath nor P12KeyPath provided")).
  reflexivity.
Defined.

(** X17.  How a run of [main] ends tells whether the edit was committed.
    It ends well exactly when its last call is a commit that succeeded; it
    panics only right after a failed commit; and when it leaves with a
    status, the status is 1 and no commit succeeded. *)
Theorem main_exit_status (w : Host) :
  match (main w []).2 with
  | Continue _ =>
      ∃ pre packageName editID,
        (main w []).1
        = pre ++ [{| call := Edits_Commit packageName editID; failed := false |}]
  | Crashed _ =>
      ∃ pre packageName editID,
        (main w []).1
        = pre ++ [{| call := Edits_Commit packageName editID; failed := true |}]
  | Exited code =>
      code = 1
      ∧ Forall (λ s, is_commit (call s) = true → failed s = true) (main w []).1
  end.
Proof.
  destruct (main_go_facts.main_verdict w)
    as [[Hst Hn]|(pre & pkg & ed & f & Htr & Hclean & _ & Hf)].
  - rewrite Hst. split; [done|].
    eapply Forall_impl; [exact Hn|]. intros s Hs. simpl in Hs. congruence.
  - destruct f.
    + destruct Hf as [->|[msg ->]].
      * split; [done|]. rewrite Htr. apply Forall_app. split.
        -- eapply Forall_impl; [exact Hclean|]. intros s [Hs _]. congruence.
        -- by repeat constructor.
      * by exists pre, pkg, ed.
    + rewrite Hf. by exists pre, pkg, ed.
Qed.

(** X18.  [downloadFile] always returns and releases what it acquired: a
    file it created is closed, once and last; the response body is closed
    exactly when the request succeeded, before the file; and nothing is
    requested when the file cannot be created.  It returns no error exactly
    when creating, requesting and copying all succeeded, whatever the
    closes answer. *)
Theorem downloadFile_releases (w : Host) (downloadURL targetPath : string)
    (tr : list Step) :
  ∃ ext r,
    downloadFile w downloadURL targetPath tr = (tr ++ ext, Continue r)
    ∧ (call <$> ext = [os_Create targetPath]
       ∨ call <$> ext = [os_Create targetPath; http_Get downloadURL;
                         File_Close targetPath]
       ∨ call <$> ext = [os_Create targetPath; http_Get downloadURL;
                         io_Copy targetPath downloadURL; Body_Close downloadURL;
                         File_Close targetPath])
    ∧ (length ext = 1%nat ↔ ext !! 0%nat
                             = Some {| call := os_Create targetPath;
                                       failed := true |})
    ∧ (length ext = 3%nat ↔ ext !! 1%nat
                             = Some {| call := http_Get downloadURL;
                                       failed := true |})
    ∧ (r = None
       ↔ length ext = 5%nat
         ∧ ext !! 2%nat = Some {| call := io_Copy targetPath downloadURL;
                                  failed := false |}).
Proof.
  unfold downloadFile, mbind, P_bind, invoke.
  destruct (reply_os_Create w tr targetPath) as [e|] eqn:Hcreate; simpl.
  { eexists [_], _. split; [done|]. simpl.
    split_and!; [by left|done|done|]. split; [done|]. by intros [? _]. }
  destruct (reply_http_Get w _ downloadURL) as [e|] eqn:Hget; simpl.
  { eexists [_; _; _], _. split; [by rewrite <- !(assoc_L (++))|]. simpl.
    split_and!; [by right; left|done|done|]. split; [done|]. by intros [? _]. }
  destruct (reply_io_Copy w _ targetPath downloadURL) as [e|] eqn:Hcopy; simpl.
  { eexists [_; _; _; _; _], _. split; [by rewrite <- !(assoc_L (++))|]. simpl.
    split_and!; [by right; right|done|done|]. split; [done|]. by intros [_ ?]. }
  eexists [_; _; _; _; _], _. split; [by rewrite <- !(assoc_L (++))|]. simpl.
  split_and!; [by right; right|done|done|done].
Qed.

Lemma upload_steps_cons packageName editID apkPath apkFile opened :
  upload_steps packageName editID ((apkPath, apkFile) :: opened)
  = [ {| call := os_Open_apk apkPath; failed := false |};
      {| call := Apks_Upload packageName editID apkFile; failed := false |} ]
    ++ upload_steps packageName editID opened.
Proof. reflexivity. Qed.

Lemma uploads_answered_nil w packageName editID tr apkFiles codes :
  uploads_answered w packageName editID tr [] apkFiles codes.
Proof. by intros i apkPath ?. Qed.

Lemma uploads_answered_cons w packageName editID tr apkPath rest apkFile apk
    apkFiles codes :
  reply_os_Open w tr apkPath = Ok apkFile →
  reply_Apks_Upload w (tr ++ [{| call := os_Open_apk apkPath; failed := false |}])
    packageName editID apkFile = Ok apk →
  uploads_answered w packageName editID
    ((tr ++ [{| call := os_Open_apk apkPath; failed := false |}])
     ++ [{| call := Apks_Upload packageName editID apkFile; failed := false |}])
    rest apkFiles codes →
  uploads_answered w packageName editID tr (apkPath :: rest) (apkFile :: apkFiles)
    (VersionCode apk :: codes).
Proof.
  intros Hopen Hupload Hrest [|i] pth Hi.
  - injection Hi as <-. exists apkFile, apk. cbn [take zip_with lookup list_lookup].
    change (upload_steps packageName editID []) with (@nil Step).
    rewrite app_nil_r. by split_and!.
  - destruct (Hrest i pth Hi) as (file & apk' & Hfile & Hcode & Hopen' & Hupload').
    exists file, apk'. split_and!; [done|done|..].
    all: cbn [zip_with take]; rewrite upload_steps_cons.
    + rewrite <- !(assoc_L (++)) in Hopen'. exact Hopen'.
    + rewrite <- !(assoc_L (++)) in Hupload'. rewrite <- !(assoc_L (++)).
      exact Hupload'.
Qed.

(** X19.  The upload loop works through the paths in order, opening each
    file and uploading what the host opened before turning to the next.
    When it goes on, every path was opened and uploaded without failure and
    the version codes grew, in order, by the version code the host answered
    to each upload, the earlier codes kept in front; otherwise it leaves
    with status 1 right after the open or the upload that the host refused,
    the paths before that one opened and uploaded. *)
Theorem uploadApks_in_order (w : Host) (packageName editID : string)
    (apkPaths : list string) :
  ∀ (versionCode : list Z) (tr : list Step),
    match uploadApks w packageName editID apkPaths versionCode tr with
    | (tr', Continue versionCode') =>
        ∃ apkFiles codes,
          length apkFiles = length apkPaths ∧ length codes = length apkPaths
          ∧ uploads_answered w packageName editID tr apkPaths apkFiles codes
          ∧ versionCode' = versionCode ++ codes
          ∧ tr' = tr ++ upload_steps packageName editID (zip apkPaths apkFiles)
    | (tr', Exited code) =>
        code = 1
        ∧ ∃ apkFiles codes apkPath steps,
            apkPaths !! length apkFiles = Some apkPath
            ∧ uploads_answered w packageName editID tr
                (take (length apkFiles) apkPaths) apkFiles codes
            ∧ upload_refused w packageName editID
                (tr ++ upload_steps packageName editID (zip apkPaths apkFiles))
                apkPath steps
            ∧ tr' = tr ++ upload_steps packageName editID (zip apkPaths apkFiles)
                       ++ steps
    | (_, Crashed _) => False
    end.
Proof.
  induction apkPaths as [|apkPath rest IH]; intros versionCode tr.
  { simpl. exists [], []. rewrite !app_nil_r.
    split_and!; [done|done|apply uploads_answered_nil|done|done]. }
  cbn [uploadApks]. unfold mbind, P_bind, invoke.
  destruct (reply_os_Open w tr apkPath) as [apkFile|e] eqn:Hopen; simpl.
  2:{ split; [done|]. eexists [], [], apkPath, _. simpl. rewrite app_nil_r.
      split_and!; [done|apply uploads_answered_nil| |done].
      left. by exists e. }
  destruct (reply_Apks_Upload w _ packageName editID apkFile) as [apk|e]
    eqn:Hupload; simpl.
  2:{ split; [done|]. eexists [], [], apkPath, _. simpl. rewrite app_nil_r.
      split_and!; [done|apply uploads_answered_nil| |by rewrite <- (assoc_L (++))].
      right. by exists apkFile, e. }
  specialize (IH (versionCode ++ [VersionCode apk])
    ((tr ++ [{| call := os_Open_apk apkPath; failed := false |}])
     ++ [{| call := Apks_Upload packageName editID apkFile; failed := false |}])).
  destruct (uploadApks w packageName editID rest _ _) as [tr' [vc'|code|msg]];
    [| |done].
  - destruct IH as (apkFiles & codes & Hlen & Hlen' & Hanswered & -> & ->).
    exists (apkFile :: apkFiles), (VersionCode apk :: codes).
    split_and!; [simpl; lia|simpl; lia| |by rewrite <- (assoc_L (++))|].
    + by apply uploads_answered_cons.
    + cbn [zip_with]. rewrite upload_steps_cons. by rewrite <- !(assoc_L (++)).
  - destruct IH as (-> & apkFiles & codes & apkPath' & steps
                    & Hk & Hanswered & Hrefused & ->).
    split; [done|].
    exists (apkFile :: apkFiles), (VersionCode apk :: codes), apkPath', steps.
    cbn [zip_with length take]. rewrite upload_steps_cons.
    split_and!; [done| | |].
    + by apply uploads_answered_cons.
    + rewrite <- !(assoc_L (++)) in Hrefused. exact Hrefused.
    + by rewrite <- !(assoc_L (++)).
Qed.

Lemma no_session_ret {A} (a : A) : no_session_calls (mret a).
Proof. intros tr. exists [], (Continue a). by rewrite app_nil_r. Qed.

Lemma no_session_exit {A} code : no_session_calls (os_Exit (A:=A) code).
Proof. intros tr. exists [], (Exited code). by rewrite app_nil_r. Qed.

Lemma no_session_invoke {A} c (ask : list Step → A) bad :
  is_session c = false → no_session_calls (invoke c ask bad).
Proof. intros Hc tr. eexists [_], _. split; [done|]. by repeat constructor. Qed.

Lemma no_session_bind {A B} (m : P A) (k : A → P B) :
  no_session_calls m → (∀ a, no_session_calls (k a)) →
  no_session_calls (m ≫= k).
Proof.
  intros Hm Hk tr. unfold mbind, P_bind.
  destruct (Hm tr) as (ext & [a|code|msg] & -> & Hext); [|by eexists _, _..].
  destruct (Hk a (tr ++ ext)) as (ext' & st & -> & Hext').
  exists (ext ++ ext'), st. rewrite (assoc_L (++)). split; [done|].
  by apply Forall_app.
Qed.

Lemma createClient_no_session w configs : no_session_calls (createClient w configs).
Proof.
  assert (∀ url pth, no_session_calls (downloadFile w url pth)) as Hdl.
  { intros url pth. unfold downloadFile.
    repeat (first [ apply no_session_ret
                  | apply no_session_bind; [by apply no_session_invoke|intros ?]
                  | case_match ]). }
  assert (∀ configured fileName, no_session_calls (keyPath w configured fileName))
    as Hkey.
  { intros configured fileName. unfold keyPath.
    case_match; [apply no_session_ret|].
    apply no_session_bind; [by apply no_session_invoke|].
    intros [tmpDir|e]; [|apply no_session_exit].
    apply no_session_bind; [apply Hdl|].
    intros [e|]; [apply no_session_exit|apply no_session_ret]. }
  unfold createClient, jwtConfigFromJSONKeyFile, jwtConfigFromP12KeyFile.
  case_match.
  - apply no_session_bind; [apply Hkey|]. intros jsonKeyPth.
    apply no_session_bind.
    + apply no_session_bind; [by apply no_session_invoke|].
      intros [bytes|e]; [by apply no_session_invoke|apply no_session_ret].
    + intros [c|e]; [apply no_session_ret|apply no_session_exit].
  - apply no_session_bind; [apply Hkey|]. intros p12KeyPath.
    apply no_session_bind.
    + apply no_session_bind; [by apply no_session_invoke|].
      intros [out|err|e]; apply no_session_ret.
    + intros [c|e]; [apply no_session_ret|apply no_session_exit].
Qed.

Lemma bind_Continue {A B} (m : P A) (k : A → P B) tr tr' b :
  (m ≫= k) tr = (tr', Continue b) →
  ∃ tr1 a, m tr = (tr1, Continue a) ∧ k a tr1 = (tr', Continue b).
Proof.
  unfold mbind, P_bind. destruct (m tr) as [tr1 [a|code|msg]]; [|done..].
  intros Hk. by exists tr1, a.
Qed.

Lemma invoke_Continue {A} c ask bad tr tr' (a : A) :
  invoke c ask bad tr = (tr', Continue a) →
  ask tr = a ∧ tr' = tr ++ [{| call := c; failed := bad a |}].
Proof. unfold invoke. by intros [= <- <-]. Qed.

Lemma uploadApks_Continue w packageName editID apkPaths :
  ∀ versionCode tr tr' versionCode',
    uploadApks w packageName editID apkPaths versionCode tr
    = (tr', Continue versionCode') →
    ∃ apkFiles codes,
      length apkFiles = length apkPaths ∧ length codes = length apkPaths
      ∧ uploads_answered w packageName editID tr apkPaths apkFiles codes
      ∧ versionCode' = versionCode ++ codes
      ∧ tr' = tr ++ upload_steps packageName editID (zip apkPaths apkFiles).
Proof.
  induction apkPaths as [|apkPath rest IH]; intros vc tr tr' vc'.
  { simpl. intros [= <- <-]. exists [], []. rewrite !app_nil_r.
    split_and!; [done|done|apply uploads_answered_nil|done|done]. }
  cbn [uploadApks]. intros (tr1 & [apkFile|e] & Hopen & Hrest)%bind_Continue;
    [|done].
  apply bind_Continue in Hrest as (tr2 & [apk|e] & Hupload & Hrest); [|done].
  apply invoke_Continue in Hopen as [Hopen ->].
  apply invoke_Continue in Hupload as [Hupload ->].
  apply IH in Hrest as (apkFiles & codes & Hlen & Hlen' & Hanswered & -> & ->).
  exists (apkFile :: apkFiles), (VersionCode apk :: codes).
  split_and!; [simpl; lia|simpl; lia| |by rewrite <- (assoc_L (++))|].
  - by apply uploads_answered_cons.
  - cbn [zip_with]. rewrite upload_steps_cons. by rewrite <- !(assoc_L (++)).
Qed.

(** X20.  A run of [main] that ends well did, in order: path checks and
    the making of the client, without any call within an edit; the opening
    of one edit for the configured package; under the id of the edit the
    host answered, for each path of the apk list in order, the opening of
    the file and the upload of the file the host opened; one update of the
    configured track under that id, with the version codes the host answered
    to the uploads, in order, and with the parsed user fraction if the track
    is rollout and none otherwise; and the commit under that id. *)
Theorem main_success (w : Host) (tr : list Step) :
  main w [] = (tr, Continue tt) →
  let configs := createConfigsModelFromEnvs w in
  let apkPaths := strings.Split (ApkPath configs) "|" in
  ∃ before appEdit apkFiles codes newTrack,
    tr = before
         ++ [{| call := Edits_Insert (PackageName configs); failed := false |}]
         ++ upload_steps (PackageName configs) (Id appEdit) (zip apkPaths apkFiles)
         ++ [{| call := Tracks_Update (PackageName configs) (Id appEdit)
                          (Track configs) newTrack;
                failed := false |};
             {| call := Edits_Commit (PackageName configs) (Id appEdit);
                failed := false |}]
    ∧ Forall (λ s, is_session (call s) = false) before
    ∧ reply_Edits_Insert w before (PackageName configs) = Ok appEdit
    ∧ uploads_answered w (PackageName configs) (Id appEdit)
        (before ++ [{| call := Edits_Insert (PackageName configs);
                       failed := false |}])
        apkPaths apkFiles codes
    ∧ length apkFiles = length apkPaths
    ∧ length codes = length apkPaths
    ∧ TrackV2_Track newTrack = Track configs
    ∧ TrackV2_VersionCodes newTrack = codes
    ∧ (if String.eqb (Track configs) "rollout"
       then strconv_ParseFloat w (UserFraction configs)
            = Ok (TrackV2_UserFraction newTrack)
       else TrackV2_UserFraction newTrack = float64_zero).
Proof.
  intros Hrun. unfold main in Hrun. cbv zeta in *.
  generalize dependent (createConfigsModelFromEnvs w). intros configs Hrun.
  apply bind_Continue in Hrun as (tr0 & [e|] & Hval & Hrun); [done|].
  destruct (validate_only_checks w configs []) as (ext0 & a0 & Hval' & Hchecks).
  rewrite app_nil_l in Hval'. rewrite Hval' in Hval. injection Hval as <- _.
  apply bind_Continue in Hrun as (tr1 & jwtConfig & Hclient & Hrun).
  destruct (createClient_no_session w configs ext0)
    as (ext1 & st1 & Hclient' & Hnosess).
  rewrite Hclient' in Hclient. injection Hclient as <- _.
  apply bind_Continue in Hrun as (tr2 & [e|] & Hnew & Hrun); [done|].
  apply invoke_Continue in Hnew as [_ ->].
  apply bind_Continue in Hrun as (tr3 & [appEdit|e] & Hins & Hrun); [|done].
  apply invoke_Continue in Hins as [Hins ->].
  apply bind_Continue in Hrun as (tr4 & versionCode & Hup & Hrun).
  apply uploadApks_Continue in Hup
    as (apkFiles & codes & Hlen & Hlen' & Hanswered & -> & ->).
  apply bind_Continue in Hrun as (tr5 & newTrack & Hparse & Hrun).
  apply bind_Continue in Hrun as (tr6 & [updated|e] & Hupd & Hrun); [|done].
  apply invoke_Continue in Hupd as [_ ->].
  apply bind_Continue in Hrun as (tr7 & [appEdit' [e|]] & Hcommit & Hrun);
    [by destruct appEdit'|].
  apply invoke_Continue in Hcommit as [_ Hcommit].
  assert (tr = tr7) as -> by (destruct appEdit'; by injection Hrun).
  subst tr7. clear Hrun.
  exists ((ext0 ++ ext1)
          ++ [{| call := androidpublisher_New; failed := false |}]),
    appEdit, apkFiles, codes, newTrack.
  assert (Forall (λ s, is_session (call s) = false)
            ((ext0 ++ ext1)
             ++ [{| call := androidpublisher_New; failed := false |}])) as Hbefore.
  { repeat apply Forall_app_2; [|done|by repeat constructor].
    eapply Forall_impl; [exact Hchecks|]. intros s; simpl. by destruct (call s). }
  revert Hparse. destruct (String.eqb (Track configs) "rollout").
  - destruct (strconv_ParseFloat w (UserFraction configs)) as [x|e]; [|done].
    intros [= <- <-]. cbn [TrackV2_Track TrackV2_UserFraction TrackV2_VersionCodes].
    split_and!; try done.
    simpl. by rewrite <- !(assoc_L (++)).
  - intros [= <- <-]. cbn [TrackV2_Track TrackV2_UserFraction TrackV2_VersionCodes].
    split_and!; try done.
    simpl. by rewrite <- !(assoc_L (++)).
Qed.

Lemma main_success_witness :
  ∃ before apkFiles newTrack,
    (main calm_host []).1
    = before
      ++ [{| call := Edits_Insert "com.example.app"; failed := false |}]
      ++ upload_steps "com.example.app" "edit1" (zip ["/a.apk"; "/b.apk"] apkFiles)
      ++ [{| call := Tracks_Update "com.example.app" "edit1" "rollout" newTrack;
             failed := false |};
          {| call := Edits_Commit "com.example.app" "edit1"; failed := false |}]
    ∧ length apkFiles = 2%nat
    ∧ length (TrackV2_VersionCodes newTrack) = 2%nat
    ∧ TrackV2_UserFraction newTrack = S754_finite false 4503599627370496 (-54).
Proof.
  pose proof (main_success calm_host (main calm_host []).1 eq_refl) as Hrun.
  cbv zeta in Hrun.
  destruct Hrun as (before & appEdit & apkFiles & codes & newTrack
                    & Htr & _ & Hins & _ & Hlen & Hlen' & _ & Hcodes & Hfrac).
  injection Hins as <-.
  exists before, apkFiles, newTrack.
  split; [exact Htr|]. split; [exact Hlen|]. split; [by rewrite Hcodes|].
  by injection Hfrac.
Defined.

End main_go_more_facts.
